(** * ddv-items: the CSV item parser (parser.go)

    A shallow embedding of [parser.go] and of the parts of the Go standard
    library it calls, followed by the properties of the filter, the
    sorter and the exporter.

    Go strings are byte sequences: they are modelled by [string], whose
    characters are the 8-bit [ascii].  Runes and Go's [int] are [Z]. *)

From Stdlib Require Import ZArith Ascii Lia Permutation.
From Stdlib Require String.
From stdpp Require Import base list strings gmap fin_maps sorting.

Local Open Scope Z_scope.

(* ===================================================================== *)
(** * Part I: the Go standard library, as far as parser.go uses it       *)
(* ===================================================================== *)

(** ** Bytes and slices of strings *)

Definition byteZ (c : ascii) : Z := Z.of_N (N_of_ascii c).
Definition Zbyte (z : Z) : ascii := ascii_of_N (Z.to_N (z mod 256)).

(** [s[i:]] *)
Fixpoint sliceFrom (i : nat) (s : string) : string :=
  match i, s with
  | O, _ => s
  | S _, EmptyString => EmptyString
  | S k, String _ t => sliceFrom k t
  end.

(** [s[:i]] *)
Fixpoint sliceTo (i : nat) (s : string) : string :=
  match i, s with
  | O, _ => EmptyString
  | S _, EmptyString => EmptyString
  | S k, String c t => String c (sliceTo k t)
  end.

(** [s[i]], as a number; 0 where Go panics (never reached by the code) *)
Definition byteAt (s : string) (i : nat) : Z :=
  match String.get i s with
  | Some c => byteZ c
  | None => 0
  end.

(** ** unicode/utf8 *)

Module utf8.

Definition RuneError : Z := 0xFFFD.
Definition RuneSelf : Z := 0x80.
Definition MaxRune : Z := 0x10FFFF.
Definition UTFMax : nat := 4.

Definition surrogateMin : Z := 0xD800.
Definition surrogateMax : Z := 0xDFFF.

Definition t1 : Z := 0x00.
Definition tx : Z := 0x80.
Definition t2 : Z := 0xC0.
Definition t3 : Z := 0xE0.
Definition t4 : Z := 0xF0.

Definition maskx : Z := 0x3F.
Definition mask2 : Z := 0x1F.
Definition mask3 : Z := 0x0F.
Definition mask4 : Z := 0x07.

Definition rune1Max : Z := 0x7F.
Definition rune2Max : Z := 0x7FF.
Definition rune3Max : Z := 0xFFFF.

Definition locb : Z := 0x80.
Definition hicb : Z := 0xBF.

(** The entries of the [first] table. *)
Definition xx : Z := 0xF1.
Definition as_ : Z := 0xF0.
Definition s1 : Z := 0x02.
Definition s2 : Z := 0x13.
Definition s3 : Z := 0x03.
Definition s4 : Z := 0x23.
Definition s5 : Z := 0x34.
Definition s6 : Z := 0x04.
Definition s7 : Z := 0x44.

(** [first[b]]: information about the first byte of an encoding. *)
Definition first (b : Z) : Z :=
  if b <? 0x80 then as_
  else if b <? 0xC2 then xx
  else if b <? 0xE0 then s1
  else if b =? 0xE0 then s2
  else if b <? 0xED then s3
  else if b =? 0xED then s4
  else if b <? 0xF0 then s3
  else if b =? 0xF0 then s5
  else if b <? 0xF4 then s6
  else if b =? 0xF4 then s7
  else xx.

(** [acceptRanges[i]] as a pair [(lo, hi)]. *)
Definition acceptRanges (i : Z) : Z * Z :=
  if i =? 0 then (locb, hicb)
  else if i =? 1 then (0xA0, hicb)
  else if i =? 2 then (locb, 0x9F)
  else if i =? 3 then (0x90, hicb)
  else if i =? 4 then (locb, 0x8F)
  else (0, 0).

(** [utf8.DecodeRuneInString]: the first rune of [s] and its width. *)
Definition DecodeRuneInString (s : string) : Z * nat :=
  match s with
  | EmptyString => (RuneError, 0%nat)
  | String c0 r0 =>
    let b0 := byteZ c0 in
    let x := first b0 in
    if as_ <=? x then
      (* the mask [rune(x) << 31 >> 31] is all ones exactly for [xx] *)
      (if Z.testbit x 0 then RuneError else b0, 1%nat)
    else
      let sz := Z.land x 7 in
      let accept := acceptRanges (Z.shiftr x 4) in
      if Z.of_nat (String.length s) <? sz then (RuneError, 1%nat)
      else match r0 with
      | EmptyString => (RuneError, 1%nat)
      | String c1 r1 =>
        let b1 := byteZ c1 in
        if (b1 <? fst accept) || (snd accept <? b1) then (RuneError, 1%nat)
        else if sz <=? 2 then
          (Z.lor (Z.shiftl (Z.land b0 mask2) 6) (Z.land b1 maskx), 2%nat)
        else match r1 with
        | EmptyString => (RuneError, 1%nat)
        | String c2 r2 =>
          let b2 := byteZ c2 in
          if (b2 <? locb) || (hicb <? b2) then (RuneError, 1%nat)
          else if sz <=? 3 then
            (Z.lor (Z.lor (Z.shiftl (Z.land b0 mask3) 12)
                          (Z.shiftl (Z.land b1 maskx) 6))
                   (Z.land b2 maskx), 3%nat)
          else match r2 with
          | EmptyString => (RuneError, 1%nat)
          | String c3 _ =>
            let b3 := byteZ c3 in
            if (b3 <? locb) || (hicb <? b3) then (RuneError, 1%nat)
            else
              (Z.lor (Z.lor (Z.lor (Z.shiftl (Z.land b0 mask4) 18)
                                   (Z.shiftl (Z.land b1 maskx) 12))
                            (Z.shiftl (Z.land b2 maskx) 6))
                     (Z.land b3 maskx), 4%nat)
          end
        end
      end
  end.

(** [utf8.RuneStart]: is [b] not a continuation byte? *)
Definition RuneStart (b : Z) : bool := negb (Z.land b 0xC0 =? 0x80).

(** The backward scan of [DecodeLastRuneInString]:
    [for start--; start >= lim; start-- { if RuneStart(s[start]) { break } }]
    with [n] the number of positions still to visit. *)
Fixpoint scanBack (s : string) (start : Z) (n : nat) : Z :=
  match n with
  | O => start
  | S k =>
    if RuneStart (byteAt s (Z.to_nat start)) then start
    else scanBack s (start - 1) k
  end.

(** [utf8.DecodeLastRuneInString]: the last rune of [s] and its width. *)
Definition DecodeLastRuneInString (s : string) : Z * nat :=
  let end_ := Z.of_nat (String.length s) in
  if end_ =? 0 then (RuneError, 0%nat)
  else
    let start := end_ - 1 in
    let r := byteAt s (Z.to_nat start) in
    if r <? RuneSelf then (r, 1%nat)
    else
      let lim := Z.max 0 (end_ - Z.of_nat UTFMax) in
      let start := scanBack s (start - 1) (Z.to_nat (start - lim)) in
      let start := Z.max 0 start in
      let '(r, size) := DecodeRuneInString (sliceFrom (Z.to_nat start) s) in
      if start + Z.of_nat size =? end_ then (r, size)
      else (RuneError, 1%nat).

(** [utf8.AppendRune] on an empty buffer: the encoding of [r]. *)
Definition EncodeRune (r : Z) : string :=
  let i := r mod 2 ^ 32 in               (* uint32(r) *)
  if i <=? rune1Max then String (Zbyte r) EmptyString
  else if i <=? rune2Max then
    String (Zbyte (Z.lor t2 (Z.shiftr r 6)))
      (String (Zbyte (Z.lor tx (Z.land r maskx))) EmptyString)
  else
    let r3 := if (MaxRune <? i) || ((surrogateMin <=? i) && (i <=? surrogateMax))
              then Some RuneError
              else if i <=? rune3Max then Some r else None in
    match r3 with
    | Some r =>
      String (Zbyte (Z.lor t3 (Z.shiftr r 12)))
        (String (Zbyte (Z.lor tx (Z.land (Z.shiftr r 6) maskx)))
          (String (Zbyte (Z.lor tx (Z.land r maskx))) EmptyString))
    | None =>
      String (Zbyte (Z.lor t4 (Z.shiftr r 18)))
        (String (Zbyte (Z.lor tx (Z.land (Z.shiftr r 12) maskx)))
          (String (Zbyte (Z.lor tx (Z.land (Z.shiftr r 6) maskx)))
            (String (Zbyte (Z.lor tx (Z.land r maskx))) EmptyString)))
    end.

(** [for i, c := range s]: the runes of [s] in order, each with its byte
    offset.  [skip] counts the bytes of the current rune still to pass. *)
Fixpoint rangeFrom (i : nat) (skip : nat) (s : string) : list (nat * Z) :=
  match s with
  | EmptyString => []
  | String _ t =>
    match skip with
    | S k => rangeFrom (S i) k t
    | O =>
      let '(c, w) := DecodeRuneInString s in
      (i, c) :: rangeFrom (S i) (w - 1) t
    end
  end.

Definition range (s : string) : list (nat * Z) := rangeFrom 0 0 s.

End utf8.

(** ** unicode *)

Module unicode.

Definition MaxLatin1 : Z := 0xFF.

(** The ranges of the [White_Space] table above Latin-1. *)
Definition White_Space_above_Latin1 (r : Z) : bool :=
  (r =? 0x1680) || ((0x2000 <=? r) && (r <=? 0x200A))
  || ((0x2028 <=? r) && (r <=? 0x2029)) || (r =? 0x202F)
  || (r =? 0x205F) || (r =? 0x3000).

(** [unicode.IsSpace] *)
Definition IsSpace (r : Z) : bool :=
  if r mod 2 ^ 32 <=? MaxLatin1 then
    (r =? 0x09) || (r =? 0x0A) || (r =? 0x0B) || (r =? 0x0C) || (r =? 0x0D)
    || (r =? 0x20) || (r =? 0x85) || (r =? 0xA0)
  else White_Space_above_Latin1 r.

End unicode.

(** ** strings *)

Module strings.

(** [asciiSpace[c] == 1] *)
Definition asciiSpace (c : Z) : bool :=
  (c =? 0x09) || (c =? 0x0A) || (c =? 0x0B) || (c =? 0x0C) || (c =? 0x0D)
  || (c =? 0x20).

(** [strings.Index], counting from offset [i]: the position of the first
    occurrence of [substr], or -1. *)
Fixpoint indexFrom (i : Z) (s substr : string) : Z :=
  if String.prefix substr s then i
  else match s with
       | EmptyString => -1
       | String _ t => indexFrom (i + 1) t substr
       end.

Definition Index (s substr : string) : Z := indexFrom 0 s substr.

(** [strings.Contains] *)
Definition Contains (s substr : string) : bool := 0 <=? Index s substr.

(** [indexFunc]: the offset of the first rune [r] with [f r = truth]. *)
Definition indexFunc (s : string) (f : Z -> bool) (truth : bool) : Z :=
  match List.find (fun ir => Bool.eqb (f (snd ir)) truth) (utf8.range s) with
  | Some (i, _) => Z.of_nat i
  | None => -1
  end.

(** The loop of [lastIndexFunc], [for i := len(s); i > 0; ...]. *)
Fixpoint lastIndexFunc_loop (fuel : nat) (s : string) (f : Z -> bool)
    (truth : bool) (i : Z) : Z :=
  match fuel with
  | O => -1
  | S fuel' =>
    if 0 <? i then
      let '(r, size) := utf8.DecodeLastRuneInString (sliceTo (Z.to_nat i) s) in
      let i := i - Z.of_nat size in
      if Bool.eqb (f r) truth then i
      else lastIndexFunc_loop fuel' s f truth i
    else -1
  end.

Definition lastIndexFunc (s : string) (f : Z -> bool) (truth : bool) : Z :=
  lastIndexFunc_loop (String.length s) s f truth (Z.of_nat (String.length s)).

(** [strings.TrimLeftFunc] *)
Definition TrimLeftFunc (s : string) (f : Z -> bool) : string :=
  let i := indexFunc s f false in
  if i =? -1 then EmptyString else sliceFrom (Z.to_nat i) s.

(** [strings.TrimRightFunc] *)
Definition TrimRightFunc (s : string) (f : Z -> bool) : string :=
  let i := lastIndexFunc s f false in
  let i :=
    if (0 <=? i) && (utf8.RuneSelf <=? byteAt s (Z.to_nat i)) then
      i + Z.of_nat (snd (utf8.DecodeRuneInString (sliceFrom (Z.to_nat i) s)))
    else i + 1 in
  sliceTo (Z.to_nat i) s.

(** [strings.TrimFunc] *)
Definition TrimFunc (s : string) (f : Z -> bool) : string :=
  TrimRightFunc (TrimLeftFunc s f) f.

(** The first loop of [TrimSpace], over the leading ASCII bytes: [inl t]
    when it stops at an ASCII byte that is no space or at the end, with
    [t = s[start:]]; [inr t] when it meets a byte [>= utf8.RuneSelf]. *)
Fixpoint trimSpaceStart (s : string) : string + string :=
  match s with
  | EmptyString => inl EmptyString
  | String c t =>
    if utf8.RuneSelf <=? byteZ c then inr s
    else if asciiSpace (byteZ c) then trimSpaceStart t
    else inl s
  end.

(** The second loop of [TrimSpace], on [t = s[start:]], from the end. *)
Fixpoint trimSpaceStop (t : string) (stop : nat) : string :=
  match stop with
  | O => EmptyString
  | S k =>
    let c := byteAt t k in
    if utf8.RuneSelf <=? c then TrimRightFunc (sliceTo stop t) unicode.IsSpace
    else if asciiSpace c then trimSpaceStop t k
    else sliceTo stop t
  end.

(** [strings.TrimSpace] *)
Definition TrimSpace (s : string) : string :=
  match trimSpaceStart s with
  | inr t => TrimFunc t unicode.IsSpace
  | inl t => trimSpaceStop t (String.length t)
  end.

(** [strings.Replace] with [n = -1] and a non-empty [old]: every
    non-overlapping occurrence of [old], from the left, becomes [new].
    [skip] counts the bytes of the current occurrence still to pass. *)
Fixpoint replaceFrom (old new : string) (skip : nat) (s : string) : string :=
  match s with
  | EmptyString => EmptyString
  | String c t =>
    match skip with
    | S k => replaceFrom old new k t
    | O =>
      if String.prefix old s
      then new +:+ replaceFrom old new (String.length old - 1) t
      else String c (replaceFrom old new 0 t)
    end
  end.

(** [strings.Replace] with [n = -1] and an empty [old]: [new] is put
    before every rune and at the end. *)
Fixpoint replaceEmpty (new : string) (skip : nat) (s : string) : string :=
  match s with
  | EmptyString => new
  | String c t =>
    match skip with
    | S k => String c (replaceEmpty new k t)
    | O =>
      new +:+ String c
        (replaceEmpty new (snd (utf8.DecodeRuneInString s) - 1) t)
    end
  end.

(** [strings.ReplaceAll] *)
Definition ReplaceAll (s old new : string) : string :=
  if String.eqb old new then s
  else if String.eqb old EmptyString then replaceEmpty new 0 s
  else replaceFrom old new 0 s.

(** [strings.Map]: every rune [c] of [s] (an invalid byte reads as
    [utf8.RuneError]) is replaced by the encoding of [mapping c], and
    dropped when [mapping c] is negative. *)
Definition Map (mapping : Z -> Z) (s : string) : string :=
  fold_right
    (fun ic acc =>
       let r := mapping (snd ic) in
       if 0 <=? r then utf8.EncodeRune r +:+ acc else acc)
    EmptyString (utf8.range s).

End strings.

(** ** strconv *)

Module strconv.

(** Go's [int] has 64 bits on the platforms considered here. *)
Definition intSize : Z := 64.
Definition maxInt : Z := 2 ^ (intSize - 1) - 1.
Definition minInt : Z := - 2 ^ (intSize - 1).

(** The digits of an unsigned decimal number; [None] is a syntax error. *)
Fixpoint parseDigits (acc : Z) (s : string) : option Z :=
  match s with
  | EmptyString => Some acc
  | String c t =>
    let ch := byteZ c - 48 in
    if (0 <=? ch) && (ch <=? 9) then parseDigits (acc * 10 + ch) t
    else None
  end.

(** [strconv.Atoi]: [Some n] when the error is [nil], [None] for a
    syntax error (empty, sign alone, a byte that is no digit) and for a
    value out of the range of [int]. *)
Definition Atoi (s : string) : option Z :=
  let '(neg, digits) :=
    match s with
    | String "-"%char t => (true, t)
    | String "+"%char t => (false, t)
    | _ => (false, s)
    end in
  match digits with
  | EmptyString => None
  | _ =>
    match parseDigits 0 digits with
    | None => None
    | Some un =>
      let n := if neg then - un else un in
      if (minInt <=? n) && (n <=? maxInt) then Some n else None
    end
  end.

End strconv.

(** ** math/bits *)

Module bits.

(** [bits.Len(x)]: the number of bits needed to represent [x]. *)
Definition Len (x : Z) : Z := if x <=? 0 then 0 else Z.log2 x + 1.

End bits.

(** ** sort

    [sort.Slice] as of Go 1.19 and later: pattern-defeating quicksort over
    the pair of a [Less] and a [Swap] on indices.  The slice is a [list];
    the [less] closure of the caller reads the two elements at its index
    arguments in the slice as it is at the time of the call. *)

Module sort.
Section lessSwap.

Context {A : Type}.

(** The caller's comparison, on the elements at the two indices. *)
Variable less : A -> A -> bool.

(** [xorshift.Next], on the 64-bit state; its shift constants are not
    the same in every Go release, and nothing below depends on them. *)
Variable xorshift_Next : Z -> Z.

Definition Less (data : list A) (i j : nat) : bool :=
  match data !! i, data !! j with
  | Some x, Some y => less x y
  | _, _ => false
  end.

Definition Swap (data : list A) (i j : nat) : list A :=
  match data !! i, data !! j with
  | Some x, Some y => <[j := x]> (<[i := y]> data)
  | _, _ => data
  end.

(** [for j := i; j > a && data.Less(j, j-1); j-- { data.Swap(j, j-1) }] *)
Fixpoint insertionInner (a j : nat) (data : list A) : list A :=
  match j with
  | O => data
  | S j' =>
    if (a <? j)%nat && Less data j j'
    then insertionInner a j' (Swap data j j')
    else data
  end.

(** [for i := a + 1; i < b; i++ { ... }], with [n] iterations left. *)
Fixpoint insertionOuter (n : nat) (a i : nat) (data : list A) : list A :=
  match n with
  | O => data
  | S n' => insertionOuter n' a (S i) (insertionInner a i data)
  end.

Definition insertionSort_func (data : list A) (a b : nat) : list A :=
  insertionOuter (b - (a + 1)) a (a + 1) data.

(** [siftDown_func]; [root] grows at every turn, so [hi] turns suffice. *)
Fixpoint siftDown_loop (fuel : nat) (data : list A) (root hi first : nat)
    : list A :=
  match fuel with
  | O => data
  | S fuel' =>
    let child := (2 * root + 1)%nat in
    if (hi <=? child)%nat then data
    else
      let child :=
        if (child + 1 <? hi)%nat && Less data (first + child) (first + child + 1)
        then (child + 1)%nat else child in
      if negb (Less data (first + root) (first + child)) then data
      else siftDown_loop fuel' (Swap data (first + root) (first + child))
                         child hi first
  end.

Definition siftDown_func (data : list A) (lo hi first : nat) : list A :=
  siftDown_loop hi data lo hi first.

(** [for i := (hi - 1) / 2; i >= 0; i-- { siftDown_func(data, i, hi, first) }],
    with [n = i + 1]. *)
Fixpoint heapBuild (n : nat) (data : list A) (hi first : nat) : list A :=
  match n with
  | O => data
  | S i => heapBuild i (siftDown_func data i hi first) hi first
  end.

(** [for i := hi - 1; i >= 0; i-- { data.Swap(first, first+i);
    siftDown_func(data, lo, i, first) }], with [n = i + 1]. *)
Fixpoint heapPop (n : nat) (data : list A) (first : nat) : list A :=
  match n with
  | O => data
  | S i => heapPop i (siftDown_func (Swap data first (first + i)) 0 i first) first
  end.

Definition heapSort_func (data : list A) (a b : nat) : list A :=
  let first := a in
  let hi := (b - a)%nat in
  let data := heapBuild ((hi - 1) / 2 + 1) data hi first in
  heapPop hi data first.

(** [for i <= j && data.Less(i, a) { i++ }] *)
Fixpoint scanUpLess (fuel : nat) (data : list A) (a i j : nat) : nat :=
  match fuel with
  | O => i
  | S fuel' =>
    if (i <=? j)%nat && Less data i a then scanUpLess fuel' data a (S i) j
    else i
  end.

(** [for i <= j && !data.Less(j, a) { j-- }] *)
Fixpoint scanDownNotLess (fuel : nat) (data : list A) (a i j : nat) : nat :=
  match fuel with
  | O => j
  | S fuel' =>
    if (i <=? j)%nat && negb (Less data j a)
    then scanDownNotLess fuel' data a i (j - 1)
    else j
  end.

(** The [for { ... }] loop of [partition_func]; returns the slice and [j]. *)
Fixpoint partitionLoop (fuel : nat) (data : list A) (a i j : nat)
    : list A * nat :=
  match fuel with
  | O => (data, j)
  | S fuel' =>
    let i := scanUpLess (S j - i) data a i j in
    let j := scanDownNotLess (S j - i) data a i j in
    if (j <? i)%nat then (data, j)
    else partitionLoop fuel' (Swap data i j) a (S i) (j - 1)
  end.

(** [partition_func]: the slice, the new pivot index, and whether the
    slice was already partitioned. *)
Definition partition_func (data : list A) (a b pivot : nat)
    : list A * nat * bool :=
  let data := Swap data a pivot in
  let i := (a + 1)%nat in
  let j := (b - 1)%nat in
  let i := scanUpLess (S j - i) data a i j in
  let j := scanDownNotLess (S j - i) data a i j in
  if (j <? i)%nat then (Swap data j a, j, true)
  else
    let data := Swap data i j in
    let '(data, j) := partitionLoop (S j - i) data a (S i) (j - 1) in
    (Swap data j a, j, false).

(** [for i <= j && !data.Less(a, i) { i++ }] *)
Fixpoint scanUpNotLess (fuel : nat) (data : list A) (a i j : nat) : nat :=
  match fuel with
  | O => i
  | S fuel' =>
    if (i <=? j)%nat && negb (Less data a i)
    then scanUpNotLess fuel' data a (S i) j
    else i
  end.

(** [for i <= j && data.Less(a, j) { j-- }] *)
Fixpoint scanDownLess (fuel : nat) (data : list A) (a i j : nat) : nat :=
  match fuel with
  | O => j
  | S fuel' =>
    if (i <=? j)%nat && Less data a j then scanDownLess fuel' data a i (j - 1)
    else j
  end.

(** The [for { ... }] loop of [partitionEqual_func]; returns the slice
    and [i]. *)
Fixpoint partitionEqualLoop (fuel : nat) (data : list A) (a i j : nat)
    : list A * nat :=
  match fuel with
  | O => (data, i)
  | S fuel' =>
    let i := scanUpNotLess (S j - i) data a i j in
    let j := scanDownLess (S j - i) data a i j in
    if (j <? i)%nat then (data, i)
    else partitionEqualLoop fuel' (Swap data i j) a (S i) (j - 1)
  end.

Definition partitionEqual_func (data : list A) (a b pivot : nat)
    : list A * nat :=
  let data := Swap data a pivot in
  partitionEqualLoop (b - a) data a (a + 1) (b - 1).

(** [for i < b && !data.Less(i, i-1) { i++ }] *)
Fixpoint skipSorted (fuel : nat) (data : list A) (i b : nat) : nat :=
  match fuel with
  | O => i
  | S fuel' =>
    if (i <? b)%nat && negb (Less data i (i - 1))
    then skipSorted fuel' data (S i) b
    else i
  end.

(** [for j := i - 1; j >= 1; j-- { if !data.Less(j, j-1) { break };
    data.Swap(j, j-1) }] *)
Fixpoint shiftLeft (j : nat) (data : list A) : list A :=
  match j with
  | O => data
  | S j' =>
    if negb (Less data j j') then data else shiftLeft j' (Swap data j j')
  end.

(** [for j := i + 1; j < b; j++ { if !data.Less(j, j-1) { break };
    data.Swap(j, j-1) }] *)
Fixpoint shiftRight (fuel : nat) (data : list A) (j b : nat) : list A :=
  match fuel with
  | O => data
  | S fuel' =>
    if (j <? b)%nat then
      if negb (Less data j (j - 1)) then data
      else shiftRight fuel' (Swap data j (j - 1)) (S j) b
    else data
  end.

Definition maxSteps : nat := 5.
Definition shortestShifting : nat := 50.

(** The [for j := 0; j < maxSteps; j++] loop of
    [partialInsertionSort_func], with [steps] turns left. *)
Fixpoint partialInsertionLoop (steps : nat) (data : list A) (a b i : nat)
    : list A * bool :=
  match steps with
  | O => (data, false)
  | S steps' =>
    let i := skipSorted (b - i) data i b in
    if (i =? b)%nat then (data, true)
    else if (b - a <? shortestShifting)%nat then (data, false)
    else
      let data := Swap data i (i - 1) in
      let data := if (2 <=? i - a)%nat then shiftLeft (i - 1) data else data in
      let data :=
        if (2 <=? b - i)%nat then shiftRight (b - (i + 1)) data (i + 1) b
        else data in
      partialInsertionLoop steps' data a b i
  end.

Definition partialInsertionSort_func (data : list A) (a b : nat)
    : list A * bool :=
  partialInsertionLoop maxSteps data a b (a + 1).

(** [nextPowerOfTwo] *)
Definition nextPowerOfTwo (length : nat) : Z :=
  Z.shiftl 1 (bits.Len (Z.of_nat length)).

(** The three swaps of [breakPatterns_func]; [random] is the xorshift
    state, [n] the number of turns left, [i = 3 - n]. *)
Fixpoint breakPatternsLoop (n : nat) (data : list A) (a length idx : nat)
    (modulus random : Z) (i : nat) : list A :=
  match n with
  | O => data
  | S n' =>
    let random := xorshift_Next random in
    let other := Z.to_nat (Z.land random (modulus - 1)) in
    let other := if (length <=? other)%nat then (other - length)%nat else other in
    breakPatternsLoop n' (Swap data (idx - 1 + i) (a + other)) a length idx
                      modulus random (S i)
  end.

Definition breakPatterns_func (data : list A) (a b : nat) : list A :=
  let length := (b - a)%nat in
  if (8 <=? length)%nat then
    let random := Z.of_nat length in
    let modulus := nextPowerOfTwo length in
    let idx := (a + (length / 4) * 2 - 1)%nat in
    breakPatternsLoop 3 data a length idx modulus random 0
  else data.

Inductive sortedHint := unknownHint | increasingHint | decreasingHint.

(** [order2_func]; the counter [swaps] is passed along. *)
Definition order2_func (data : list A) (a b swaps : nat) : nat * nat * nat :=
  if Less data b a then (b, a, S swaps) else (a, b, swaps).

Definition median_func (data : list A) (a b c swaps : nat) : nat * nat :=
  let '(a, b, swaps) := order2_func data a b swaps in
  let '(b, c, swaps) := order2_func data b c swaps in
  let '(a, b, swaps) := order2_func data a b swaps in
  (b, swaps).

Definition medianAdjacent_func (data : list A) (a swaps : nat) : nat * nat :=
  median_func data (a - 1) a (a + 1) swaps.

Definition shortestNinther : nat := 50.
Definition maxSwaps : nat := 4 * 3.

Definition choosePivot_func (data : list A) (a b : nat) : nat * sortedHint :=
  let l := (b - a)%nat in
  let swaps := 0%nat in
  let i := (a + l / 4 * 1)%nat in
  let j := (a + l / 4 * 2)%nat in
  let k := (a + l / 4 * 3)%nat in
  let '(j, swaps) :=
    if (8 <=? l)%nat then
      let '(i, j, k, swaps) :=
        if (shortestNinther <=? l)%nat then
          let '(i, swaps) := medianAdjacent_func data i swaps in
          let '(j, swaps) := medianAdjacent_func data j swaps in
          let '(k, swaps) := medianAdjacent_func data k swaps in
          (i, j, k, swaps)
        else (i, j, k, swaps) in
      median_func data i j k swaps
    else (j, swaps) in
  if (swaps =? 0)%nat then (j, increasingHint)
  else if (swaps =? maxSwaps)%nat then (j, decreasingHint)
  else (j, unknownHint).

(** [for i < j { data.Swap(i, j); i++; j-- }] *)
Fixpoint reverseLoop (fuel : nat) (data : list A) (i j : nat) : list A :=
  match fuel with
  | O => data
  | S fuel' =>
    if (i <? j)%nat then reverseLoop fuel' (Swap data i j) (S i) (j - 1)
    else data
  end.

Definition reverseRange_func (data : list A) (a b : nat) : list A :=
  reverseLoop (b - a) data a (b - 1).

Definition maxInsertion : nat := 12.

(** [pdqsort_func]: its [for] loop and its recursive calls.  Every turn
    and every call works on a strictly shorter range, so a [fuel] above
    [b - a] is never used up. *)
Fixpoint pdqsort_loop (fuel : nat) (data : list A) (a b limit : nat)
    (wasBalanced wasPartitioned : bool) : list A :=
  match fuel with
  | O => data
  | S fuel' =>
    let length := (b - a)%nat in
    if (length <=? maxInsertion)%nat then insertionSort_func data a b
    else if (limit =? 0)%nat then heapSort_func data a b
    else
      let '(data, limit) :=
        if negb wasBalanced then (breakPatterns_func data a b, (limit - 1)%nat)
        else (data, limit) in
      let '(pivot, hint) := choosePivot_func data a b in
      let '(data, pivot, hint) :=
        match hint with
        | decreasingHint =>
          (reverseRange_func data a b, (b - 1 - (pivot - a))%nat, increasingHint)
        | _ => (data, pivot, hint)
        end in
      let '(data, sorted) :=
        match hint with
        | increasingHint =>
          if wasBalanced && wasPartitioned
          then partialInsertionSort_func data a b
          else (data, false)
        | _ => (data, false)
        end in
      if sorted then data
      else if (0 <? a)%nat && negb (Less data (a - 1) pivot) then
        let '(data, mid) := partitionEqual_func data a b pivot in
        pdqsort_loop fuel' data mid b limit wasBalanced wasPartitioned
      else
        let '(data, mid, alreadyPartitioned) := partition_func data a b pivot in
        let wasPartitioned := alreadyPartitioned in
        let leftLen := (mid - a)%nat in
        let rightLen := (b - mid)%nat in
        let balanceThreshold := (length / 8)%nat in
        if (leftLen <? rightLen)%nat then
          let wasBalanced := (balanceThreshold <=? leftLen)%nat in
          let data := pdqsort_loop fuel' data a mid limit true true in
          pdqsort_loop fuel' data (mid + 1) b limit wasBalanced wasPartitioned
        else
          let wasBalanced := (balanceThreshold <=? rightLen)%nat in
          let data := pdqsort_loop fuel' data (mid + 1) b limit true true in
          pdqsort_loop fuel' data a mid limit wasBalanced wasPartitioned
  end.

Definition pdqsort_func (data : list A) (a b limit : nat) : list A :=
  pdqsort_loop (S (b - a)) data a b limit true true.

(** [sort.Slice] *)
Definition Slice (x : list A) : list A :=
  let length := List.length x in
  let limit := Z.to_nat (bits.Len (Z.of_nat length)) in
  pdqsort_func x 0 length limit.

End lessSwap.
End sort.

(** ** encoding/csv, os, path/filepath, encoding/json *)

Module csv.

(** The content of an open file as the CSV parser meets it, record by
    record: the fields of a record, or the text of the parse error where
    the bytes are no valid CSV (a quote out of place, for one). *)
Definition Input : Type := list (list string + string).

Inductive readError :=
| EOF                          (* io.EOF *)
| ParseError (msg : string)    (* a *csv.ParseError of the parser *)
| ErrFieldCount.               (* csv.ErrFieldCount: wrong number of fields *)

(** A [*csv.Reader]: the option [FieldsPerRecord] and what is left of the
    input. *)
Record Reader := mkReader { FieldsPerRecord : Z; input : Input }.

(** [csv.NewReader]: [FieldsPerRecord] is left at 0. *)
Definition NewReader (file : Input) : Reader := mkReader 0 file.

(** The check of the field count that ends [readRecord]: a positive
    [FieldsPerRecord] is the number of fields every record must have,
    and 0 makes the first record set it.  Returns the record or the
    error, and [FieldsPerRecord] afterwards. *)
Definition checkFields (fieldsPerRecord : Z) (record : list string)
    : (list string + readError) * Z :=
  if 0 <? fieldsPerRecord then
    (if Z.of_nat (length record) =? fieldsPerRecord then inl record
     else inr ErrFieldCount,
     fieldsPerRecord)
  else if fieldsPerRecord =? 0 then (inl record, Z.of_nat (length record))
  else (inl record, fieldsPerRecord).

(** [reader.Read()]: the record or the error, and the reader after it. *)
Definition Read (r : Reader) : (list string + readError) * Reader :=
  match input r with
  | [] => (inr EOF, r)
  | inr msg :: rest => (inr (ParseError msg), mkReader (FieldsPerRecord r) rest)
  | inl record :: rest =>
    let '(result, n) := checkFields (FieldsPerRecord r) record in
    (result, mkReader n rest)
  end.

End csv.

Module filepath.

(** A path made by [filepath.Join(dir, name)] is kept symbolic, as the
    pair of its two elements. *)
Definition Path : Type := string * string.
Definition Join (dir name : string) : Path := (dir, name).

End filepath.

Module os.

(** The file system as the program meets it.  An error is its text. *)
Record FS := {
  (** [os.Open]: the content of the file, or the error *)
  Open : string -> csv.Input + string;
  (** [os.MkdirAll(path, 0755)] *)
  MkdirAll : string -> option string;
  (** [os.WriteFile(path, data, 0644)] *)
  WriteFile : filepath.Path -> string -> option string
}.

End os.

Module json.
Section Marshal.

(** The encoder's quoting of a Go string as a JSON string literal
    (escapes included); its details differ between Go releases and are
    not modelled. *)
Variable quote : string -> string.

Definition nl : string := String (ascii_of_nat 10) EmptyString.

(** The encoder sorts the keys of a map, as byte strings. *)
Fixpoint insertKey (kv : string * string) (l : list (string * string))
    : list (string * string) :=
  match l with
  | [] => [kv]
  | kv' :: l' =>
    if String.leb (fst kv) (fst kv') then kv :: l
    else kv' :: insertKey kv l'
  end.

Definition sortKeys (l : list (string * string)) : list (string * string) :=
  foldr insertKey [] l.

Definition member (kv : string * string) : string :=
  "  " +:+ quote (fst kv) +:+ ": " +:+ quote (snd kv).

Fixpoint members (l : list (string * string)) : string :=
  match l with
  | [] => EmptyString
  | [kv] => member kv
  | kv :: l' => member kv +:+ "," +:+ nl +:+ members l'
  end.

(** [json.MarshalIndent(m, "", "  ")] for a non-nil [map[string]string];
    for this type it returns no error. *)
Definition MarshalIndent (m : gmap string string) : string :=
  match sortKeys (map_to_list m) with
  | [] => "{}"
  | kvs => "{" +:+ nl +:+ members kvs +:+ nl +:+ "}"
  end.

End Marshal.
End json.

(** [for k, v := range m]: Go visits the entries of a map in an order it
    does not specify.  The order is chosen by [seed]: at each turn the
    next number of [seed] picks one of the entries not yet visited. *)
Fixpoint rangeMap {B : Type} (seed : list nat) (entries : list B) : list B :=
  match seed with
  | [] => entries
  | n :: seed' =>
    match entries with
    | [] => []
    | _ =>
      let i := (n mod length entries)%nat in
      match entries !! i with
      | Some e => e :: rangeMap seed' (delete i entries)
      | None => entries
      end
    end
  end.

(* ===================================================================== *)
(** * Part II: parser.go                                                 *)
(* ===================================================================== *)

(** Configuration for included categories and excluded terms *)
Definition includedCategories : list string :=
  ["Pet"; "House Floor"; "House Wallpaper"; "House"; "NPC Skin"].
Definition excludeWords : list string := ["Quest"; "DONT"; "Don't"; "Bug"].

(** Item represents a filtered item from the CSV *)
Record Item := mkItem { ID : string; Name : string; Category : string }.

(** [ItemMap], a [map[string]string], is a [gmap string string]. *)

(** The errors [processCSV] returns, by the message that wraps the cause. *)
Inductive error :=
| errOpen (cause : string)            (* could not open file: %w *)
| errHeader (cause : csv.readError)   (* could not read header: %w *)
| errColumns                          (* could not find required columns ... *)
| errRow (cause : csv.readError).     (* error reading row: %w *)

(** What the program prints, by format string. *)
Inductive message :=
| msgUsage
| msgErrorProcessing (err : error)
| msgErrorCreatingDir (err : string)
| msgErrorSavingAll (err : string)
| msgAllSaved (path : filepath.Path)
| msgErrorSavingCategory (category : string) (err : string)
| msgCategorySaved (category : string) (path : filepath.Path) (n : nat)
| msgSummary (total : nat) (files : nat).

(** What the program does to the outside, in order. *)
Inductive event :=
| evPrint (m : message)
| evMkdirAll (dir : string)
| evWriteFile (path : filepath.Path) (data : string) (err : option string).

(** [max] returns the maximum of the given integers ([values[0]] of no
    value panics in Go; the program always passes three). *)
Definition max (values : list Z) : Z :=
  fold_left (fun maxVal v => if maxVal <? v then v else maxVal)
            values (hd 0 values).

(** [sanitizeFilename] creates a valid filename from a string *)
Definition sanitizeFilename (name : string) : string :=
  let name := strings.ReplaceAll name " " "_" in
  strings.Map
    (fun r =>
       if ((97 <=? r) && (r <=? 122)) || ((65 <=? r) && (r <=? 90))
          || ((48 <=? r) && (r <=? 57)) || (r =? 95) || (r =? 45)
       then r else 95)
    name.

(** The function literal given to [sort.Slice] in [sortItemsByID], on the
    two items at its index arguments. *)
Definition lessByID (x y : Item) : bool :=
  match strconv.Atoi (ID x), strconv.Atoi (ID y) with
  | Some idI, Some idJ => idI <? idJ
  | _, _ => String.ltb (ID x) (ID y)
  end.

(** [convertItemsToMap] converts a slice of items to a map with ID as key
    and Name as value *)
Definition convertItemsToMap (items : list Item) : gmap string string :=
  foldl (fun result item => <[ID item := Name item]> result) ∅ items.

(** The resolved column positions, [-1] while not found. *)
Record Columns := mkColumns {
  itemIDIndex : Z;
  nameIndex : Z;
  categoryIndex : Z
}.

(** [for i, column := range header { ... }] *)
Fixpoint findColumns (header : list string) (i : Z) (cols : Columns) : Columns :=
  match header with
  | [] => cols
  | column :: rest =>
    let trimmedColumn := strings.TrimSpace column in
    findColumns rest (i + 1)
      (if String.eqb trimmedColumn "Item ID" then
         mkColumns i (nameIndex cols) (categoryIndex cols)
       else if String.eqb trimmedColumn "Name" then
         mkColumns (itemIDIndex cols) i (categoryIndex cols)
       else if String.eqb trimmedColumn "Category" then
         mkColumns (itemIDIndex cols) (nameIndex cols) i
       else cols)
  end.

(** [record[i]]; the empty string where Go panics (excluded by the length
    check before every use). *)
Definition field (record : list string) (i : Z) : string :=
  nth (Z.to_nat i) record EmptyString.

(** The body of the row loop after a successful [Read]: the item the row
    yields, or [None] where the code says [continue]. *)
Definition filterRow (cols : Columns) (record : list string) : option Item :=
  if Z.of_nat (length record)
       <=? max [itemIDIndex cols; nameIndex cols; categoryIndex cols]
  then None
  else
    let itemID := strings.TrimSpace (field record (itemIDIndex cols)) in
    let name := strings.TrimSpace (field record (nameIndex cols)) in
    let category := strings.TrimSpace (field record (categoryIndex cols)) in
    if String.eqb itemID "" || String.eqb name "" || String.eqb category ""
    then None
    else
      let categoryIncluded := existsb (String.eqb category) includedCategories in
      if negb categoryIncluded then None
      else
        let nameContainsExcluded := existsb (strings.Contains name) excludeWords in
        if nameContainsExcluded then None
        else Some (mkItem itemID name category).

Section Program.

(** The pseudo-random step of [sort.Slice] and the string quoting of
    [encoding/json] (see Part I). *)
Variable xorshift_Next : Z -> Z.
Variable quote : string -> string.

(** The file system, and the order in which the [range] over
    [categoryMap] visits its entries. *)
Variable fs : os.FS.
Variable seed : list nat.

(** The row loop of [processCSV], [for { record, err := reader.Read() ... }],
    on the two fields of [reader]. *)
Fixpoint readRows (cols : Columns) (fieldsPerRecord : Z) (input : csv.Input)
    (items : list Item) : list Item + error :=
  match input with
  | [] => inl items                                (* err == io.EOF: break *)
  | inr msg :: _ => inr (errRow (csv.ParseError msg))
  | inl record :: rest =>
    match csv.checkFields fieldsPerRecord record with
    | (inr err, _) => inr (errRow err)
    | (inl record, n) =>
      match filterRow cols record with
      | None => readRows cols n rest items         (* continue *)
      | Some item => readRows cols n rest (items ++ [item])
      end
    end
  end.

(** [processCSV] reads and filters items from the CSV file: the items
    ([inl]) or the error ([inr]). *)
Definition processCSV (filePath : string) : list Item + error :=
  match os.Open fs filePath with
  | inr err => inr (errOpen err)
  | inl file =>
    let reader := csv.NewReader file in
    match csv.Read reader with
    | (inr err, _) => inr (errHeader err)
    | (inl header, reader) =>
      let cols := findColumns header 0 (mkColumns (-1) (-1) (-1)) in
      if (itemIDIndex cols =? -1) || (nameIndex cols =? -1)
         || (categoryIndex cols =? -1)
      then inr errColumns
      else readRows cols (csv.FieldsPerRecord reader) (csv.input reader) []
    end
  end.

(** [saveMapToJSON] writes the item map to a JSON file: the write it
    makes and the error it returns. *)
Definition saveMapToJSON (filePath : filepath.Path) (itemMap : gmap string string)
    : list event * option string :=
  let jsonData := json.MarshalIndent quote itemMap in
  let err := os.WriteFile fs filePath jsonData in
  ([evWriteFile filePath jsonData err], err).

(** [sortItemsByID] sorts the items by their ID *)
Definition sortItemsByID (items : list Item) : list Item :=
  sort.Slice lessByID xorshift_Next items.

(** [for _, item := range items { categoryMap[item.Category] =
    append(categoryMap[item.Category], item) }] *)
Definition groupByCategory (items : list Item) : gmap string (list Item) :=
  foldl (fun categoryMap item =>
           <[Category item :=
               default [] (categoryMap !! Category item) ++ [item]]> categoryMap)
        ∅ items.

(** The body of the loop over [categoryMap] in [main]. *)
Definition saveCategory (outputDir : string) (entry : string * list Item)
    : list event :=
  let '(category, categoryItems) := entry in
  let filename := sanitizeFilename category +:+ ".json" in
  let categoryPath := filepath.Join outputDir filename in
  let itemMap := convertItemsToMap categoryItems in
  match saveMapToJSON categoryPath itemMap with
  | (evs, Some err) => evs ++ [evPrint (msgErrorSavingCategory category err)]
  | (evs, None) =>
    evs ++ [evPrint (msgCategorySaved category categoryPath (length categoryItems))]
  end.

(** [main], given the values of the flags [-file] and [-outdir]: what it
    does, and the exit status of the process. *)
Definition main (inputFile outputDir : string) : list event * Z :=
  if String.eqb inputFile "" then ([evPrint msgUsage], 1)
  else
    match processCSV inputFile with
    | inr err => ([evPrint (msgErrorProcessing err)], 1)
    | inl items =>
      let items := sortItemsByID items in
      match os.MkdirAll fs outputDir with
      | Some err =>
        ([evMkdirAll outputDir; evPrint (msgErrorCreatingDir err)], 1)
      | None =>
        let allItemsMap := convertItemsToMap items in
        let allItemsPath := filepath.Join outputDir "allitems.json" in
        match saveMapToJSON allItemsPath allItemsMap with
        | (evs, Some err) =>
          (evMkdirAll outputDir :: evs ++ [evPrint (msgErrorSavingAll err)], 1)
        | (evs, None) =>
          let categoryMap := groupByCategory items in
          let visited := rangeMap seed (map_to_list categoryMap) in
          (evMkdirAll outputDir :: evs ++ [evPrint (msgAllSaved allItemsPath)]
             ++ (visited ≫= saveCategory outputDir)
             ++ [evPrint (msgSummary (length items) (size categoryMap))],
           0)
        end
      end
    end.

End Program.

(* ===================================================================== *)
(** * Part III: the vocabulary of the properties                         *)
(* ===================================================================== *)

(** [w] occurs in [s] as a plain, case-sensitive substring. *)
Definition isSubstring (w s : string) : Prop :=
  exists pre post : string, s = pre +:+ w +:+ post.

(** What the spec asks of a Record that survives the filter. *)
Definition accepted (r : Item) : Prop :=
  ID r <> "" /\ Name r <> "" /\ Category r <> ""
  /\ Category r ∈ includedCategories
  /\ forall w, w ∈ excludeWords -> ~ isSubstring w (Name r).

(** The fields of [r] are the trimmed fields of [record] at [cols]. *)
Definition trimmedFrom (cols : Columns) (record : list string) (r : Item) : Prop :=
  ID r = strings.TrimSpace (field record (itemIDIndex cols))
  /\ Name r = strings.TrimSpace (field record (nameIndex cols))
  /\ Category r = strings.TrimSpace (field record (categoryIndex cols)).

(** The records of an input, its parse errors left out. *)
Definition records (input : csv.Input) : list (list string) :=
  omap (fun x => match x with inl record => Some record | inr _ => None end) input.

(** The three required column names. *)
Definition requiredColumns : list string := ["Item ID"; "Name"; "Category"].

(** The position [cols] holds for a required column name. *)
Definition indexOf (cols : Columns) (name : string) : Z :=
  if String.eqb name "Item ID" then itemIDIndex cols
  else if String.eqb name "Name" then nameIndex cols
  else categoryIndex cols.

(** Column [k] of [header] is named [name], surrounding white space apart. *)
Definition columnNamed (header : list string) (name : string) (k : nat) : Prop :=
  exists column, header !! k = Some column /\ strings.TrimSpace column = name.

(** [idx] is -1 when no column of [header] is named [name], and otherwise
    the position of the last column named so. *)
Definition resolves (header : list string) (name : string) (idx : Z) : Prop :=
  (idx = -1 /\ forall k, ~ columnNamed header name k)
  \/ (exists k : nat, idx = Z.of_nat k /\ columnNamed header name k
        /\ forall k', columnNamed header name k' -> (k' <= k)%nat).

(** The position of the last column named [name] at or after offset [i],
    [dflt] when there is none. *)
Fixpoint lastMatch (name : string) (header : list string) (i dflt : Z) : Z :=
  match header with
  | [] => dflt
  | column :: rest =>
    lastMatch name rest (i + 1)
      (if String.eqb (strings.TrimSpace column) name then i else dflt)
  end.

(** The path and the bytes of the file of one category. *)
Definition categoryPath (outputDir category : string) : filepath.Path :=
  filepath.Join outputDir (sanitizeFilename category +:+ ".json").

Definition categoryData (quote : string -> string) (categoryItems : list Item)
    : string :=
  json.MarshalIndent quote (convertItemsToMap categoryItems).

(** The write [saveCategory] makes for an entry of [categoryMap]. *)
Definition categoryWrite (quote : string -> string) (fs : os.FS)
    (outputDir : string) (entry : string * list Item)
    : filepath.Path * (string * option string) :=
  let path := categoryPath outputDir entry.1 in
  let data := categoryData quote entry.2 in
  (path, (data, os.WriteFile fs path data)).

(** The sanitization rule in the words of the spec.  First step: every
    space becomes an underscore. *)
Fixpoint replaceSpaces (s : string) : string :=
  match s with
  | EmptyString => EmptyString
  | String c t =>
    String (if Ascii.eqb c " " then "_"%char else c) (replaceSpaces t)
  end.

(** An ASCII letter, an ASCII digit, an underscore or a hyphen. *)
Definition isSafe (r : Z) : bool :=
  ((97 <=? r) && (r <=? 122)) || ((65 <=? r) && (r <=? 90))
  || ((48 <=? r) && (r <=? 57)) || (r =? 95) || (r =? 45).

(** Second step: every character that is not safe becomes an underscore.
    The characters of a string are its runes, as a [range] reads them. *)
Definition replaceUnsafe (s : string) : string :=
  String.string_of_list_ascii
    (map (fun ic => if isSafe (snd ic) then Zbyte (snd ic) else "_"%char)
         (utf8.range s)).

(** The writes among the events of a run: path, bytes and outcome. *)
Definition writes (evs : list event)
    : list (filepath.Path * (string * option string)) :=
  omap (fun e => match e with
                 | evWriteFile path data err => Some (path, (data, err))
                 | _ => None
                 end) evs.

(** Thirteen records: the second has id 1, the others id 5. *)
Definition thirteen : list Item :=
  [mkItem "5" "a" "Pet"; mkItem "1" "b" "Pet"; mkItem "5" "c" "Pet";
   mkItem "5" "d" "Pet"; mkItem "5" "e" "Pet"; mkItem "5" "f" "Pet";
   mkItem "5" "g" "Pet"; mkItem "5" "h" "Pet"; mkItem "5" "i" "Pet";
   mkItem "5" "j" "Pet"; mkItem "5" "k" "Pet"; mkItem "5" "l" "Pet";
   mkItem "5" "m" "Pet"].

(** A file system that holds one input file and lets every write through. *)
Definition fsOf (file : csv.Input) : os.FS :=
  {| os.Open := fun _ => inl file;
     os.MkdirAll := fun _ => None;
     os.WriteFile := fun _ _ => None |}.

(** A file system like [fsOf file] on which writing the files named in
    [failing] fails. *)
Definition fsFailing (file : csv.Input) (failing : list string) : os.FS :=
  {| os.Open := fun _ => inl file;
     os.MkdirAll := fun _ => None;
     os.WriteFile := fun path _ =>
       if existsb (String.eqb path.2) failing then Some "disk full" else None |}.

(** A header with a repeated and an extra column, and rows of which some
    are dropped. *)
Definition sampleFile : csv.Input :=
  [inl ["Name"; " Item ID "; "Notes"; "Name"; "Category"];
   inl ["old"; "1"; "-"; "Red Chair"; "House"];
   inl ["old"; "2"; "-"; "Quest Banner"; "House"];
   inl ["old"; " 3 "; "-"; " Blue Pet"; "Pet "];
   inl ["old"; "4"; "-"; ""; "Pet"];
   inl ["old"; "5"; "-"; "Sword"; "Weapon"]].

Definition sampleItems : list Item :=
  [mkItem "1" "Red Chair" "House"; mkItem "3" "Blue Pet" "Pet"].

(** A file whose second data row has two fields where the header has
    three. *)
Definition shortRowFile : csv.Input :=
  [inl ["Item ID"; "Name"; "Category"];
   inl ["1"; "Red Chair"; "House"];
   inl ["2"; "Blue Pet"];
   inl ["3"; "Green Wall"; "House Wallpaper"]].

(** The names of the files a run can write. *)
Definition outputFiles : list string :=
  ["allitems.json"; "Pet.json"; "House_Floor.json"; "House_Wallpaper.json";
   "House.json"; "NPC_Skin.json"].

(** A continuation byte. *)
Definition cont (c : ascii) : Prop := 0x80 <= byteZ c <= 0xBF.

(** The shapes of a decoding: of the empty string, of an ASCII byte, of a
    byte that starts no valid encoding, and of a valid encoding in two,
    three or four bytes, which is the same whatever follows it. *)
Inductive decoded : string -> Z -> nat -> Prop :=
| decoded_empty : decoded "" utf8.RuneError 0
| decoded_ascii c t : byteZ c < 0x80 -> decoded (String c t) (byteZ c) 1
| decoded_invalid c t : 0x80 <= byteZ c -> decoded (String c t) utf8.RuneError 1
| decoded_two c0 c1 t r :
    0xC0 <= byteZ c0 -> cont c1 ->
    (forall t', utf8.DecodeRuneInString (String c0 (String c1 t')) = (r, 2%nat)) ->
    decoded (String c0 (String c1 t)) r 2
| decoded_three c0 c1 c2 t r :
    0xC0 <= byteZ c0 -> cont c1 -> cont c2 ->
    (forall t', utf8.DecodeRuneInString (String c0 (String c1 (String c2 t')))
                = (r, 3%nat)) ->
    decoded (String c0 (String c1 (String c2 t))) r 3
| decoded_four c0 c1 c2 c3 t r :
    0xC0 <= byteZ c0 -> cont c1 -> cont c2 -> cont c3 ->
    (forall t', utf8.DecodeRuneInString
                  (String c0 (String c1 (String c2 (String c3 t'))))
                = (r, 4%nat)) ->
    decoded (String c0 (String c1 (String c2 (String c3 t)))) r 4.

(** Every byte of [s] is an ASCII letter, an ASCII digit, an underscore
    or a hyphen. *)
Definition safeName (s : string) : Prop :=
  Forall (fun c => isSafe (byteZ c) = true) (String.list_ascii_of_string s).

(** The first row of [rows] that the reader refuses, after rows of
    [n] fields each, and the error the reader gives for it. *)
Definition firstBadRow (n : nat) (rows : csv.Input) (cause : csv.readError)
    : Prop :=
  exists before x after,
    rows = before ++ x :: after
    /\ Forall (fun y => exists record, y = inl record /\ length record = n) before
    /\ ((exists msg, x = inr msg /\ cause = csv.ParseError msg)
        \/ (exists record, x = inl record /\ length record <> n
                           /\ cause = csv.ErrFieldCount)).

Definition notCont (b : Z) : Prop := ~ (0x80 <= b <= 0xBF).

(** The index [lastIndexFunc] finds, moved behind the rune it is at, as
    [TrimRightFunc] does. *)
Definition behind (s : string) (i : Z) : Z :=
  if (0 <=? i) && (utf8.RuneSelf <=? byteAt s (Z.to_nat i)) then
    i + Z.of_nat (snd (utf8.DecodeRuneInString (sliceFrom (Z.to_nat i) s)))
  else i + 1.

(** [s] does not start with a white space rune. *)
Definition noSpaceAtStart (s : string) : Prop :=
  s = "" \/ unicode.IsSpace (utf8.DecodeRuneInString s).1 = false.

(** [s] does not end with a white space rune. *)
Definition noSpaceAtEnd (s : string) : Prop :=
  s = "" \/ unicode.IsSpace (utf8.DecodeLastRuneInString s).1 = false.

(** The elements of [d] at the positions [a <= i < b] are in order: none
    is less than one before it. *)
Definition sortedSeg {A : Type} (less : A -> A -> bool) (d : list A)
    (a b : nat) : Prop :=
  forall i j, (a <= i)%nat -> (i < j)%nat -> (j < b)%nat ->
    sort.Less less d j i = false.

(** [d'] has the length of [d] and the elements of [d] outside the
    positions [a <= i < b]. *)
Definition sameOutside {A : Type} (a b : nat) (d d' : list A) : Prop :=
  length d' = length d
  /\ forall k, (k < a \/ b <= k)%nat -> d' !! k = d !! k.

(** The transposition of [p] and [q]. *)
Definition transpose (p q k : nat) : nat :=
  if decide (k = p) then q else if decide (k = q) then p else k.

(** No element of [d] at a position [a <= k < b] is less than the element
    before the range, if there is one. *)
Definition lowerBound {A : Type} (less : A -> A -> bool) (d : list A)
    (a b : nat) : Prop :=
  (0 < a)%nat ->
  forall k, (a <= k < b)%nat -> sort.Less less d k (a - 1) = false.

(** In the heap of [hi] elements that starts at position [first] of [d],
    the element at [p] is not less than its children. *)
Definition heapAt {A : Type} (less : A -> A -> bool) (d : list A)
    (first hi p : nat) : Prop :=
  forall c, (c = 2 * p + 1 \/ c = 2 * p + 2)%nat -> (c < hi)%nat ->
    sort.Less less d (first + p) (first + c) = false.

(** This holds from [lo] on. *)
Definition heapFrom {A : Type} (less : A -> A -> bool) (d : list A)
    (first lo hi : nat) : Prop :=
  forall p, (lo <= p)%nat -> heapAt less d first hi p.

(** Every element of [d'] at a position [a <= k < b] is an element of [d]
    at such a position. *)
Definition segSource {A : Type} (a b : nat) (d d' : list A) : Prop :=
  forall k, (a <= k < b)%nat -> exists k', (a <= k' < b)%nat /\ d' !! k = d !! k'.

(** The key of [kv] is before the key of [kv'] in the byte-wise order. *)
Definition keyBefore (kv kv' : string * string) : Prop :=
  String.ltb kv.1 kv'.1 = true.

(* ===================================================================== *)
(** * Part IV: properties                                                *)
(* ===================================================================== *)

(** ** Substrings *)

Lemma append_nil (t : string) : "" +:+ t = t.
Proof. reflexivity. Qed.

Lemma append_cons (c : ascii) (s t : string) :
  String c s +:+ t = String c (s +:+ t).
Proof. reflexivity. Qed.

Lemma prefix_app (p s : string) :
  String.prefix p s = true <-> exists t, s = p +:+ t.
Proof.
  revert s. induction p as [|a p IH]; intros s; simpl.
  - destruct s; split; eauto.
  - destruct s as [|b s]; simpl.
    + split; [discriminate | intros [t Ht]; discriminate].
    + destruct (ascii_dec a b) as [->|Hab].
      * rewrite IH. split; intros [t Ht]; exists t;
          rewrite append_cons in *; congruence.
      * split; [discriminate | intros [t Ht]; rewrite append_cons in Ht; congruence].
Qed.

Lemma indexFrom_nil (w : string) (i : Z) :
  strings.indexFrom i "" w = if String.prefix w "" then i else -1.
Proof. reflexivity. Qed.

Lemma indexFrom_cons (w : string) (c : ascii) (s : string) (i : Z) :
  strings.indexFrom i (String c s) w =
  if String.prefix w (String c s) then i else strings.indexFrom (i + 1) s w.
Proof. reflexivity. Qed.

Lemma indexFrom_found (w s : string) (i : Z) :
  isSubstring w s -> i <= strings.indexFrom i s w.
Proof.
  revert i. induction s as [|c s IH]; intros i [pre [post H]].
  - destruct pre; [|discriminate]. rewrite append_nil in H.
    destruct w; [simpl; lia | discriminate].
  - rewrite indexFrom_cons. destruct (String.prefix w (String c s)) eqn:E; [lia|].
    destruct pre as [|a pre].
    + assert (String.prefix w (String c s) = true)
        by (apply prefix_app; eexists; eassumption).
      congruence.
    + rewrite append_cons in H. injection H as _ H.
      specialize (IH (i + 1)). assert (isSubstring w s) as Hs by (eexists; eexists; eassumption).
      apply IH in Hs. lia.
Qed.

Lemma indexFrom_sound (w s : string) (i : Z) :
  strings.indexFrom i s w <> -1 -> isSubstring w s.
Proof.
  revert i. induction s as [|c s IH]; intros i.
  - destruct w; [|simpl; congruence].
    intros _. exists "", "". reflexivity.
  - rewrite indexFrom_cons. destruct (String.prefix w (String c s)) eqn:E.
    + intros _. apply prefix_app in E as [t Ht]. exists "", t. exact Ht.
    + intros H. apply IH in H as [pre [post H]].
      exists (String c pre), post. rewrite append_cons. congruence.
Qed.

Lemma indexFrom_range (w s : string) (i : Z) :
  strings.indexFrom i s w = -1 \/ i <= strings.indexFrom i s w.
Proof.
  revert i. induction s as [|c s IH]; intros i.
  - destruct w; simpl; lia.
  - rewrite indexFrom_cons. destruct (String.prefix w (String c s)); [lia|].
    destruct (IH (i + 1)); lia.
Qed.

(** [strings.Contains] decides the substring relation. *)
Lemma Contains_spec (s w : string) :
  strings.Contains s w = true <-> isSubstring w s.
Proof.
  unfold strings.Contains, strings.Index. split.
  - intros H. apply (indexFrom_sound w s 0). apply Z.leb_le in H. lia.
  - intros H. apply Z.leb_le. apply (indexFrom_found w s 0 H).
Qed.


(** ** The filter *)

Lemma existsb_elem_of {B : Type} (f : B -> bool) (l : list B) :
  existsb f l = true <-> exists x, x ∈ l /\ f x = true.
Proof.
  rewrite existsb_exists. split; intros [x [H1 H2]]; exists x; split; auto;
    by apply list_elem_of_In.
Qed.

Lemma filterRow_Some (cols : Columns) (record : list string) (r : Item) :
  filterRow cols record = Some r ->
  max [itemIDIndex cols; nameIndex cols; categoryIndex cols]
    < Z.of_nat (length record)
  /\ trimmedFrom cols record r /\ accepted r.
Proof.
  unfold filterRow.
  destruct (Z.leb_spec (Z.of_nat (length record))
              (max [itemIDIndex cols; nameIndex cols; categoryIndex cols]))
    as [|Hlen]; [discriminate|].
  set (itemID := strings.TrimSpace (field record (itemIDIndex cols))).
  set (name := strings.TrimSpace (field record (nameIndex cols))).
  set (category := strings.TrimSpace (field record (categoryIndex cols))).
  destruct (String.eqb_spec itemID "") as [|Hid]; [discriminate|].
  destruct (String.eqb_spec name "") as [|Hname]; [discriminate|].
  destruct (String.eqb_spec category "") as [|Hcat]; [discriminate|].
  cbn [orb].
  destruct (existsb (String.eqb category) includedCategories) eqn:Hin;
    [|discriminate].
  cbn [negb].
  destruct (existsb (strings.Contains name) excludeWords) eqn:Hex;
    [discriminate|].
  intros [= <-]. split; [exact Hlen|]. split; [by repeat split|].
  repeat split; cbn [ID Name Category]; auto.
  - apply existsb_elem_of in Hin as [c [Hc Heq]].
    apply String.eqb_eq in Heq. by subst.
  - intros w Hw Hsub. apply Contains_spec in Hsub.
    assert (existsb (strings.Contains name) excludeWords = true) as Habs
      by (apply existsb_elem_of; eauto).
    congruence.
Qed.

Lemma checkFields_inl (n n' : Z) (record r : list string) :
  csv.checkFields n record = (inl r, n') ->
  r = record
  /\ (0 < n -> Z.of_nat (length record) = n /\ n' = n)
  /\ (n = 0 -> n' = Z.of_nat (length record)).
Proof.
  unfold csv.checkFields.
  destruct (Z.ltb_spec 0 n).
  - destruct (Z.eqb_spec (Z.of_nat (length record)) n); [|discriminate].
    intros [= <- <-]. repeat split; auto; lia.
  - destruct (Z.eqb_spec n 0); intros [= <- <-]; repeat split; auto; lia.
Qed.

(** The row loop is the loop over [reader.Read()]. *)
Lemma readRows_Read (cols : Columns) (reader : csv.Reader) (items : list Item) :
  readRows cols (csv.FieldsPerRecord reader) (csv.input reader) items =
  match csv.Read reader with
  | (inr csv.EOF, _) => inl items
  | (inr err, _) => inr (errRow err)
  | (inl record, reader') =>
    readRows cols (csv.FieldsPerRecord reader') (csv.input reader')
      match filterRow cols record with
      | None => items
      | Some item => items ++ [item]
      end
  end.
Proof.
  destruct reader as [n [|[record|msg] rest]]; unfold csv.Read;
    cbn [readRows csv.input csv.FieldsPerRecord]; try reflexivity.
  destruct (csv.checkFields n record) as [[r|err] n'] eqn:Hc;
    cbn [csv.input csv.FieldsPerRecord].
  - by destruct (filterRow cols r).
  - unfold csv.checkFields in Hc.
    destruct (0 <? n); [destruct (_ =? n); by simplify_eq|].
    destruct (n =? 0); discriminate.
Qed.

Lemma readRows_inl (cols : Columns) (n : Z) (input : csv.Input)
    (acc items : list Item) :
  readRows cols n input acc = inl items ->
  items = acc ++ omap (filterRow cols) (records input).
Proof.
  revert n acc. induction input as [|[record|msg] input IH]; intros n acc;
    cbn [readRows].
  - intros [= <-]. by rewrite app_nil_r.
  - unfold records; cbn [omap list_omap]. fold (records input).
    destruct (csv.checkFields n record) as [[r|err] n'] eqn:Hc; [|discriminate].
    apply checkFields_inl in Hc as [-> _].
    destruct (filterRow cols record) as [item|]; intros H; apply IH in H.
    + by rewrite H, <- app_assoc.
    + exact H.
  - discriminate.
Qed.

(** After the header, every record the row loop accepts has as many
    fields as the header. *)
Lemma readRows_field_count (cols : Columns) (n : Z) (input : csv.Input)
    (acc items : list Item) :
  0 < n -> readRows cols n input acc = inl items ->
  Forall (fun x => exists record, x = inl record /\ Z.of_nat (length record) = n)
         input.
Proof.
  intros Hn. revert acc. induction input as [|[record|msg] input IH]; intros acc;
    cbn [readRows]; [constructor| |discriminate].
  destruct (csv.checkFields n record) as [[r|err] n'] eqn:Hc; [|discriminate].
  apply checkFields_inl in Hc as (-> & Hlen & _).
  destruct (Hlen Hn) as [Hlen' ->].
  intros H. constructor; [by exists record|].
  destruct (filterRow cols record); by apply IH in H.
Qed.

(** A run of [processCSV] that returns items: the header resolved the
    three columns and the row loop ran over the rest of the file. *)
Lemma processCSV_readRows (fs : os.FS) (filePath : string) (items : list Item) :
  processCSV fs filePath = inl items ->
  exists header rest cols,
    os.Open fs filePath = inl (inl header :: rest)
    /\ cols = findColumns header 0 (mkColumns (-1) (-1) (-1))
    /\ itemIDIndex cols <> -1 /\ nameIndex cols <> -1 /\ categoryIndex cols <> -1
    /\ readRows cols (Z.of_nat (length header)) rest [] = inl items.
Proof.
  unfold processCSV.
  destruct (os.Open fs filePath) as [file|err]; [|discriminate].
  destruct file as [|[header|msg] rest]; cbn; try discriminate.
  set (cols := findColumns header 0 _).
  destruct (Z.eqb_spec (itemIDIndex cols) (-1)); [discriminate|].
  destruct (Z.eqb_spec (nameIndex cols) (-1)); [discriminate|].
  destruct (Z.eqb_spec (categoryIndex cols) (-1)); [discriminate|].
  cbn [orb]. intros H.
  exists header, rest, cols. repeat split; auto.
Qed.

Lemma processCSV_inl (fs : os.FS) (filePath : string) (items : list Item) :
  processCSV fs filePath = inl items ->
  exists header rest cols,
    os.Open fs filePath = inl (inl header :: rest)
    /\ cols = findColumns header 0 (mkColumns (-1) (-1) (-1))
    /\ itemIDIndex cols <> -1 /\ nameIndex cols <> -1 /\ categoryIndex cols <> -1
    /\ items = omap (filterRow cols) (records rest).
Proof.
  intros H.
  apply processCSV_readRows in H
    as (header & rest & cols & Hopen & Hcols & H1 & H2 & H3 & Hrows).
  apply readRows_inl in Hrows.
  exists header, rest, cols. repeat split; auto.
Qed.

(** Every item [processCSV] returns comes from a data row, with its three
    fields trimmed, and is accepted. *)
Lemma processCSV_items (fs : os.FS) (filePath : string) (items : list Item) :
  processCSV fs filePath = inl items ->
  forall r, r ∈ items ->
    accepted r
    /\ exists header rest record,
         os.Open fs filePath = inl (inl header :: rest)
         /\ inl record ∈ rest
         /\ trimmedFrom (findColumns header 0 (mkColumns (-1) (-1) (-1))) record r.
Proof.
  intros H r Hr.
  apply processCSV_inl in H as (header & rest & cols & Hopen & -> & _ & _ & _ & ->).
  apply list_elem_of_omap in Hr as [record [Hrec Hf]].
  apply filterRow_Some in Hf as (_ & Htrim & Hacc).
  split; [exact Hacc|]. exists header, rest, record. repeat split; auto.
  - unfold records in Hrec. apply list_elem_of_omap in Hrec as [x [Hx Hm]].
    destruct x; [|discriminate]. by injection Hm as ->.
  - apply Htrim.
  - apply Htrim.
  - apply Htrim.
Qed.


(** ** [sort.Slice] only moves elements around *)

Section SlicePermutation.

Context {A : Type}.
Variable less : A -> A -> bool.
Variable xorshift_Next : Z -> Z.

Lemma Swap_length (data : list A) (i j : nat) :
  length (sort.Swap data i j) = length data.
Proof.
  unfold sort.Swap. destruct (data !! i), (data !! j); auto.
  by rewrite !length_insert.
Qed.

Lemma Swap_lookup (data : list A) (i j k : nat) :
  (i < length data)%nat -> (j < length data)%nat ->
  sort.Swap data i j !! k =
  data !! (if decide (k = i) then j else if decide (k = j) then i else k).
Proof.
  intros Hi Hj. unfold sort.Swap.
  destruct (lookup_lt_is_Some_2 data i Hi) as [x Hx].
  destruct (lookup_lt_is_Some_2 data j Hj) as [y Hy].
  rewrite Hx, Hy.
  destruct (decide (k = j)) as [->|Hkj].
  - rewrite list_lookup_insert_eq by (by rewrite length_insert).
    destruct (decide (j = i)) as [->|]; congruence.
  - rewrite list_lookup_insert_ne by done.
    destruct (decide (k = i)) as [->|Hki].
    + by rewrite list_lookup_insert_eq.
    + by rewrite list_lookup_insert_ne.
Qed.

Lemma Swap_Permutation (data : list A) (i j : nat) : sort.Swap data i j ≡ₚ data.
Proof.
  destruct (decide (i < length data)%nat) as [Hi|Hi]; cycle 1.
  { unfold sort.Swap. rewrite (lookup_ge_None_2 data i) by lia. done. }
  destruct (decide (j < length data)%nat) as [Hj|Hj]; cycle 1.
  { unfold sort.Swap. rewrite (lookup_ge_None_2 data j) by lia.
    by destruct (data !! i). }
  apply Permutation_inj. split; [apply Swap_length|].
  exists (fun k => if decide (k = i) then j else if decide (k = j) then i else k).
  split.
  - intros k1 k2. repeat case_decide; intros; subst; congruence.
  - intros k. by apply Swap_lookup.
Qed.

Lemma insertionInner_Permutation (a j : nat) (data : list A) :
  sort.insertionInner less a j data ≡ₚ data.
Proof.
  revert data. induction j as [|j IH]; intros data; simpl; [done|].
  destruct (_ && _); [|done]. rewrite IH. apply Swap_Permutation.
Qed.

Lemma insertionOuter_Permutation (n a i : nat) (data : list A) :
  sort.insertionOuter less n a i data ≡ₚ data.
Proof.
  revert i data. induction n as [|n IH]; intros i data; simpl; [done|].
  rewrite IH. apply insertionInner_Permutation.
Qed.

Lemma insertionSort_Permutation (data : list A) (a b : nat) :
  sort.insertionSort_func less data a b ≡ₚ data.
Proof. apply insertionOuter_Permutation. Qed.

Lemma siftDown_loop_Permutation (fuel : nat) (data : list A) (root hi first : nat) :
  sort.siftDown_loop less fuel data root hi first ≡ₚ data.
Proof.
  revert data root. induction fuel as [|fuel IH]; intros data root; simpl; [done|].
  destruct (_ <=? _)%nat; [done|]. destruct (negb _); [done|].
  rewrite IH. apply Swap_Permutation.
Qed.

Lemma siftDown_Permutation (data : list A) (lo hi first : nat) :
  sort.siftDown_func less data lo hi first ≡ₚ data.
Proof. apply siftDown_loop_Permutation. Qed.

Lemma heapBuild_Permutation (n : nat) (data : list A) (hi first : nat) :
  sort.heapBuild less n data hi first ≡ₚ data.
Proof.
  revert data. induction n as [|n IH]; intros data; simpl; [done|].
  rewrite IH. apply siftDown_Permutation.
Qed.

Lemma heapPop_Permutation (n : nat) (data : list A) (first : nat) :
  sort.heapPop less n data first ≡ₚ data.
Proof.
  revert data. induction n as [|n IH]; intros data; simpl; [done|].
  rewrite IH, siftDown_Permutation. apply Swap_Permutation.
Qed.

Lemma heapSort_Permutation (data : list A) (a b : nat) :
  sort.heapSort_func less data a b ≡ₚ data.
Proof.
  unfold sort.heapSort_func. rewrite heapPop_Permutation.
  apply heapBuild_Permutation.
Qed.

Lemma partitionLoop_Permutation (fuel : nat) (data : list A) (a i j : nat) :
  (sort.partitionLoop less fuel data a i j).1 ≡ₚ data.
Proof.
  revert data i j. induction fuel as [|fuel IH]; intros data i j; simpl; [done|].
  destruct (_ <? _)%nat; [done|]. rewrite IH. apply Swap_Permutation.
Qed.

Lemma partition_Permutation (data : list A) (a b pivot : nat) :
  (sort.partition_func less data a b pivot).1.1 ≡ₚ data.
Proof.
  unfold sort.partition_func.
  destruct (_ <? _)%nat; simpl.
  - by rewrite !Swap_Permutation.
  - match goal with |- context [sort.partitionLoop less ?f ?d ?a ?i ?j] =>
      pose proof (partitionLoop_Permutation f d a i j) as H;
      destruct (sort.partitionLoop less f d a i j) as [d' j'] end.
    simpl in *. by rewrite Swap_Permutation, H, !Swap_Permutation.
Qed.

Lemma partitionEqualLoop_Permutation (fuel : nat) (data : list A) (a i j : nat) :
  (sort.partitionEqualLoop less fuel data a i j).1 ≡ₚ data.
Proof.
  revert data i j. induction fuel as [|fuel IH]; intros data i j; simpl; [done|].
  destruct (_ <? _)%nat; [done|]. rewrite IH. apply Swap_Permutation.
Qed.

Lemma partitionEqual_Permutation (data : list A) (a b pivot : nat) :
  (sort.partitionEqual_func less data a b pivot).1 ≡ₚ data.
Proof.
  unfold sort.partitionEqual_func.
  rewrite partitionEqualLoop_Permutation. apply Swap_Permutation.
Qed.

Lemma shiftLeft_Permutation (j : nat) (data : list A) :
  sort.shiftLeft less j data ≡ₚ data.
Proof.
  revert data. induction j as [|j IH]; intros data; simpl; [done|].
  destruct (negb _); [done|]. rewrite IH. apply Swap_Permutation.
Qed.

Lemma shiftRight_Permutation (fuel : nat) (data : list A) (j b : nat) :
  sort.shiftRight less fuel data j b ≡ₚ data.
Proof.
  revert data j. induction fuel as [|fuel IH]; intros data j; simpl; [done|].
  destruct (_ <? _)%nat; [|done]. destruct (negb _); [done|].
  rewrite IH. apply Swap_Permutation.
Qed.

Lemma partialInsertionLoop_Permutation (steps : nat) (data : list A) (a b i : nat) :
  (sort.partialInsertionLoop less steps data a b i).1 ≡ₚ data.
Proof.
  revert data i. induction steps as [|steps IH]; intros data i; simpl; [done|].
  destruct (_ =? _)%nat; [done|]. destruct (_ <? _)%nat; [done|].
  rewrite IH.
  repeat match goal with
         | |- context [if ?c then _ else _] => destruct c
         end;
    rewrite ?shiftRight_Permutation, ?shiftLeft_Permutation;
    apply Swap_Permutation.
Qed.

Lemma partialInsertionSort_Permutation (data : list A) (a b : nat) :
  (sort.partialInsertionSort_func less data a b).1 ≡ₚ data.
Proof. apply partialInsertionLoop_Permutation. Qed.

Lemma breakPatternsLoop_Permutation (n : nat) (data : list A)
    (a length idx : nat) (modulus random : Z) (i : nat) :
  sort.breakPatternsLoop xorshift_Next n data a length idx modulus random i ≡ₚ data.
Proof.
  revert data random i. induction n as [|n IH]; intros data random i; simpl; [done|].
  rewrite IH. apply Swap_Permutation.
Qed.

Lemma breakPatterns_Permutation (data : list A) (a b : nat) :
  sort.breakPatterns_func xorshift_Next data a b ≡ₚ data.
Proof.
  unfold sort.breakPatterns_func. destruct (8 <=? _)%nat; [|done].
  apply breakPatternsLoop_Permutation.
Qed.

Lemma reverseLoop_Permutation (fuel : nat) (data : list A) (i j : nat) :
  sort.reverseLoop fuel data i j ≡ₚ data.
Proof.
  revert data i j. induction fuel as [|fuel IH]; intros data i j; simpl; [done|].
  destruct (_ <? _)%nat; [|done]. rewrite IH. apply Swap_Permutation.
Qed.

Lemma reverseRange_Permutation (data : list A) (a b : nat) :
  sort.reverseRange_func data a b ≡ₚ data.
Proof. apply reverseLoop_Permutation. Qed.

Lemma pdqsort_loop_Permutation (fuel : nat) (data : list A) (a b limit : nat)
    (wasBalanced wasPartitioned : bool) :
  sort.pdqsort_loop less xorshift_Next fuel data a b limit
                    wasBalanced wasPartitioned ≡ₚ data.
Proof.
  revert data a b limit wasBalanced wasPartitioned.
  induction fuel as [|fuel IH];
    intros data a b limit wasBalanced wasPartitioned; [done|].
  cbn [sort.pdqsort_loop].
  destruct (_ <=? sort.maxInsertion)%nat; [apply insertionSort_Permutation|].
  destruct (limit =? 0)%nat; [apply heapSort_Permutation|].
  set (d1 := if negb wasBalanced
             then (sort.breakPatterns_func xorshift_Next data a b, (limit - 1)%nat)
             else (data, limit)).
  assert (d1.1 ≡ₚ data) as H1.
  { subst d1. destruct (negb wasBalanced); [apply breakPatterns_Permutation|done]. }
  destruct d1 as [data1 limit1]. simpl in H1.
  destruct (sort.choosePivot_func less data1 a b) as [pivot hint].
  set (d2 := match hint with
             | sort.decreasingHint =>
               (sort.reverseRange_func data1 a b, (b - 1 - (pivot - a))%nat,
                sort.increasingHint)
             | _ => (data1, pivot, hint)
             end).
  assert (d2.1.1 ≡ₚ data) as H2.
  { subst d2. destruct hint; simpl; auto. by rewrite reverseRange_Permutation. }
  destruct d2 as [[data2 pivot2] hint2]. simpl in H2.
  set (d3 := match hint2 with
             | sort.increasingHint =>
               if wasBalanced && wasPartitioned
               then sort.partialInsertionSort_func less data2 a b
               else (data2, false)
             | _ => (data2, false)
             end).
  assert (d3.1 ≡ₚ data) as H3.
  { subst d3. destruct hint2; simpl; auto.
    destruct (_ && _); simpl; auto.
    by rewrite partialInsertionSort_Permutation. }
  destruct d3 as [data3 sorted]. simpl in H3.
  destruct sorted; [exact H3|].
  destruct (_ && _).
  - pose proof (partitionEqual_Permutation data3 a b pivot2) as H4.
    destruct (sort.partitionEqual_func less data3 a b pivot2) as [data4 mid].
    simpl in H4. by rewrite IH, H4.
  - pose proof (partition_Permutation data3 a b pivot2) as H4.
    destruct (sort.partition_func less data3 a b pivot2) as [[data4 mid] ap].
    simpl in H4. destruct (_ <? _)%nat; by rewrite !IH, H4.
Qed.

(** [sort.Slice] returns a permutation of the slice it is given. *)
Lemma Slice_Permutation (x : list A) : sort.Slice less xorshift_Next x ≡ₚ x.
Proof. apply pdqsort_loop_Permutation. Qed.

End SlicePermutation.


(** ** The fuel of [pdqsort_loop] is never used up *)

Section SliceFuel.

Context {A : Type}.
Variable less : A -> A -> bool.
Variable xorshift_Next : Z -> Z.

Lemma scanUpLess_ge (fuel : nat) (data : list A) (a i j : nat) :
  (i <= sort.scanUpLess less fuel data a i j)%nat.
Proof.
  revert i. induction fuel as [|fuel IH]; intros i; simpl; [lia|].
  destruct (_ && _); [|lia]. specialize (IH (S i)). lia.
Qed.

Lemma scanDownNotLess_bounds (fuel : nat) (data : list A) (a i j : nat) :
  (Nat.min j (i - 1) <= sort.scanDownNotLess less fuel data a i j <= j)%nat.
Proof.
  revert j. induction fuel as [|fuel IH]; intros j; simpl; [lia|].
  destruct (Nat.leb_spec i j); simpl; [|lia].
  destruct (negb _); [|lia]. specialize (IH (j - 1)%nat). lia.
Qed.

Lemma partitionLoop_bounds (fuel : nat) (data : list A) (a i j : nat) :
  (Nat.min j (i - 1) <= (sort.partitionLoop less fuel data a i j).2 <= j)%nat.
Proof.
  revert data i j. induction fuel as [|fuel IH]; intros data i j; simpl; [lia|].
  set (i1 := sort.scanUpLess less (S j - i) data a i j).
  set (j1 := sort.scanDownNotLess less (S j - i1) data a i1 j).
  pose proof (scanUpLess_ge (S j - i) data a i j) as Hi. fold i1 in Hi.
  pose proof (scanDownNotLess_bounds (S j - i1) data a i1 j) as Hj. fold j1 in Hj.
  destruct (Nat.ltb_spec j1 i1); simpl; [lia|].
  specialize (IH (sort.Swap data i1 j1) (S i1) (j1 - 1)%nat). lia.
Qed.

(** The new pivot lies in the range that was partitioned. *)
Lemma partition_bounds (data : list A) (a b pivot : nat) :
  (a < b)%nat ->
  (a <= (sort.partition_func less data a b pivot).1.2 < b)%nat.
Proof.
  intros Hab. unfold sort.partition_func.
  set (d0 := sort.Swap data a pivot).
  set (i1 := sort.scanUpLess less _ d0 a (a + 1) (b - 1)).
  set (j1 := sort.scanDownNotLess less _ d0 a i1 (b - 1)).
  pose proof (scanUpLess_ge (S (b - 1) - (a + 1)) d0 a (a + 1) (b - 1)) as Hi.
  fold i1 in Hi.
  pose proof (scanDownNotLess_bounds (S (b - 1) - i1) d0 a i1 (b - 1)) as Hj.
  fold j1 in Hj.
  destruct (Nat.ltb_spec j1 i1); simpl; [lia|].
  pose proof (partitionLoop_bounds (S j1 - i1) (sort.Swap d0 i1 j1) a (S i1)
                (j1 - 1)) as Hl.
  destruct (sort.partitionLoop less _ _ a (S i1) (j1 - 1)) as [d2 j2].
  simpl in *. lia.
Qed.

Lemma scanUpNotLess_ge (fuel : nat) (data : list A) (a i j : nat) :
  (i <= sort.scanUpNotLess less fuel data a i j)%nat.
Proof.
  revert i. induction fuel as [|fuel IH]; intros i; simpl; [lia|].
  destruct (_ && _); [|lia]. specialize (IH (S i)). lia.
Qed.

Lemma partitionEqualLoop_ge (fuel : nat) (data : list A) (a i j : nat) :
  (i <= (sort.partitionEqualLoop less fuel data a i j).2)%nat.
Proof.
  revert data i j. induction fuel as [|fuel IH]; intros data i j; simpl; [lia|].
  set (i1 := sort.scanUpNotLess less (S j - i) data a i j).
  pose proof (scanUpNotLess_ge (S j - i) data a i j) as Hi. fold i1 in Hi.
  destruct (_ <? _)%nat; simpl; [lia|].
  match goal with
  | |- context [sort.partitionEqualLoop less fuel ?d a (S i1) ?j'] =>
    specialize (IH d (S i1) j')
  end.
  lia.
Qed.

Lemma partitionEqual_gt (data : list A) (a b pivot : nat) :
  (a < (sort.partitionEqual_func less data a b pivot).2)%nat.
Proof.
  unfold sort.partitionEqual_func.
  pose proof (partitionEqualLoop_ge (b - a) (sort.Swap data a pivot) a (a + 1)
                (b - 1)).
  lia.
Qed.

(** Any two amounts of fuel above the length of the range give the same
    result: [pdqsort_loop] ends by itself, as the Go loop does. *)
Lemma pdqsort_loop_fuel (fuel1 fuel2 : nat) (data : list A) (a b limit : nat)
    (wasBalanced wasPartitioned : bool) :
  (b - a < fuel1)%nat -> (b - a < fuel2)%nat ->
  sort.pdqsort_loop less xorshift_Next fuel1 data a b limit
                    wasBalanced wasPartitioned
  = sort.pdqsort_loop less xorshift_Next fuel2 data a b limit
                      wasBalanced wasPartitioned.
Proof.
  revert fuel2 data a b limit wasBalanced wasPartitioned.
  induction fuel1 as [|fuel1 IH];
    intros fuel2 data a b limit wasBalanced wasPartitioned H1 H2; [lia|].
  destruct fuel2 as [|fuel2]; [lia|].
  cbn [sort.pdqsort_loop].
  destruct (Nat.leb_spec (b - a) sort.maxInsertion) as [|Hlen]; [done|].
  destruct (limit =? 0)%nat; [done|].
  destruct (if negb wasBalanced then _ else _) as [data1 limit1].
  destruct (sort.choosePivot_func less data1 a b) as [pivot hint].
  destruct (match hint with sort.decreasingHint => _ | _ => _ end)
    as [[data2 pivot2] hint2].
  destruct (match hint2 with sort.increasingHint => _ | _ => _ end)
    as [data3 sorted].
  destruct sorted; [done|].
  unfold sort.maxInsertion in Hlen.
  destruct (_ && _).
  - pose proof (partitionEqual_gt data3 a b pivot2) as Hmid.
    destruct (sort.partitionEqual_func less data3 a b pivot2) as [data4 mid].
    simpl in Hmid. apply IH; lia.
  - pose proof (partition_bounds data3 a b pivot2 ltac:(lia)) as Hmid.
    destruct (sort.partition_func less data3 a b pivot2) as [[data4 mid] ap].
    simpl in Hmid.
    destruct (_ <? _)%nat.
    + rewrite (IH fuel2 data4 a mid) by lia. apply IH; lia.
    + rewrite (IH fuel2 data4 (mid + 1)%nat b) by lia. apply IH; lia.
Qed.

(** [sort.Slice] is the loop run with any fuel above the length. *)
Lemma Slice_fuel (fuel : nat) (x : list A) :
  (length x < fuel)%nat ->
  sort.Slice less xorshift_Next x
  = sort.pdqsort_loop less xorshift_Next fuel x 0 (length x)
      (Z.to_nat (bits.Len (Z.of_nat (length x)))) true true.
Proof.
  intros H. unfold sort.Slice, sort.pdqsort_func. apply pdqsort_loop_fuel; lia.
Qed.

End SliceFuel.


(** ** Insertion sort keeps the order of elements it does not compare as less *)

Section InsertionStable.

Context {A : Type}.
Variable less : A -> A -> bool.
Variable xorshift_Next : Z -> Z.

(** A class of elements none of which is less than another. *)
Variable P : A -> Prop.
Context `{!forall u, Decision (P u)}.
Hypothesis P_not_less : forall u v, P u -> P v -> less u v = false.

Lemma Swap_adjacent (data : list A) (j : nat) (x y : A) :
  data !! j = Some y -> data !! S j = Some x ->
  exists l1 l2,
    data = l1 ++ y :: x :: l2 /\ sort.Swap data (S j) j = l1 ++ x :: y :: l2.
Proof.
  intros Hy Hx. exists (take j data), (drop (S (S j)) data).
  assert (data = take j data ++ y :: x :: drop (S (S j)) data) as Hd.
  { rewrite <- (take_drop_middle data j y Hy) at 1. f_equal. f_equal.
    apply (drop_S data x (S j)) in Hx as Hx'. by rewrite <- Hx'. }
  split; [exact Hd|].
  unfold sort.Swap. rewrite Hx, Hy.
  assert (length (take j data) = j) as Hlen
    by (apply length_take_le; apply lookup_lt_Some in Hy; lia).
  rewrite Hd at 1.
  rewrite (insert_app_r_alt _ _ (S j)) by lia.
  replace (S j - length (take j data))%nat with 1%nat by lia. simpl.
  rewrite (insert_app_r_alt _ _ j) by lia.
  replace (j - length (take j data))%nat with 0%nat by lia. done.
Qed.

Lemma Swap_adjacent_filter (data : list A) (j : nat) :
  sort.Less less data (S j) j = true ->
  filter P (sort.Swap data (S j) j)
  = filter P data.
Proof.
  unfold sort.Less. destruct (data !! S j) as [x|] eqn:Hx; [|discriminate].
  destruct (data !! j) as [y|] eqn:Hy; [|discriminate].
  intros Hless.
  destruct (Swap_adjacent data j x y Hy Hx) as (l1 & l2 & Hd & ->).
  rewrite Hd, !filter_app, !filter_cons.
  destruct (decide (P x)) as [Px|Px], (decide (P y)) as [Py|Py];
    auto.
  rewrite (P_not_less x y Px Py) in Hless. discriminate.
Qed.

Lemma insertionInner_filter (a j : nat) (data : list A) :
  filter P (sort.insertionInner less a j data)
  = filter P data.
Proof.
  revert data. induction j as [|j IH]; intros data; simpl; [done|].
  destruct (a <? S j)%nat; simpl; [|done].
  destruct (sort.Less less data (S j) j) eqn:Hless; [|done].
  rewrite IH. by apply Swap_adjacent_filter.
Qed.

Lemma insertionOuter_filter (n a i : nat) (data : list A) :
  filter P (sort.insertionOuter less n a i data)
  = filter P data.
Proof.
  revert i data. induction n as [|n IH]; intros i data; simpl; [done|].
  rewrite IH. apply insertionInner_filter.
Qed.

(** On at most [maxInsertion] elements [sort.Slice] is insertion sort. *)
Lemma Slice_short (x : list A) :
  (length x <= sort.maxInsertion)%nat ->
  sort.Slice less xorshift_Next x = sort.insertionSort_func less x 0 (length x).
Proof.
  intros Hlen. unfold sort.Slice, sort.pdqsort_func. cbn [sort.pdqsort_loop].
  rewrite Nat.sub_0_r. by apply Nat.leb_le in Hlen as ->.
Qed.

Lemma Slice_short_filter (x : list A) :
  (length x <= sort.maxInsertion)%nat ->
  filter P (sort.Slice less xorshift_Next x)
  = filter P x.
Proof.
  intros Hlen. rewrite Slice_short by done. apply insertionOuter_filter.
Qed.

End InsertionStable.


(** ** The sorter *)

Lemma ltb_irrefl (s : string) : String.ltb s s = false.
Proof.
  unfold String.ltb. pose proof (String.compare_antisym s s) as H.
  destruct (String.compare s s); simpl in H; congruence.
Qed.

(** [<] on Go strings compares them byte by byte. *)
Lemma ltb_bytewise (a b : ascii) (s t : string) :
  String.ltb "" "" = false
  /\ String.ltb "" (String b t) = true
  /\ String.ltb (String a s) "" = false
  /\ String.ltb (String a s) (String b t)
     = (byteZ a <? byteZ b) || ((byteZ a =? byteZ b) && String.ltb s t).
Proof.
  repeat split; try reflexivity.
  unfold String.ltb. cbn [String.compare]. unfold Ascii.compare, byteZ.
  destruct (N.compare_spec (N_of_ascii a) (N_of_ascii b)) as [Heq|Hlt|Hgt].
  - rewrite Heq, Z.ltb_irrefl, Z.eqb_refl. reflexivity.
  - destruct (Z.ltb_spec (Z.of_N (N_of_ascii a)) (Z.of_N (N_of_ascii b)));
      [reflexivity | lia].
  - destruct (Z.ltb_spec (Z.of_N (N_of_ascii a)) (Z.of_N (N_of_ascii b)));
      [lia|].
    destruct (Z.eqb_spec (Z.of_N (N_of_ascii a)) (Z.of_N (N_of_ascii b)));
      [lia | reflexivity].
Qed.

Lemma lessByID_same_id (u v : Item) : ID u = ID v -> lessByID u v = false.
Proof.
  intros H. unfold lessByID. rewrite H.
  destruct (strconv.Atoi (ID v)); [apply Z.ltb_irrefl | apply ltb_irrefl].
Qed.

Lemma lessByID_same_number (n : Z) (u v : Item) :
  strconv.Atoi (ID u) = Some n -> strconv.Atoi (ID v) = Some n ->
  lessByID u v = false.
Proof. intros Hu Hv. unfold lessByID. rewrite Hu, Hv. apply Z.ltb_irrefl. Qed.

Section Sorter.

Variable xorshift_Next : Z -> Z.

(** C2. The comparator of [sortItemsByID] compares two records by number
    when both ids parse as decimal integers and otherwise compares the
    two id strings, which [<] does byte by byte; and records whose ids are
    "10", "2", "abc" and "1", in any order, come out with the ids in the
    order "1", "2", "10", "abc". *)
Theorem sortItemsByID_comparator (items : list Item) :
  map ID items ≡ₚ ["10"; "2"; "abc"; "1"] ->
  (forall x y a b,
      strconv.Atoi (ID x) = Some a -> strconv.Atoi (ID y) = Some b ->
      lessByID x y = (a <? b))
  /\ (forall x y,
        strconv.Atoi (ID x) = None \/ strconv.Atoi (ID y) = None ->
        lessByID x y = String.ltb (ID x) (ID y))
  /\ (forall a b s t,
        String.ltb (String a s) (String b t)
        = (byteZ a <? byteZ b) || ((byteZ a =? byteZ b) && String.ltb s t))
  /\ map ID (sortItemsByID xorshift_Next items) = ["1"; "2"; "10"; "abc"].
Proof.
  intros Hperm. split; [|split; [|split; [intros; apply ltb_bytewise|]]].
  - intros x y a b Hx Hy. unfold lessByID. by rewrite Hx, Hy.
  - intros x y [H|H]; unfold lessByID; rewrite H; [done|].
    by destruct (strconv.Atoi (ID x)).
  - assert (length items = 4%nat) as Hlen
      by (rewrite <- (length_map ID), Hperm; reflexivity).
    symmetry in Hperm. apply permutations_Permutation in Hperm.
    destruct items as [|[i1 n1 c1] [|[i2 n2 c2] [|[i3 n3 c3] [|[i4 n4 c4] [|? ?]]]]];
      try discriminate Hlen.
    cbn [map ID] in Hperm.
    vm_compute permutations in Hperm.
    repeat (apply elem_of_cons in Hperm as [Hperm|Hperm];
            [simplify_eq; vm_compute; reflexivity|]).
    by apply elem_of_nil in Hperm.
Qed.

(** C3, as amended.  On at most twelve records, where [sort.Slice] is an
    insertion sort, [sortItemsByID] keeps the records with one id, and the
    records whose ids parse to one number, in the order they had. *)
Theorem sortItemsByID_stable_short (items : list Item) :
  (length items <= 12)%nat ->
  (forall id : string,
      filter (fun r => ID r = id) (sortItemsByID xorshift_Next items)
      = filter (fun r => ID r = id) items)
  /\ (forall n : Z,
        filter (fun r => strconv.Atoi (ID r) = Some n)
               (sortItemsByID xorshift_Next items)
        = filter (fun r => strconv.Atoi (ID r) = Some n) items).
Proof.
  intros Hlen. split.
  - intros id. apply Slice_short_filter; [|exact Hlen].
    intros u v Hu Hv. apply lessByID_same_id. congruence.
  - intros n. apply Slice_short_filter; [|exact Hlen].
    intros u v Hu Hv. by apply (lessByID_same_number n).
Qed.

End Sorter.

(** The first partition of [thirteen] takes the pivot "g" to the front and
    "a" to its place; the rest is then an insertion sort that moves
    nothing. *)
Lemma sortItemsByID_thirteen (xorshift_Next : Z -> Z) :
  map Name (sortItemsByID xorshift_Next thirteen)
  = ["b"; "g"; "c"; "d"; "e"; "f"; "a"; "h"; "i"; "j"; "k"; "l"; "m"].
Proof. vm_compute. reflexivity. Qed.

(** C3 as stated fails: [sortItemsByID] is not stable on longer lists. *)
Lemma sortItemsByID_not_stable :
  ~ (forall (xorshift_Next : Z -> Z) (items : list Item) (id : string),
        filter (fun r => ID r = id) (sortItemsByID xorshift_Next items)
        = filter (fun r => ID r = id) items).
Proof.
  intros H. specialize (H (fun x => x) thirteen "5").
  vm_compute in H. discriminate H.
Qed.



(** ** The lookup tables *)

Lemma convertItemsToMap_snoc (items : list Item) (r : Item) :
  convertItemsToMap (items ++ [r]) = <[ID r := Name r]> (convertItemsToMap items).
Proof. unfold convertItemsToMap. by rewrite foldl_app. Qed.

(** The table binds an id to the name of the last item with that id. *)
Lemma convertItemsToMap_lookup (items : list Item) (k : string) :
  convertItemsToMap items !! k = Name <$> last (filter (fun r => ID r = k) items).
Proof.
  induction items as [|r items IH] using rev_ind; [done|].
  rewrite convertItemsToMap_snoc, filter_app, filter_cons, filter_nil.
  destruct (decide (ID r = k)) as [<-|Hne].
  - by rewrite lookup_insert_eq, last_snoc.
  - by rewrite lookup_insert_ne, app_nil_r.
Qed.

Lemma groupByCategory_snoc (items : list Item) (r : Item) :
  groupByCategory (items ++ [r])
  = <[Category r := default [] (groupByCategory items !! Category r) ++ [r]]>
      (groupByCategory items).
Proof. unfold groupByCategory. by rewrite foldl_app. Qed.

(** The group of a category is the list of its items, in their order; a
    category without items has no group. *)
Lemma groupByCategory_lookup (items : list Item) (c : string) :
  groupByCategory items !! c =
  match filter (fun r => Category r = c) items with
  | [] => None
  | g => Some g
  end.
Proof.
  induction items as [|r items IH] using rev_ind; [done|].
  rewrite groupByCategory_snoc, filter_app, filter_cons, filter_nil.
  destruct (decide (Category r = c)) as [<-|Hne].
  - rewrite lookup_insert_eq, IH.
    destruct (filter _ items) as [|x g]; done.
  - rewrite lookup_insert_ne, app_nil_r by done. exact IH.
Qed.

Lemma groupByCategory_Some (items g : list Item) (c : string) :
  groupByCategory items !! c = Some g ->
  g = filter (fun r => Category r = c) items /\ g <> [].
Proof.
  rewrite groupByCategory_lookup.
  destruct (filter _ items) as [|x l]; [discriminate|]. by intros [= <-].
Qed.

(** The order of a [range] over a map is a permutation of its entries. *)
Lemma rangeMap_Permutation {B : Type} (seed : list nat) (entries : list B) :
  rangeMap seed entries ≡ₚ entries.
Proof.
  revert entries. induction seed as [|n seed IH]; intros entries; simpl; [done|].
  destruct entries as [|e0 entries]; [done|].
  set (l := e0 :: entries). set (i := (n mod length l)%nat).
  destruct (l !! i) as [e|] eqn:He; [|done].
  rewrite IH. symmetry. by apply delete_Permutation.
Qed.


(** ** The header *)

Lemma findColumns_lastMatch (header : list string) (i : Z) (cols : Columns) :
  findColumns header i cols =
  mkColumns (lastMatch "Item ID" header i (itemIDIndex cols))
            (lastMatch "Name" header i (nameIndex cols))
            (lastMatch "Category" header i (categoryIndex cols)).
Proof.
  revert i cols. induction header as [|column rest IH]; intros i cols.
  - by destruct cols.
  - cbn [findColumns lastMatch]. rewrite IH.
    destruct (String.eqb_spec (strings.TrimSpace column) "Item ID") as [H1|H1];
      [rewrite ?H1; reflexivity|].
    destruct (String.eqb_spec (strings.TrimSpace column) "Name") as [H2|H2];
      [rewrite ?H2; reflexivity|].
    destruct (String.eqb_spec (strings.TrimSpace column) "Category") as [H3|H3];
      reflexivity.
Qed.

Lemma lastMatch_spec (name : string) (header : list string) (i dflt : Z) :
  (lastMatch name header i dflt = dflt
   /\ Forall (fun column => strings.TrimSpace column <> name) header)
  \/ (exists k : nat,
        lastMatch name header i dflt = i + Z.of_nat k
        /\ columnNamed header name k
        /\ forall k', columnNamed header name k' -> (k' <= k)%nat).
Proof.
  revert i dflt. induction header as [|column rest IH]; intros i dflt.
  - left. split; [reflexivity | constructor].
  - cbn [lastMatch].
    destruct (IH (i + 1)
                (if String.eqb (strings.TrimSpace column) name then i else dflt))
      as [[Heq Hall]|(k & Heq & Hk & Hmax)].
    + destruct (String.eqb_spec (strings.TrimSpace column) name) as [Hc|Hc].
      * right. exists 0%nat. split; [lia|]. split; [by exists column|].
        intros [|k'] (c' & Hk' & Hc'); [lia|]. simpl in Hk'.
        rewrite Forall_forall in Hall.
        exfalso. apply (Hall c'); [|exact Hc'].
        apply list_elem_of_lookup. eauto.
      * left. split; [exact Heq | by constructor].
    + right. exists (S k). split; [lia|]. split.
      * destruct Hk as (c & Hk & Hc). by exists c.
      * intros [|k'] Hk'; [lia|].
        assert (k' <= k)%nat; [|lia]. apply Hmax.
        destruct Hk' as (c' & Hk' & Hc'). by exists c'.
Qed.

Lemma lastMatch_resolves (name : string) (header : list string) :
  resolves header name (lastMatch name header 0 (-1)).
Proof.
  destruct (lastMatch_spec name header 0 (-1)) as [[Heq Hall]|(k & Heq & Hk & Hmax)].
  - left. split; [exact Heq|]. intros k (c & Hk & Hc).
    rewrite Forall_forall in Hall. apply (Hall c); [|exact Hc].
    apply list_elem_of_lookup. eauto.
  - right. exists k. split; [lia|]. by split.
Qed.

(** What the header loop of [processCSV] resolves. *)
Lemma findColumns_resolves (header : list string) (name : string) :
  name ∈ requiredColumns ->
  resolves header name
           (indexOf (findColumns header 0 (mkColumns (-1) (-1) (-1))) name).
Proof.
  intros Hname. rewrite findColumns_lastMatch. unfold requiredColumns in Hname.
  repeat (apply elem_of_cons in Hname as [->|Hname];
          [apply lastMatch_resolves|]).
  by apply elem_of_nil in Hname.
Qed.

Lemma resolves_absent (header : list string) (name : string) (idx : Z) :
  resolves header name idx ->
  Forall (fun column => strings.TrimSpace column <> name) header -> idx = -1.
Proof.
  intros [[-> _]|(k & _ & (c & Hk & Hc) & _)] Hall; [done|].
  rewrite Forall_forall in Hall. exfalso. apply (Hall c); [|exact Hc].
  apply list_elem_of_lookup. eauto.
Qed.

Lemma resolves_present (header : list string) (name : string) (idx : Z) :
  resolves header name idx ->
  Exists (fun column => strings.TrimSpace column = name) header -> idx <> -1.
Proof.
  intros [[-> Hnone]|(k & -> & _)] Hex; [|lia].
  apply Exists_exists in Hex as (c & Hin & Hc).
  apply list_elem_of_lookup in Hin as [k Hk].
  exfalso. apply (Hnone k). by exists c.
Qed.


(** ** The run of [main] *)

Section Main.

Variable xorshift_Next : Z -> Z.
Variable quote : string -> string.
Variable fs : os.FS.
Variable seed : list nat.

Lemma saveCategory_events (outputDir category : string) (categoryItems : list Item) :
  saveCategory quote fs outputDir (category, categoryItems) =
  let path := categoryPath outputDir category in
  let data := categoryData quote categoryItems in
  let err := os.WriteFile fs path data in
  [evWriteFile path data err;
   evPrint match err with
           | Some e => msgErrorSavingCategory category e
           | None => msgCategorySaved category path (length categoryItems)
           end].
Proof.
  unfold saveCategory, saveMapToJSON, categoryPath, categoryData. cbv zeta.
  by destruct (os.WriteFile fs _ _).
Qed.

Lemma main_usage (outputDir : string) :
  main xorshift_Next quote fs seed "" outputDir = ([evPrint msgUsage], 1).
Proof. reflexivity. Qed.

Lemma main_processing_error (inputFile outputDir : string) (err : error) :
  inputFile <> "" -> processCSV fs inputFile = inr err ->
  main xorshift_Next quote fs seed inputFile outputDir
  = ([evPrint (msgErrorProcessing err)], 1).
Proof.
  intros Hfile Herr. unfold main.
  apply String.eqb_neq in Hfile. by rewrite Hfile, Herr.
Qed.

Lemma main_mkdir_error (inputFile outputDir : string) (items : list Item)
    (err : string) :
  inputFile <> "" -> processCSV fs inputFile = inl items ->
  os.MkdirAll fs outputDir = Some err ->
  main xorshift_Next quote fs seed inputFile outputDir
  = ([evMkdirAll outputDir; evPrint (msgErrorCreatingDir err)], 1).
Proof.
  intros Hfile Hitems Hmk. unfold main.
  apply String.eqb_neq in Hfile. by rewrite Hfile, Hitems, Hmk.
Qed.

(** The run once the items are read and the directory exists. *)
Lemma main_export (inputFile outputDir : string) (items : list Item) :
  inputFile <> "" -> processCSV fs inputFile = inl items ->
  os.MkdirAll fs outputDir = None ->
  let sorted := sortItemsByID xorshift_Next items in
  let allPath := filepath.Join outputDir "allitems.json" in
  let allData := json.MarshalIndent quote (convertItemsToMap sorted) in
  main xorshift_Next quote fs seed inputFile outputDir =
  match os.WriteFile fs allPath allData with
  | Some err =>
    ([evMkdirAll outputDir; evWriteFile allPath allData (Some err);
      evPrint (msgErrorSavingAll err)], 1)
  | None =>
    (evMkdirAll outputDir :: evWriteFile allPath allData None
       :: evPrint (msgAllSaved allPath)
       :: (rangeMap seed (map_to_list (groupByCategory sorted))
             ≫= saveCategory quote fs outputDir)
       ++ [evPrint (msgSummary (length sorted) (size (groupByCategory sorted)))],
     0)
  end.
Proof.
  intros Hfile Hitems Hmk. cbv zeta. unfold main.
  apply String.eqb_neq in Hfile. rewrite Hfile, Hitems, Hmk.
  unfold saveMapToJSON. by destruct (os.WriteFile fs _ _).
Qed.

(** The entries the loop over [categoryMap] visits. *)
Lemma visited_entry (sorted : list Item) (category : string) (g : list Item) :
  (category, g) ∈ rangeMap seed (map_to_list (groupByCategory sorted)) ->
  g = filter (fun r => Category r = category) sorted /\ g <> [].
Proof.
  rewrite rangeMap_Permutation, elem_of_map_to_list.
  apply groupByCategory_Some.
Qed.

End Main.


Section Claims.

Variable xorshift_Next : Z -> Z.
Variable quote : string -> string.
Variable fs : os.FS.
Variable seed : list nat.


(** The check of the row length in the loop body, taken alone: a record
    with fewer fields than the highest resolved index plus one yields no
    item. *)
Lemma filterRow_short (cols : Columns) (record : list string) :
  Z.of_nat (length record)
    < max [itemIDIndex cols; nameIndex cols; categoryIndex cols] + 1 ->
  filterRow cols record = None.
Proof.
  intros Hshort. unfold filterRow.
  destruct (Z.leb_spec (Z.of_nat (length record))
              (max [itemIDIndex cols; nameIndex cols; categoryIndex cols]));
    [done|lia].
Qed.

Lemma max_three (a b c : Z) :
  max [a; b; c] = a \/ max [a; b; c] = b \/ max [a; b; c] = c.
Proof.
  unfold max. cbn [fold_left hd].
  destruct (Z.ltb_spec a a); [lia|].
  destruct (Z.ltb_spec a b);
    match goal with
    | |- context [if ?x <? ?y then _ else _] => destruct (Z.ltb_spec x y)
    end; auto.
Qed.

Lemma max_three_ge (a b c : Z) : a <= max [a; b; c].
Proof.
  unfold max. cbn [fold_left hd].
  destruct (Z.ltb_spec a a); [lia|].
  destruct (Z.ltb_spec a b);
    match goal with
    | |- context [if ?x <? ?y then _ else _] => destruct (Z.ltb_spec x y)
    end; lia.
Qed.

(** A resolved position lies inside the header. *)
Lemma findColumns_bound (header : list string) (name : string) :
  name ∈ requiredColumns ->
  indexOf (findColumns header 0 (mkColumns (-1) (-1) (-1))) name
    < Z.of_nat (length header).
Proof.
  intros Hname.
  destruct (findColumns_resolves header name Hname)
    as [[-> _]|(k & -> & (c & Hk & _) & _)]; [lia|].
  apply lookup_lt_Some in Hk. lia.
Qed.

Lemma max_columns_bound (header : list string) :
  let cols := findColumns header 0 (mkColumns (-1) (-1) (-1)) in
  max [itemIDIndex cols; nameIndex cols; categoryIndex cols]
    < Z.of_nat (length header).
Proof.
  cbv zeta.
  pose proof (findColumns_bound header "Item ID" ltac:(set_solver)) as H1.
  pose proof (findColumns_bound header "Name" ltac:(set_solver)) as H2.
  pose proof (findColumns_bound header "Category" ltac:(set_solver)) as H3.
  cbn in H1, H2, H3.
  destruct (max_three
              (itemIDIndex (findColumns header 0 (mkColumns (-1) (-1) (-1))))
              (nameIndex (findColumns header 0 (mkColumns (-1) (-1) (-1))))
              (categoryIndex (findColumns header 0 (mkColumns (-1) (-1) (-1)))))
    as [-> | [-> | ->]]; assumption.
Qed.

(** The reader of [processCSV] is made by [csv.NewReader] and keeps
    [FieldsPerRecord] at 0, so the header fixes the number of fields: a
    data row with fewer columns than the highest resolved index plus one
    makes [Read] fail, and [processCSV] returns that error. *)
Lemma processCSV_short_row_error (filePath : string)
    (header record : list string) (before after : csv.Input) :
  os.Open fs filePath = inl (inl header :: before ++ inl record :: after) ->
  (forall name, name ∈ requiredColumns ->
     Exists (fun column => strings.TrimSpace column = name) header) ->
  Forall (fun x => exists r, x = inl r /\ length r = length header) before ->
  (let cols := findColumns header 0 (mkColumns (-1) (-1) (-1)) in
   Z.of_nat (length record)
     < max [itemIDIndex cols; nameIndex cols; categoryIndex cols] + 1) ->
  processCSV fs filePath = inr (errRow csv.ErrFieldCount).
Proof.
  cbv zeta. intros Hopen Hpresent Hbefore Hshort.
  pose proof (max_columns_bound header) as Hmax. cbv zeta in Hmax.
  set (cols := findColumns header 0 (mkColumns (-1) (-1) (-1))) in *.
  assert (forall name, name ∈ requiredColumns -> indexOf cols name <> -1) as Hidx.
  { intros name Hname.
    apply (resolves_present header name); [by apply findColumns_resolves|].
    by apply Hpresent. }
  pose proof (Hidx "Item ID" ltac:(set_solver)) as H1.
  pose proof (Hidx "Name" ltac:(set_solver)) as H2.
  pose proof (Hidx "Category" ltac:(set_solver)) as H3.
  cbn in H1, H2, H3. apply Z.eqb_neq in H1, H2, H3.
  unfold processCSV. rewrite Hopen. cbn. fold cols. rewrite H1, H2, H3. cbn [orb].
  assert (0 <= max [itemIDIndex cols; nameIndex cols; categoryIndex cols]) as Hpos.
  { apply Z.eqb_neq in H1.
    pose proof (findColumns_resolves header "Item ID" ltac:(set_solver)) as Hr.
    cbn in Hr. fold cols in Hr.
    assert (0 <= itemIDIndex cols)
      by (destruct Hr as [[? _]|(k & -> & _)]; lia).
    pose proof (max_three_ge (itemIDIndex cols) (nameIndex cols)
                  (categoryIndex cols)).
    lia. }
  clear Hopen. generalize (@nil Item).
  induction Hbefore as [|x before (r & -> & Hr) _ IH]; intros acc;
    cbn [app readRows]; unfold csv.checkFields.
  - destruct (Z.ltb_spec 0 (Z.of_nat (length header))); [|lia].
    destruct (Z.eqb_spec (Z.of_nat (length record)) (Z.of_nat (length header)));
      [lia|done].
  - destruct (Z.ltb_spec 0 (Z.of_nat (length header))); [|lia].
    destruct (Z.eqb_spec (Z.of_nat (length r)) (Z.of_nat (length header)));
      [|lia].
    destruct (filterRow cols r); apply IH.
Qed.

(** C7. When the write of the aggregate file fails the run ends with
    status 1 and no category file is tried; otherwise the aggregate is the
    first file written, every category of the items is then tried, a
    failed category write is reported and skipped, and the run ends with
    status 0. *)
Theorem main_write_failures (inputFile outputDir : string) (items : list Item) :
  inputFile <> "" -> processCSV fs inputFile = inl items ->
  os.MkdirAll fs outputDir = None ->
  let sorted := sortItemsByID xorshift_Next items in
  let allPath := filepath.Join outputDir "allitems.json" in
  let allData := json.MarshalIndent quote (convertItemsToMap sorted) in
  let run := main xorshift_Next quote fs seed inputFile outputDir in
  (forall err,
      os.WriteFile fs allPath allData = Some err ->
      run = ([evMkdirAll outputDir; evWriteFile allPath allData (Some err);
              evPrint (msgErrorSavingAll err)], 1))
  /\ (os.WriteFile fs allPath allData = None ->
      exists visited,
        visited ≡ₚ map_to_list (groupByCategory sorted)
        /\ run = (evMkdirAll outputDir :: evWriteFile allPath allData None
                    :: evPrint (msgAllSaved allPath)
                    :: (visited ≫= saveCategory quote fs outputDir)
                    ++ [evPrint (msgSummary (length sorted)
                                            (size (groupByCategory sorted)))],
                  0)
        /\ forall category categoryItems,
             (category, categoryItems) ∈ visited ->
             let path := categoryPath outputDir category in
             let data := categoryData quote categoryItems in
             saveCategory quote fs outputDir (category, categoryItems)
             = [evWriteFile path data (os.WriteFile fs path data);
                evPrint match os.WriteFile fs path data with
                        | Some e => msgErrorSavingCategory category e
                        | None =>
                          msgCategorySaved category path (length categoryItems)
                        end]).
Proof.
  intros Hfile Hitems Hmk. cbv zeta.
  rewrite (main_export xorshift_Next quote fs seed _ _ _ Hfile Hitems Hmk).
  split.
  - intros err ->. reflexivity.
  - intros ->. eexists. split; [apply rangeMap_Permutation|].
    split; [reflexivity|].
    intros category categoryItems _. apply saveCategory_events.
Qed.

(** C8. Each required column is resolved to a column whose name equals it
    exactly once trimmed, wherever it stands and whatever other columns
    there are; when one of the three is in no column, [processCSV] fails
    with the missing-columns error and [main] writes nothing; when all
    three are there, the rows are read. *)
Theorem processCSV_required_columns (filePath : string) (header : list string)
    (rows : csv.Input) :
  os.Open fs filePath = inl (inl header :: rows) ->
  let cols := findColumns header 0 (mkColumns (-1) (-1) (-1)) in
  (forall name, name ∈ requiredColumns -> resolves header name (indexOf cols name))
  /\ ((exists name, name ∈ requiredColumns
         /\ Forall (fun column => strings.TrimSpace column <> name) header) ->
      processCSV fs filePath = inr errColumns
      /\ forall outputDir,
           filePath <> "" ->
           main xorshift_Next quote fs seed filePath outputDir
           = ([evPrint (msgErrorProcessing errColumns)], 1))
  /\ ((forall name, name ∈ requiredColumns ->
         Exists (fun column => strings.TrimSpace column = name) header) ->
      processCSV fs filePath
      = readRows cols (Z.of_nat (length header)) rows []).
Proof.
  intros Hopen. cbv zeta.
  set (cols := findColumns header 0 (mkColumns (-1) (-1) (-1))).
  split; [intros name Hname; by apply findColumns_resolves|].
  assert (processCSV fs filePath =
          if (itemIDIndex cols =? -1) || (nameIndex cols =? -1)
             || (categoryIndex cols =? -1)
          then inr errColumns
          else readRows cols (Z.of_nat (length header)) rows []) as Hp.
  { unfold processCSV. by rewrite Hopen. }
  split.
  - intros (name & Hname & Habsent).
    assert (processCSV fs filePath = inr errColumns) as Herr.
    { rewrite Hp.
      pose proof (resolves_absent _ _ _ (findColumns_resolves header name Hname)
                    Habsent) as Hidx.
      fold cols in Hidx. unfold requiredColumns in Hname.
      repeat (apply elem_of_cons in Hname as [->|Hname];
              [cbn in Hidx; rewrite Hidx; cbn;
               rewrite ?orb_true_r; reflexivity|]).
      by apply elem_of_nil in Hname. }
    split; [exact Herr|].
    intros outputDir Hfile. by apply main_processing_error.
  - intros Hpresent. rewrite Hp.
    assert (forall name, name ∈ requiredColumns -> indexOf cols name <> -1) as Hidx.
    { intros name Hname.
      apply (resolves_present header name); [by apply findColumns_resolves|].
      by apply Hpresent. }
    pose proof (Hidx "Item ID" ltac:(set_solver)) as H1.
    pose proof (Hidx "Name" ltac:(set_solver)) as H2.
    pose proof (Hidx "Category" ltac:(set_solver)) as H3.
    cbn in H1, H2, H3.
    apply Z.eqb_neq in H1, H2, H3. by rewrite H1, H2, H3.
Qed.

(** C10. When several columns carry the name of a required column, the
    last of them is the one resolved, and the header is accepted as far as
    that column goes. *)
Theorem findColumns_last_duplicate (header : list string) (name : string)
    (i j : nat) :
  name ∈ requiredColumns ->
  columnNamed header name i -> columnNamed header name j -> (i < j)%nat ->
  (forall k, (j < k)%nat -> ~ columnNamed header name k) ->
  indexOf (findColumns header 0 (mkColumns (-1) (-1) (-1))) name = Z.of_nat j
  /\ indexOf (findColumns header 0 (mkColumns (-1) (-1) (-1))) name <> -1.
Proof.
  intros Hname Hi Hj Hij Hlast.
  destruct (findColumns_resolves header name Hname)
    as [[_ Hnone]|(k & Hk & Hnamed & Hmax)].
  - exfalso. by apply (Hnone j).
  - assert (k = j) as ->.
    { apply Hmax in Hj as Hle.
      destruct (decide (j < k)%nat) as [Hlt|]; [|lia].
      exfalso. by apply (Hlast k). }
    split; lia.
Qed.

End Claims.


(** ** File names *)

Lemma prefix_nil (s : string) : String.prefix "" s = true.
Proof. by destruct s. Qed.

Lemma ReplaceAll_spaces (s : string) :
  strings.ReplaceAll s " " "_" = replaceSpaces s.
Proof.
  unfold strings.ReplaceAll. cbn [String.eqb Ascii.eqb Bool.eqb].
  induction s as [|c t IH]; [done|].
  cbn [strings.replaceFrom replaceSpaces String.prefix String.length Nat.sub].
  rewrite prefix_nil, IH.
  destruct (ascii_dec " " c) as [<-|Hc]; [done|].
  destruct (Ascii.eqb_spec c " "); congruence.
Qed.

Lemma EncodeRune_ascii (r : Z) :
  0 <= r <= 127 -> utf8.EncodeRune r = String (Zbyte r) "".
Proof.
  intros Hr. unfold utf8.EncodeRune.
  rewrite Z.mod_small by lia. unfold utf8.rune1Max.
  destruct (Z.leb_spec r 127); [done|lia].
Qed.

Lemma isSafe_ascii (r : Z) : isSafe r = true -> 0 <= r <= 127.
Proof. unfold isSafe. lia. Qed.

Lemma Map_safe (s : string) :
  strings.Map (fun r => if isSafe r then r else 95) s = replaceUnsafe s.
Proof.
  unfold strings.Map, replaceUnsafe.
  induction (utf8.range s) as [|[i c] l IH]; [done|].
  cbn [fold_right map snd String.string_of_list_ascii]. rewrite IH.
  destruct (isSafe c) eqn:Hc.
  - apply isSafe_ascii in Hc as Hr.
    destruct (Z.leb_spec 0 c); [|lia]. by rewrite EncodeRune_ascii.
  - reflexivity.
Qed.

Lemma sanitizeFilename_spec (name : string) :
  sanitizeFilename name = replaceUnsafe (replaceSpaces name).
Proof.
  unfold sanitizeFilename. rewrite ReplaceAll_spaces. apply Map_safe.
Qed.

Lemma Zbyte_byteZ (r : Z) : 0 <= r <= 255 -> byteZ (Zbyte r) = r.
Proof.
  intros Hr. unfold byteZ, Zbyte. rewrite Z.mod_small by lia.
  rewrite N_ascii_embedding by lia. lia.
Qed.

(** Every byte of a sanitized name is safe. *)
Lemma replaceUnsafe_safe (s : string) :
  Forall (fun c => isSafe (byteZ c) = true)
         (String.list_ascii_of_string (replaceUnsafe s)).
Proof.
  unfold replaceUnsafe. rewrite String.list_ascii_of_string_of_list_ascii.
  apply Forall_forall. intros c Hc.
  apply list_elem_of_fmap in Hc as ([i r] & -> & _). cbn [snd].
  destruct (isSafe r) eqn:Hr; [|reflexivity].
  apply isSafe_ascii in Hr as Hb. rewrite Zbyte_byteZ by lia. exact Hr.
Qed.

(** C6. [sanitizeFilename] replaces every space with an underscore and
    then every character that is no ASCII letter, ASCII digit, underscore
    or hyphen with an underscore, so that only such bytes remain; "House
    Floor" gives the file name House_Floor.json and "NPC Skin!" gives
    NPC_Skin_.json. *)
Theorem sanitizeFilename_rule :
  (forall name, sanitizeFilename name = replaceUnsafe (replaceSpaces name))
  /\ (forall name,
         Forall (fun c => isSafe (byteZ c) = true)
                (String.list_ascii_of_string (sanitizeFilename name)))
  /\ sanitizeFilename "House Floor" = "House_Floor"
  /\ sanitizeFilename "NPC Skin!" = "NPC_Skin_"
  /\ sanitizeFilename "House Floor" +:+ ".json" = "House_Floor.json"
  /\ sanitizeFilename "NPC Skin!" +:+ ".json" = "NPC_Skin_.json".
Proof.
  split; [apply sanitizeFilename_spec|].
  split; [intros name; rewrite sanitizeFilename_spec; apply replaceUnsafe_safe|].
  repeat split; vm_compute; reflexivity.
Qed.


(** ** The files written *)

(** The file names of the allowed categories differ from one another and
    from the name of the aggregate file. *)
Lemma categoryPath_inj (outputDir c1 c2 : string) :
  c1 ∈ includedCategories -> c2 ∈ includedCategories ->
  categoryPath outputDir c1 = categoryPath outputDir c2 -> c1 = c2.
Proof.
  unfold categoryPath, filepath.Join, includedCategories.
  intros H1 H2 [= H].
  repeat (apply elem_of_cons in H1 as [->|H1]);
    try (by apply elem_of_nil in H1);
    repeat (apply elem_of_cons in H2 as [->|H2]);
    try (by apply elem_of_nil in H2);
    try reflexivity; vm_compute in H; discriminate H.
Qed.

Lemma categoryPath_not_aggregate (outputDir c : string) :
  c ∈ includedCategories ->
  categoryPath outputDir c <> filepath.Join outputDir "allitems.json".
Proof.
  unfold categoryPath, filepath.Join, includedCategories.
  intros H1 [= H].
  repeat (apply elem_of_cons in H1 as [->|H1]);
    try (by apply elem_of_nil in H1); vm_compute in H; discriminate H.
Qed.

Section Exporter.

Variable xorshift_Next : Z -> Z.
Variable quote : string -> string.
Variable fs : os.FS.

Lemma writes_saveCategory (outputDir : string) (visited : list (string * list Item)) :
  writes (visited ≫= saveCategory quote fs outputDir)
  = categoryWrite quote fs outputDir <$> visited.
Proof.
  induction visited as [|[category g] visited IH]; [done|].
  cbn [mbind list_bind]. unfold writes in *. rewrite omap_app, IH.
  by rewrite saveCategory_events.
Qed.

(** The items that reach the exporter are accepted ones. *)
Lemma sorted_accepted (filePath : string) (items : list Item) (r : Item) :
  processCSV fs filePath = inl items ->
  r ∈ sortItemsByID xorshift_Next items -> r ∈ items /\ accepted r.
Proof.
  intros Hitems Hr. unfold sortItemsByID in Hr.
  rewrite Slice_Permutation in Hr. split; [exact Hr|].
  by destruct (processCSV_items fs filePath items Hitems r Hr).
Qed.

Lemma group_category_included (filePath : string) (items : list Item)
    (category : string) (g : list Item) :
  processCSV fs filePath = inl items ->
  groupByCategory (sortItemsByID xorshift_Next items) !! category = Some g ->
  category ∈ includedCategories.
Proof.
  intros Hitems Hg. apply groupByCategory_Some in Hg as [-> Hne].
  destruct (filter _ _) as [|r g] eqn:Hf; [done|].
  assert (r ∈ filter (fun r => Category r = category)
                     (sortItemsByID xorshift_Next items)) as Hr
    by (rewrite Hf; left).
  apply list_elem_of_filter in Hr as [<- Hr].
  apply (sorted_accepted filePath items r Hitems) in Hr as [_ Hacc].
  apply Hacc.
Qed.

Lemma category_writes_NoDup (filePath outputDir : string) (items : list Item)
    (visited : list (string * list Item)) :
  processCSV fs filePath = inl items ->
  visited ≡ₚ map_to_list (groupByCategory (sortItemsByID xorshift_Next items)) ->
  NoDup ((filepath.Join outputDir "allitems.json")
           :: (categoryWrite quote fs outputDir <$> visited).*1).
Proof.
  intros Hitems Hvis.
  set (m := groupByCategory (sortItemsByID xorshift_Next items)) in *.
  assert (forall c, c ∈ visited.*1 -> c ∈ includedCategories) as Hinc.
  { intros c Hc. apply list_elem_of_fmap in Hc as ([c' g] & -> & Hin).
    rewrite Hvis in Hin. apply elem_of_map_to_list in Hin.
    by apply (group_category_included filePath items c' g). }
  assert ((categoryWrite quote fs outputDir <$> visited).*1
          = categoryPath outputDir <$> visited.*1) as ->.
  { rewrite <- !list_fmap_compose. by apply list_fmap_ext. }
  apply NoDup_cons. split.
  - intros Hin. apply list_elem_of_fmap in Hin as (c & Heq & Hc).
    symmetry in Heq. by apply categoryPath_not_aggregate in Heq; [|apply Hinc].
  - apply NoDup_fmap_2_strong.
    + intros c1 c2 H1 H2. apply categoryPath_inj; by apply Hinc.
    + rewrite Hvis. apply NoDup_fst_map_to_list.
Qed.

(** C9. Whatever the order in which the categories are visited, a run
    makes the same writes (same path, same bytes, same outcome) up to
    their order, no path is written twice, and the exit status is the
    same: the files left behind are the same. *)
Theorem main_files_deterministic (seed1 seed2 : list nat)
    (inputFile outputDir : string) :
  let run1 := main xorshift_Next quote fs seed1 inputFile outputDir in
  let run2 := main xorshift_Next quote fs seed2 inputFile outputDir in
  writes run1.1 ≡ₚ writes run2.1
  /\ NoDup (writes run1.1).*1
  /\ run1.2 = run2.2
  /\ (list_to_map (writes run1.1) : gmap filepath.Path (string * option string))
     = list_to_map (writes run2.1).
Proof.
  cbv zeta.
  assert (writes (main xorshift_Next quote fs seed1 inputFile outputDir).1
          ≡ₚ writes (main xorshift_Next quote fs seed2 inputFile outputDir).1
          /\ NoDup (writes (main xorshift_Next quote fs seed1 inputFile outputDir).1).*1
          /\ (main xorshift_Next quote fs seed1 inputFile outputDir).2
             = (main xorshift_Next quote fs seed2 inputFile outputDir).2)
    as (Hperm & Hnodup & Hexit).
  { destruct (decide (inputFile = "")) as [->|Hfile].
    { repeat split; [done | constructor]. }
    destruct (processCSV fs inputFile) as [items|err] eqn:Hitems; cycle 1.
    { rewrite !(main_processing_error _ _ _ _ _ _ err Hfile Hitems).
      repeat split; [done | constructor]. }
    destruct (os.MkdirAll fs outputDir) as [err|] eqn:Hmk.
    { rewrite !(main_mkdir_error _ _ _ _ _ _ items err Hfile Hitems Hmk).
      repeat split; [done | constructor]. }
    rewrite !(main_export _ _ _ _ _ _ _ Hfile Hitems Hmk).
    destruct (os.WriteFile fs _ _) as [err|] eqn:Hw; cbn [fst snd].
    { repeat split; [done|]. cbn. apply NoDup_singleton. }
    unfold writes at 1 2 3.
    cbn [omap list_omap]. rewrite !omap_app. cbn [omap list_omap].
    rewrite !app_nil_r. fold writes. rewrite !writes_saveCategory.
    split; [|split; [|done]].
    - constructor. by rewrite !rangeMap_Permutation.
    - cbn [fmap list_fmap fst].
      apply (category_writes_NoDup inputFile outputDir items); [done|].
      apply rangeMap_Permutation. }
  repeat split; try done.
  by apply list_to_map_proper.
Qed.

(** C1. Every item [processCSV] returns holds the trimmed id, name and
    category of a data row, none of them empty, its category is one of
    the allowed ones and its name contains none of the excluded words;
    and every entry of the aggregate table and of a category table is
    the id and name of such an item. *)
Theorem processCSV_accepted (filePath : string) (items : list Item) :
  processCSV fs filePath = inl items ->
  (forall r, r ∈ items ->
     accepted r
     /\ exists header rows record,
          os.Open fs filePath = inl (inl header :: rows)
          /\ inl record ∈ rows
          /\ trimmedFrom (findColumns header 0 (mkColumns (-1) (-1) (-1)))
                         record r)
  /\ (forall k v,
        convertItemsToMap (sortItemsByID xorshift_Next items) !! k = Some v ->
        exists r, r ∈ items /\ ID r = k /\ Name r = v /\ accepted r)
  /\ (forall category k v,
        convertItemsToMap
          (filter (fun r => Category r = category)
                  (sortItemsByID xorshift_Next items)) !! k = Some v ->
        exists r, r ∈ items /\ ID r = k /\ Name r = v
                  /\ Category r = category /\ accepted r).
Proof.
  intros Hitems. split; [by apply processCSV_items|]. split.
  - intros k v. rewrite convertItemsToMap_lookup.
    destruct (last _) as [r|] eqn:Hlast; [|discriminate]. intros [= <-].
    apply last_Some_elem_of, list_elem_of_filter in Hlast as [Hk Hr].
    apply (sorted_accepted filePath items r Hitems) in Hr as [Hr Hacc].
    by exists r.
  - intros category k v. rewrite convertItemsToMap_lookup.
    destruct (last _) as [r|] eqn:Hlast; [|discriminate]. intros [= <-].
    apply last_Some_elem_of, list_elem_of_filter in Hlast as [Hk Hr].
    apply list_elem_of_filter in Hr as [Hc Hr].
    apply (sorted_accepted filePath items r Hitems) in Hr as [Hr Hacc].
    by exists r.
Qed.

End Exporter.


(** ** Sample runs *)

(** C5 fails on the code.  The row with two fields is one the length check
    of the loop body would drop, but [reader.Read()] returns
    [csv.ErrFieldCount] for it before that check is reached: [processCSV]
    returns the error and [main] ends with status 1, nothing written. *)
Theorem processCSV_short_row_aborts :
  filterRow (findColumns ["Item ID"; "Name"; "Category"] 0
                         (mkColumns (-1) (-1) (-1)))
            ["2"; "Blue Pet"] = None
  /\ processCSV (fsOf shortRowFile) "items.csv" = inr (errRow csv.ErrFieldCount)
  /\ (forall xorshift_Next quote seed,
         main xorshift_Next quote (fsOf shortRowFile) seed "items.csv" "output"
         = ([evPrint (msgErrorProcessing (errRow csv.ErrFieldCount))], 1)).
Proof.
  split; [vm_compute; reflexivity|]. split; [vm_compute; reflexivity|].
  intros. by apply main_processing_error.
Qed.

(** A run in which the write of Pet.json fails: the error is printed and
    House.json is written all the same; the status is 0. *)
Lemma main_category_failure_example :
  main (fun x => x) (fun s => s) (fsFailing sampleFile ["Pet.json"]) [1%nat]
       "items.csv" "output"
  = ([evMkdirAll "output";
      evWriteFile ("output", "allitems.json")
        ("{" +:+ json.nl +:+ "  1: Red Chair," +:+ json.nl +:+ "  3: Blue Pet"
             +:+ json.nl +:+ "}") None;
      evPrint (msgAllSaved ("output", "allitems.json"));
      evWriteFile ("output", "Pet.json")
        ("{" +:+ json.nl +:+ "  3: Blue Pet" +:+ json.nl +:+ "}")
        (Some "disk full");
      evPrint (msgErrorSavingCategory "Pet" "disk full");
      evWriteFile ("output", "House.json")
        ("{" +:+ json.nl +:+ "  1: Red Chair" +:+ json.nl +:+ "}") None;
      evPrint (msgCategorySaved "House" ("output", "House.json") 1);
      evPrint (msgSummary 2 2)], 0).
Proof. vm_compute. reflexivity. Qed.

(** A run in which the write of allitems.json fails: no category file is
    tried; the status is 1. *)
Lemma main_aggregate_failure_example :
  main (fun x => x) (fun s => s) (fsFailing sampleFile ["allitems.json"]) []
       "items.csv" "output"
  = ([evMkdirAll "output";
      evWriteFile ("output", "allitems.json")
        ("{" +:+ json.nl +:+ "  1: Red Chair," +:+ json.nl +:+ "  3: Blue Pet"
             +:+ json.nl +:+ "}") (Some "disk full");
      evPrint (msgErrorSavingAll "disk full")], 1).
Proof. vm_compute. reflexivity. Qed.

Lemma processCSV_accepted_witness :
  processCSV (fsOf sampleFile) "items.csv" = inl sampleItems
  /\ (forall r, r ∈ sampleItems -> accepted r)
  /\ (forall k v,
        convertItemsToMap (sortItemsByID (fun x => x) sampleItems) !! k = Some v ->
        exists r, r ∈ sampleItems /\ ID r = k /\ Name r = v /\ accepted r).
Proof.
  pose proof (processCSV_accepted (fun x => x) (fsOf sampleFile) "items.csv"
                sampleItems ltac:(vm_compute; reflexivity)) as (H1 & H2 & _).
  split; [vm_compute; reflexivity|]. split; [|exact H2].
  intros r Hr. exact (proj1 (H1 r Hr)).
Defined.

Lemma sortItemsByID_comparator_witness :
  map ID [mkItem "abc" "d" "Pet"; mkItem "10" "a" "Pet"; mkItem "1" "c" "Pet";
          mkItem "2" "b" "Pet"] ≡ₚ ["10"; "2"; "abc"; "1"]
  /\ map ID (sortItemsByID (fun x => x)
               [mkItem "abc" "d" "Pet"; mkItem "10" "a" "Pet";
                mkItem "1" "c" "Pet"; mkItem "2" "b" "Pet"])
     = ["1"; "2"; "10"; "abc"].
Proof.
  assert (map ID [mkItem "abc" "d" "Pet"; mkItem "10" "a" "Pet";
                  mkItem "1" "c" "Pet"; mkItem "2" "b" "Pet"]
          ≡ₚ ["10"; "2"; "abc"; "1"]) as Hperm.
  { cbn [map ID]. symmetry. apply permutations_Permutation.
    vm_compute. set_solver. }
  split; [exact Hperm|].
  exact (proj2 (proj2 (proj2 (sortItemsByID_comparator (fun x => x) _ Hperm)))).
Defined.

Lemma sortItemsByID_stable_short_witness :
  (length [mkItem "7" "first" "Pet"; mkItem "3" "x" "Pet";
           mkItem "7" "second" "Pet"; mkItem "07" "third" "Pet"] <= 12)%nat
  /\ filter (fun r => ID r = "7")
            (sortItemsByID (fun x => x)
               [mkItem "7" "first" "Pet"; mkItem "3" "x" "Pet";
                mkItem "7" "second" "Pet"; mkItem "07" "third" "Pet"])
     = [mkItem "7" "first" "Pet"; mkItem "7" "second" "Pet"]
  /\ filter (fun r => strconv.Atoi (ID r) = Some 7)
            (sortItemsByID (fun x => x)
               [mkItem "7" "first" "Pet"; mkItem "3" "x" "Pet";
                mkItem "7" "second" "Pet"; mkItem "07" "third" "Pet"])
     = [mkItem "7" "first" "Pet"; mkItem "7" "second" "Pet";
        mkItem "07" "third" "Pet"].
Proof.
  assert (length [mkItem "7" "first" "Pet"; mkItem "3" "x" "Pet";
                  mkItem "7" "second" "Pet"; mkItem "07" "third" "Pet"]
          <= 12)%nat as Hlen by (simpl; lia).
  split; [exact Hlen|].
  destruct (sortItemsByID_stable_short (fun x => x) _ Hlen) as [H1 H2].
  split; [rewrite H1 | rewrite H2]; reflexivity.
Defined.


Lemma main_write_failures_witness :
  "items.csv" <> ""
  /\ processCSV (fsOf sampleFile) "items.csv" = inl sampleItems
  /\ os.MkdirAll (fsOf sampleFile) "output" = None
  /\ (main (fun x => x) (fun s => s) (fsOf sampleFile) [] "items.csv" "output").2
     = 0.
Proof.
  assert ("items.csv" <> "") as H0 by discriminate.
  split; [exact H0|]. split; [vm_compute; reflexivity|]. split; [reflexivity|].
  destruct (proj2 (main_write_failures (fun x => x) (fun s => s)
                     (fsOf sampleFile) [] "items.csv" "output" sampleItems H0
                     ltac:(vm_compute; reflexivity) eq_refl) eq_refl)
    as (visited & _ & -> & _).
  reflexivity.
Defined.

Lemma processCSV_required_columns_witness :
  os.Open (fsOf [inl ["item id"; "Name"; "Category"]; inl ["1"; "Red Chair"; "House"]])
          "items.csv"
  = inl [inl ["item id"; "Name"; "Category"]; inl ["1"; "Red Chair"; "House"]]
  /\ processCSV
       (fsOf [inl ["item id"; "Name"; "Category"]; inl ["1"; "Red Chair"; "House"]])
       "items.csv"
     = inr errColumns.
Proof.
  split; [reflexivity|].
  apply (processCSV_required_columns (fun x => x) (fun s => s)
           (fsOf [inl ["item id"; "Name"; "Category"];
                  inl ["1"; "Red Chair"; "House"]])
           [] "items.csv" ["item id"; "Name"; "Category"]
           [inl ["1"; "Red Chair"; "House"]] eq_refl).
  exists "Item ID". split; [set_solver|].
  repeat constructor; vm_compute; discriminate.
Defined.

Lemma findColumns_last_duplicate_witness :
  "Name" ∈ requiredColumns
  /\ columnNamed ["Name"; " Item ID "; "Notes"; "Name"; "Category"] "Name" 0
  /\ columnNamed ["Name"; " Item ID "; "Notes"; "Name"; "Category"] "Name" 3
  /\ nameIndex (findColumns ["Name"; " Item ID "; "Notes"; "Name"; "Category"] 0
                            (mkColumns (-1) (-1) (-1))) = 3.
Proof.
  assert ("Name" ∈ requiredColumns) as Hname by set_solver.
  assert (columnNamed ["Name"; " Item ID "; "Notes"; "Name"; "Category"] "Name" 0)
    as H0 by (by exists "Name").
  assert (columnNamed ["Name"; " Item ID "; "Notes"; "Name"; "Category"] "Name" 3)
    as H3 by (by exists "Name").
  split; [exact Hname|]. split; [exact H0|]. split; [exact H3|].
  refine (proj1 (findColumns_last_duplicate _ "Name" 0 3 Hname H0 H3
                   ltac:(lia) _)).
  intros [|[|[|[|[|k]]]]] Hk (c & Hc & Htrim); try lia;
    cbn in Hc; simplify_eq; vm_compute in Htrim; discriminate.
Defined.


(** ** Further properties *)

(** X1. [sortItemsByID] returns the items it is given, in some order. *)
Theorem sortItemsByID_permutation (xorshift_Next : Z -> Z) (items : list Item) :
  sortItemsByID xorshift_Next items ≡ₚ items.
Proof. apply Slice_Permutation. Qed.

(** X2. The comparator of [sortItemsByID] is no ordering: "9" is less than
    "10" as a number, "10" less than "1a" and "1a" less than "9" as
    strings. *)
Theorem lessByID_cycle :
  lessByID (mkItem "9" "a" "Pet") (mkItem "10" "b" "Pet") = true
  /\ lessByID (mkItem "10" "b" "Pet") (mkItem "1a" "c" "Pet") = true
  /\ lessByID (mkItem "1a" "c" "Pet") (mkItem "9" "a" "Pet") = true.
Proof. repeat split; vm_compute; reflexivity. Qed.

(** X3. When [processCSV] returns items, every data row of the file has as
    many fields as the header: the check of the row length in the loop
    never fires. *)
Theorem processCSV_field_count (fs : os.FS) (filePath : string)
    (items : list Item) :
  processCSV fs filePath = inl items ->
  exists header rows,
    os.Open fs filePath = inl (inl header :: rows)
    /\ Forall (fun x => exists record,
                 x = inl record /\ length record = length header
                 /\ max [itemIDIndex (findColumns header 0 (mkColumns (-1) (-1) (-1)));
                         nameIndex (findColumns header 0 (mkColumns (-1) (-1) (-1)));
                         categoryIndex (findColumns header 0 (mkColumns (-1) (-1) (-1)))]
                    < Z.of_nat (length record))
              rows.
Proof.
  intros Hitems.
  apply processCSV_readRows in Hitems
    as (header & rows & cols & Hopen & -> & H1 & _ & _ & Hrows).
  exists header, rows. split; [exact Hopen|].
  pose proof (max_columns_bound header) as Hmax. cbv zeta in Hmax.
  assert (0 < Z.of_nat (length header)) as Hpos.
  { pose proof (findColumns_bound header "Item ID" ltac:(set_solver)) as Hb.
    pose proof (findColumns_resolves header "Item ID" ltac:(set_solver)) as Hr.
    change (indexOf ?c "Item ID") with (itemIDIndex c) in Hb, Hr.
    destruct Hr as [[? _]|(k & Hk & _)]; [done|lia]. }
  apply readRows_field_count in Hrows; [|exact Hpos].
  eapply Forall_impl; [exact Hrows|].
  intros x (record & -> & Hlen). exists record.
  split; [reflexivity|]. split; lia.
Qed.

Lemma processCSV_field_count_witness :
  processCSV (fsOf sampleFile) "items.csv" = inl sampleItems
  /\ exists header rows,
       os.Open (fsOf sampleFile) "items.csv" = inl (inl header :: rows)
       /\ Forall (fun x => exists record,
                    x = inl record /\ length record = length header
                    /\ max [itemIDIndex (findColumns header 0 (mkColumns (-1) (-1) (-1)));
                            nameIndex (findColumns header 0 (mkColumns (-1) (-1) (-1)));
                            categoryIndex (findColumns header 0 (mkColumns (-1) (-1) (-1)))]
                       < Z.of_nat (length record))
                 rows.
Proof.
  split; [vm_compute; reflexivity|].
  exact (processCSV_field_count (fsOf sampleFile) "items.csv" sampleItems
           ltac:(vm_compute; reflexivity)).
Defined.




(** ** The maximum of the column positions *)

Lemma max_fold (values : list Z) (maxVal : Z) :
  let m := fold_left (fun maxVal v => if maxVal <? v then v else maxVal)
                     values maxVal in
  (m = maxVal \/ m ∈ values) /\ maxVal <= m /\ forall v, v ∈ values -> v <= m.
Proof.
  revert maxVal. induction values as [|x values IH]; intros maxVal; cbn.
  - split; [by left|]. split; [lia|]. intros v Hv. by apply elem_of_nil in Hv.
  - specialize (IH (if maxVal <? x then x else maxVal)). cbn in IH.
    destruct IH as (Hin & Hge & Hall).
    destruct (Z.ltb_spec maxVal x) as [Hlt|Hlt].
    + split; [right; destruct Hin as [->|Hin]; [left|by right]|].
      split; [lia|]. intros v [->|Hv]%elem_of_cons; [lia|by apply Hall].
    + split; [destruct Hin as [->|Hin]; [by left|right; by right]|].
      split; [lia|]. intros v [->|Hv]%elem_of_cons; [lia|by apply Hall].
Qed.

(** X5. Of one value or more, [max] returns one of them, and none of them
    is greater. *)
Theorem max_greatest (values : list Z) :
  values <> [] ->
  max values ∈ values /\ forall v, v ∈ values -> v <= max values.
Proof.
  destruct values as [|x values]; [done|]. intros _.
  unfold max. cbn [hd].
  pose proof (max_fold (x :: values) x) as (Hin & _ & Hall). cbn zeta in *.
  split; [|exact Hall]. destruct Hin as [->|Hin]; [left|exact Hin].
Qed.

Lemma max_greatest_witness :
  [3; -1; 7; 7; 0] <> []
  /\ max [3; -1; 7; 7; 0] ∈ [3; -1; 7; 7; 0]
  /\ forall v, v ∈ [3; -1; 7; 7; 0] -> v <= max [3; -1; 7; 7; 0].
Proof. split; [discriminate|]. apply (max_greatest [3; -1; 7; 7; 0]). discriminate. Defined.

(** ** The filter, in both directions *)

Lemma filterRow_Some_iff (cols : Columns) (record : list string) (r : Item) :
  filterRow cols record = Some r
  <-> max [itemIDIndex cols; nameIndex cols; categoryIndex cols]
        < Z.of_nat (length record)
      /\ trimmedFrom cols record r /\ accepted r.
Proof.
  split; [apply filterRow_Some|].
  intros (Hlen & (Hid & Hname & Hcat) & (Hid' & Hname' & Hcat' & Hin & Hex)).
  destruct r as [id name category]; cbn [ID Name Category] in *.
  unfold filterRow.
  destruct (Z.leb_spec (Z.of_nat (length record))
              (max [itemIDIndex cols; nameIndex cols; categoryIndex cols]));
    [lia|].
  rewrite <- Hid, <- Hname, <- Hcat.
  destruct (String.eqb_spec id ""); [done|].
  destruct (String.eqb_spec name ""); [done|].
  destruct (String.eqb_spec category ""); [done|].
  cbn [orb].
  assert (existsb (String.eqb category) includedCategories = true) as ->.
  { apply existsb_elem_of. exists category. split; [done|]. apply String.eqb_refl. }
  cbn [negb].
  destruct (existsb (strings.Contains name) excludeWords) eqn:Hc; [|done].
  apply existsb_elem_of in Hc as (w & Hw & Hc). apply Contains_spec in Hc.
  by destruct (Hex w Hw).
Qed.

(** X6. A row yields an item exactly when it is long enough for the three
    columns and its three trimmed fields make an accepted Record, and the
    item is that Record. *)
Theorem filterRow_accepts (cols : Columns) (record : list string) (r : Item) :
  filterRow cols record = Some r
  <-> max [itemIDIndex cols; nameIndex cols; categoryIndex cols]
        < Z.of_nat (length record)
      /\ trimmedFrom cols record r /\ accepted r.
Proof. apply filterRow_Some_iff. Qed.

Lemma omap_length_le {B C : Type} (f : B -> option C) (l : list B) :
  (length (omap f l) <= length l)%nat.
Proof.
  induction l as [|x l IH]; cbn; [lia|]. destruct (f x); cbn; lia.
Qed.

(** X7. The items [processCSV] returns are the items of the data rows, in
    the order of the rows: no row that makes an accepted Record is left
    out, and there are no more items than rows. *)
Theorem processCSV_complete (fs : os.FS) (filePath : string) (items : list Item) :
  processCSV fs filePath = inl items ->
  exists header rows,
    os.Open fs filePath = inl (inl header :: rows)
    /\ items = omap (filterRow (findColumns header 0 (mkColumns (-1) (-1) (-1))))
                    (records rows)
    /\ (length items <= length rows)%nat
    /\ forall record r,
         inl record ∈ rows ->
         trimmedFrom (findColumns header 0 (mkColumns (-1) (-1) (-1))) record r ->
         accepted r -> r ∈ items.
Proof.
  intros H.
  pose proof (processCSV_readRows _ _ _ H)
    as (header & rows & cols & Hopen & -> & _ & _ & _ & Hrows).
  pose proof (readRows_inl _ _ _ _ _ Hrows) as Hitems. cbn [app] in Hitems.
  exists header, rows. split; [exact Hopen|]. split; [exact Hitems|]. split.
  - rewrite Hitems. etrans; [apply omap_length_le|].
    unfold records. apply omap_length_le.
  - intros record r Hrec Htrim Hacc. rewrite Hitems.
    apply list_elem_of_omap. exists record. split.
    + unfold records. apply list_elem_of_omap. by exists (inl record).
    + apply filterRow_Some_iff. split; [|by split].
      assert (0 < Z.of_nat (length header)) as Hpos.
      { pose proof (max_columns_bound header) as Hb. cbn zeta in Hb.
        pose proof (max_three_ge
          (itemIDIndex (findColumns header 0 (mkColumns (-1) (-1) (-1))))
          (nameIndex (findColumns header 0 (mkColumns (-1) (-1) (-1))))
          (categoryIndex (findColumns header 0 (mkColumns (-1) (-1) (-1))))).
        destruct header; [|cbn; lia].
        apply processCSV_readRows in H as (h & r' & c & Ho & -> & Hne & _).
        rewrite Hopen in Ho. injection Ho as <- <-. by cbn in Hne. }
      pose proof (readRows_field_count _ _ _ _ _ Hpos Hrows) as Hall.
      rewrite Forall_forall in Hall.
      destruct (Hall _ Hrec) as (record' & [= <-] & Hlen).
      rewrite Hlen. apply max_columns_bound.
Qed.

Lemma processCSV_complete_witness :
  processCSV (fsOf sampleFile) "items.csv" = inl sampleItems
  /\ exists header rows,
       os.Open (fsOf sampleFile) "items.csv" = inl (inl header :: rows)
       /\ sampleItems
          = omap (filterRow (findColumns header 0 (mkColumns (-1) (-1) (-1))))
                 (records rows).
Proof.
  assert (processCSV (fsOf sampleFile) "items.csv" = inl sampleItems) as H
    by (vm_compute; reflexivity).
  split; [exact H|].
  destruct (processCSV_complete (fsOf sampleFile) "items.csv" sampleItems H)
    as (header & rows & Hopen & Hitems & _).
  exists header, rows. by split.
Defined.


(** ** The keys of the lookup tables *)

Lemma convertItemsToMap_dom (items : list Item) :
  dom (convertItemsToMap items) = (list_to_set (ID <$> items) : gset string).
Proof.
  apply set_eq. intros k. rewrite elem_of_dom, elem_of_list_to_set.
  rewrite convertItemsToMap_lookup, list_elem_of_fmap. split.
  - intros [v Hv]. destruct (last _) as [r|] eqn:Hlast; [|discriminate].
    apply last_Some in Hlast as [l' Hl'].
    assert (r ∈ filter (fun r => ID r = k) items) as Hr
      by (rewrite Hl'; set_solver).
    apply list_elem_of_filter in Hr as [Hk Hr]. by exists r.
  - intros (r & -> & Hr).
    assert (r ∈ filter (fun r' => ID r' = ID r) items) as Hin
      by by apply list_elem_of_filter.
    destruct (filter (fun r' => ID r' = ID r) items) as [|x l] eqn:Hf using rev_ind.
    + by apply elem_of_nil in Hin.
    + rewrite last_snoc. by eexists.
Qed.

(** X8. The keys of a lookup table are the ids of its items, so that it
    has as many entries as the items have different ids, and never more
    than there are items. *)
Theorem convertItemsToMap_keys (items : list Item) :
  (forall k, is_Some (convertItemsToMap items !! k) <-> k ∈ ID <$> items)
  /\ size (convertItemsToMap items)
     = size (list_to_set (ID <$> items) : gset string)
  /\ (size (convertItemsToMap items) <= length items)%nat.
Proof.
  assert (size (convertItemsToMap items)
          = size (list_to_set (ID <$> items) : gset string)) as Hsize.
  { rewrite <- convertItemsToMap_dom. symmetry. apply size_dom. }
  split; [|split; [exact Hsize|]].
  - intros k. rewrite <- elem_of_dom, convertItemsToMap_dom.
    apply elem_of_list_to_set.
  - rewrite Hsize. clear Hsize. induction items as [|r items IH]; cbn.
    + by rewrite size_empty.
    + rewrite size_union_alt, size_singleton.
      assert (size (list_to_set (ID <$> items) ∖ ({[ID r]} : gset string))
              <= size (list_to_set (ID <$> items) : gset string))%nat
        by (apply subseteq_size, subseteq_difference_l; done).
      lia.
Qed.

Lemma filter_ID_NoDup (items : list Item) (k : string) :
  NoDup (ID <$> items) -> (length (filter (fun r => ID r = k) items) <= 1)%nat.
Proof.
  induction items as [|r items IH]; [cbn; lia|]. rewrite fmap_cons.
  intros [Hnotin Hnd]%NoDup_cons. rewrite filter_cons.
  destruct (decide (ID r = k)) as [<-|]; [|by apply IH].
  destruct (filter (fun r' => ID r' = ID r) items) as [|x l] eqn:Hf; [cbn; lia|].
  exfalso. apply Hnotin.
  assert (x ∈ filter (fun r' => ID r' = ID r) items) as Hx
    by (rewrite Hf; left).
  apply list_elem_of_filter in Hx as [<- Hx]. apply list_elem_of_fmap. by exists x.
Qed.

Lemma convertItemsToMap_Permutation (items items' : list Item) :
  NoDup (ID <$> items) -> items ≡ₚ items' ->
  convertItemsToMap items = convertItemsToMap items'.
Proof.
  intros Hnd Hperm. apply map_eq. intros k.
  rewrite !convertItemsToMap_lookup. f_equal. f_equal.
  pose proof (filter_ID_NoDup items k Hnd) as Hlen.
  assert (filter (fun r => ID r = k) items ≡ₚ filter (fun r => ID r = k) items')
    as Hf by by rewrite Hperm.
  destruct (filter (fun r => ID r = k) items) as [|x [|y l]]; cbn in Hlen; [| |lia].
  - symmetry. by apply Permutation_nil.
  - by apply Permutation_singleton_l in Hf.
Qed.

Lemma NoDup_ID_filter (P : Item -> Prop) `{!forall r, Decision (P r)}
    (items : list Item) :
  NoDup (ID <$> items) -> NoDup (ID <$> filter P items).
Proof.
  induction items as [|r items IH]; [done|]. rewrite fmap_cons.
  intros [Hr Hnd]%NoDup_cons. rewrite filter_cons.
  destruct (decide (P r)); [|by apply IH]. rewrite fmap_cons. apply NoDup_cons. split; [|by apply IH].
  intros (x & Hx & [_ Hin]%list_elem_of_filter)%list_elem_of_fmap.
  apply Hr. apply list_elem_of_fmap. by exists x.
Qed.

(** X9. When no two items have the same id, a lookup table does not
    depend on the order of its items: sorting the items changes neither
    the table of all items nor the table of any category. *)
Theorem sortItemsByID_tables (xorshift_Next : Z -> Z) (items : list Item) :
  NoDup (ID <$> items) ->
  (forall items', items ≡ₚ items' ->
     convertItemsToMap items' = convertItemsToMap items)
  /\ convertItemsToMap (sortItemsByID xorshift_Next items)
     = convertItemsToMap items
  /\ forall category,
       convertItemsToMap (filter (fun r => Category r = category)
                                 (sortItemsByID xorshift_Next items))
       = convertItemsToMap (filter (fun r => Category r = category) items).
Proof.
  intros Hnd.
  assert (sortItemsByID xorshift_Next items ≡ₚ items) as Hperm
    by apply Slice_Permutation.
  split; [|split].
  - intros items' H. symmetry. by apply convertItemsToMap_Permutation.
  - symmetry. by apply convertItemsToMap_Permutation.
  - intros category. symmetry. apply convertItemsToMap_Permutation.
    + by apply NoDup_ID_filter.
    + by rewrite Hperm.
Qed.

Lemma sortItemsByID_tables_witness :
  NoDup (ID <$> [mkItem "10" "Sofa" "House"; mkItem "9" "Cat" "Pet";
                 mkItem "1a" "Rug" "House Floor"])
  /\ convertItemsToMap
       (sortItemsByID (fun x => x)
          [mkItem "10" "Sofa" "House"; mkItem "9" "Cat" "Pet";
           mkItem "1a" "Rug" "House Floor"])
     = convertItemsToMap
         [mkItem "10" "Sofa" "House"; mkItem "9" "Cat" "Pet";
          mkItem "1a" "Rug" "House Floor"].
Proof.
  assert (NoDup (ID <$> [mkItem "10" "Sofa" "House"; mkItem "9" "Cat" "Pet";
                         mkItem "1a" "Rug" "House Floor"])) as H.
  { apply (bool_decide_unpack _). vm_compute. exact I. }
  split; [exact H|].
  apply (sortItemsByID_tables (fun x => x) _ H).
Defined.

(** ** The groups of the categories *)

Lemma concat_Permutation {B : Type} (l l' : list (list B)) :
  l ≡ₚ l' -> concat l ≡ₚ concat l'.
Proof.
  induction 1 as [|x l l' _ IH|x y l|l l' l'' _ IH1 _ IH2]; cbn.
  - done.
  - by rewrite IH.
  - rewrite !app_assoc. f_equiv. apply Permutation_app_comm.
  - by etrans.
Qed.

Lemma filter_none {B : Type} (P : B -> Prop) `{!forall x, Decision (P x)}
    (l : list B) :
  (forall x, x ∈ l -> ~ P x) -> filter P l = [].
Proof.
  induction l as [|x l IH]; intros Hl; [done|]. rewrite filter_cons.
  destruct (decide (P x)) as [HP|_].
  - destruct (Hl x); [left|done].
  - apply IH. intros y Hy. apply Hl. by right.
Qed.

Lemma filter_ext_in {B : Type} (P Q : B -> Prop) `{!forall x, Decision (P x)}
    `{!forall x, Decision (Q x)} (l : list B) :
  (forall x, x ∈ l -> P x <-> Q x) -> filter P l = filter Q l.
Proof.
  induction l as [|x l IH]; intros Hl; [done|]. rewrite !filter_cons.
  assert (filter P l = filter Q l) as -> by (apply IH; intros y Hy; apply Hl; by right).
  pose proof (Hl x ltac:(left)) as Hx.
  destruct (decide (P x)), (decide (Q x)); tauto.
Qed.

Lemma groups_concat (m : gmap string (list Item)) (items : list Item) :
  (forall c, m !! c = match filter (fun r => Category r = c) items with
                      | [] => None
                      | g => Some g
                      end) ->
  concat (map_to_list m).*2 ≡ₚ items.
Proof.
  revert items. induction m as [|c g m Hc IH] using map_ind; intros items H.
  - rewrite map_to_list_empty. cbn. destruct items as [|r items]; [done|].
    specialize (H (Category r)). rewrite lookup_empty, filter_cons in H.
    by destruct (decide (Category r = Category r)).
  - rewrite map_to_list_insert by done. cbn.
    assert (g = filter (fun r => Category r = c) items) as Hg.
    { specialize (H c). rewrite lookup_insert_eq in H. revert H.
      destruct (filter _ items); intros H; by simplify_eq. }
    rewrite (IH (filter (fun r => ~ Category r = c) items)).
    + rewrite Hg. apply filter_app_complement.
    + intros c'. rewrite list_filter_filter. destruct (decide (c' = c)) as [->|Hne].
      * rewrite Hc. by rewrite filter_none by tauto.
      * specialize (H c'). rewrite lookup_insert_ne in H by done. rewrite H.
        by rewrite (filter_ext_in (fun r => Category r = c' /\ Category r <> c)
                      (fun r => Category r = c') items) by (intros; split; [tauto|split; congruence]).
Qed.

Lemma groupByCategory_dom (items : list Item) :
  dom (groupByCategory items) = (list_to_set (Category <$> items) : gset string).
Proof.
  apply set_eq. intros c. rewrite elem_of_dom, elem_of_list_to_set.
  rewrite groupByCategory_lookup, list_elem_of_fmap. split.
  - intros [g Hg]. destruct (filter _ items) as [|r l] eqn:Hf; [discriminate|].
    assert (r ∈ filter (fun r => Category r = c) items) as Hr by (rewrite Hf; left).
    apply list_elem_of_filter in Hr as [<- Hr]. by exists r.
  - intros (r & -> & Hr).
    assert (r ∈ filter (fun r' => Category r' = Category r) items) as Hin
      by by apply list_elem_of_filter.
    destruct (filter _ items); [by apply elem_of_nil in Hin|by eexists].
Qed.

(** X10. The groups of [categoryMap] split the items by category: the
    group of a category holds the items of that category in their order
    and is never empty, the groups together hold every item once, and
    there are as many groups as the items have different categories. *)
Theorem groupByCategory_partition (items : list Item) :
  (forall c g,
      groupByCategory items !! c = Some g
      <-> g = filter (fun r => Category r = c) items /\ g <> [])
  /\ concat (map_to_list (groupByCategory items)).*2 ≡ₚ items
  /\ sum_list (length <$> (map_to_list (groupByCategory items)).*2)
     = length items
  /\ size (groupByCategory items)
     = size (list_to_set (Category <$> items) : gset string).
Proof.
  assert (concat (map_to_list (groupByCategory items)).*2 ≡ₚ items) as Hperm
    by (apply groups_concat; intros c; apply groupByCategory_lookup).
  split; [|split; [exact Hperm|split]].
  - intros c g. rewrite groupByCategory_lookup. split.
    + destruct (filter _ items) eqn:Hf; [discriminate|]. by intros [= <-].
    + intros [-> Hne]. by destruct (filter _ items).
  - rewrite <- (Permutation_length Hperm), length_concat. done.
  - rewrite <- groupByCategory_dom. symmetry. apply size_dom.
Qed.


(** ** Every run of [main] *)

Section Runs.

Variable xorshift_Next : Z -> Z.
Variable quote : string -> string.
Variable fs : os.FS.
Variable seed : list nat.

(** The four ways a run can go. *)
Lemma main_cases (inputFile outputDir : string) :
  let run := main xorshift_Next quote fs seed inputFile outputDir in
  (inputFile = "" /\ run = ([evPrint msgUsage], 1))
  \/ (inputFile <> ""
      /\ exists err, processCSV fs inputFile = inr err
           /\ run = ([evPrint (msgErrorProcessing err)], 1))
  \/ (inputFile <> ""
      /\ exists items err, processCSV fs inputFile = inl items
           /\ os.MkdirAll fs outputDir = Some err
           /\ run = ([evMkdirAll outputDir; evPrint (msgErrorCreatingDir err)], 1))
  \/ (inputFile <> ""
      /\ exists items, processCSV fs inputFile = inl items
           /\ os.MkdirAll fs outputDir = None
           /\ let sorted := sortItemsByID xorshift_Next items in
              let allPath := filepath.Join outputDir "allitems.json" in
              let allData := json.MarshalIndent quote (convertItemsToMap sorted) in
              run =
              match os.WriteFile fs allPath allData with
              | Some err =>
                ([evMkdirAll outputDir; evWriteFile allPath allData (Some err);
                  evPrint (msgErrorSavingAll err)], 1)
              | None =>
                (evMkdirAll outputDir :: evWriteFile allPath allData None
                   :: evPrint (msgAllSaved allPath)
                   :: (rangeMap seed (map_to_list (groupByCategory sorted))
                         ≫= saveCategory quote fs outputDir)
                   ++ [evPrint (msgSummary (length sorted)
                                           (size (groupByCategory sorted)))],
                 0)
              end).
Proof.
  intros run. destruct (String.eqb_spec inputFile "") as [->|Hne].
  { left. split; [done|]. apply main_usage. }
  right. destruct (processCSV fs inputFile) as [items|err] eqn:Hp.
  2:{ left. split; [done|]. exists err. split; [done|].
      by apply main_processing_error. }
  right. destruct (os.MkdirAll fs outputDir) as [err|] eqn:Hm.
  { left. split; [done|]. exists items, err. repeat split; try done.
    by apply (main_mkdir_error _ _ _ _ _ _ items). }
  right. split; [done|]. exists items. repeat split; try done.
  by apply main_export.
Qed.

Lemma sanitizeFilename_included (category : string) :
  category ∈ includedCategories ->
  sanitizeFilename category +:+ ".json" ∈ outputFiles.
Proof.
  unfold includedCategories, outputFiles. intros H.
  repeat (apply elem_of_cons in H as [->|H];
          [apply (bool_decide_unpack _); vm_compute; exact I|]).
  by apply elem_of_nil in H.
Qed.

Lemma saveCategory_writes_in (outputDir : string)
    (visited : list (string * list Item)) (path : filepath.Path)
    (data : string) (err : option string) :
  evWriteFile path data err ∈ (visited ≫= saveCategory quote fs outputDir) ->
  exists category g, (category, g) ∈ visited
    /\ path = categoryPath outputDir category
    /\ data = categoryData quote g
    /\ err = os.WriteFile fs path data.
Proof.
  intros ([category g] & Hin & Hv)%list_elem_of_bind.
  rewrite saveCategory_events in Hin. cbn zeta in Hin.
  apply elem_of_cons in Hin as [[= -> -> ->]|Hin].
  - by exists category, g.
  - apply list_elem_of_singleton in Hin. discriminate.
Qed.

(** X11. Whatever the input and the file system, a run writes inside the
    output directory only, and to no other file than [allitems.json] and
    the five files of the included categories. *)
Theorem main_written_paths (inputFile outputDir : string)
    (path : filepath.Path) (data : string) (err : option string) :
  evWriteFile path data err
    ∈ (main xorshift_Next quote fs seed inputFile outputDir).1 ->
  path.1 = outputDir /\ path.2 ∈ outputFiles.
Proof.
  destruct (main_cases inputFile outputDir)
    as [[_ ->]|[(_ & e & _ & ->)|[(_ & items & e & _ & _ & ->)
       |(_ & items & Hp & _ & ->)]]]; cbn [fst].
  - intros H. apply list_elem_of_singleton in H. discriminate.
  - intros H. apply list_elem_of_singleton in H. discriminate.
  - intros H. apply elem_of_cons in H as [|H]; [discriminate|].
    apply list_elem_of_singleton in H. discriminate.
  - cbn zeta. destruct (os.WriteFile fs _ _) as [e|]; cbn [fst]; intros H.
    + apply elem_of_cons in H as [|H]; [discriminate|].
      apply elem_of_cons in H as [[= -> -> ->]|H].
      * split; [done|]. cbn. left.
      * apply list_elem_of_singleton in H. discriminate.
    + apply elem_of_cons in H as [|H]; [discriminate|].
      apply elem_of_cons in H as [[= -> -> ->]|H].
      { split; [done|]. cbn. left. }
      apply elem_of_cons in H as [|H]; [discriminate|].
      apply elem_of_app in H as [H|H].
      2:{ apply list_elem_of_singleton in H. discriminate. }
      apply saveCategory_writes_in in H as (category & g & Hin & -> & _).
      split; [done|]. cbn [snd categoryPath filepath.Join].
      apply sanitizeFilename_included.
      rewrite rangeMap_Permutation in Hin.
      apply elem_of_map_to_list in Hin.
      by apply (group_category_included xorshift_Next fs inputFile items category g).
Qed.

Lemma lookup_cons_S {B : Type} (x : B) (l : list B) (i : nat) :
  (x :: l) !! S i = l !! i.
Proof. reflexivity. Qed.

Lemma lookup_cons_0 {B : Type} (x : B) (l : list B) : (x :: l) !! 0%nat = Some x.
Proof. reflexivity. Qed.

(** X12. Every write of a run comes after the output directory has been
    created, which is the first thing the run prints or changes; the write
    of [allitems.json] comes next, and a category file is written only
    later and only when that write succeeded. *)
Theorem main_event_order (inputFile outputDir : string) (i : nat)
    (path : filepath.Path) (data : string) (err : option string) :
  let evs := (main xorshift_Next quote fs seed inputFile outputDir).1 in
  let allPath := filepath.Join outputDir "allitems.json" in
  evs !! i = Some (evWriteFile path data err) ->
  evs !! 0%nat = Some (evMkdirAll outputDir)
  /\ os.MkdirAll fs outputDir = None
  /\ exists data0 err0,
       evs !! 1%nat = Some (evWriteFile allPath data0 err0)
       /\ ((i = 1%nat /\ path = allPath)
           \/ ((1 < i)%nat /\ err0 = None /\ path <> allPath)).
Proof.
  destruct (main_cases inputFile outputDir)
    as [[_ ->]|[(_ & e & _ & ->)|[(_ & items & e & _ & _ & ->)
       |(_ & items & Hp & Hm & ->)]]]; cbn [fst]; cbn zeta.
  - by destruct i as [|[|i]].
  - by destruct i as [|[|i]].
  - by destruct i as [|[|[|i]]].
  - destruct (os.WriteFile fs _ _) as [e|]; cbn [fst]; intros H.
    + destruct i as [|[|[|[|i]]]]; try done.
      rewrite lookup_cons_S, lookup_cons_0 in H. injection H as <- <- <-.
      split; [done|]. split; [done|]. eexists _, _. split; [done|]. by left.
    + split; [done|]. split; [done|]. eexists _, _. split; [done|].
      destruct i as [|[|i]]; [done| |].
      { rewrite lookup_cons_S, lookup_cons_0 in H. injection H as <- <- <-.
        by left. }
      right. split; [lia|]. split; [done|].
      destruct i as [|i]; [rewrite !lookup_cons_S, lookup_cons_0 in H; done|].
      rewrite !lookup_cons_S in H.
      apply list_elem_of_lookup_2 in H. apply elem_of_app in H as [H|H].
      2:{ apply list_elem_of_singleton in H. discriminate. }
      apply saveCategory_writes_in in H as (category & g & Hin & -> & _).
      apply categoryPath_not_aggregate.
      rewrite rangeMap_Permutation in Hin.
      apply elem_of_map_to_list in Hin.
      by apply (group_category_included xorshift_Next fs inputFile items category g).
Qed.


Lemma size_categories (filePath : string) (items : list Item) :
  processCSV fs filePath = inl items ->
  (size (list_to_set (Category <$> items) : gset string) <= 5)%nat.
Proof.
  intros Hp.
  assert ((list_to_set (Category <$> items) : gset string)
          ⊆ list_to_set includedCategories) as Hsub.
  { intros c (r & -> & Hr)%elem_of_list_to_set%list_elem_of_fmap.
    apply elem_of_list_to_set.
    by destruct (processCSV_items fs filePath items Hp r Hr)
      as [(_ & _ & _ & Hin & _) _]. }
  apply subseteq_size in Hsub. etrans; [exact Hsub|].
  rewrite size_list_to_set; [done|].
  apply (bool_decide_unpack _). vm_compute. exact I.
Qed.

(** X14. A run that gets as far as the category files ends with the
    summary: the number of items is the number [processCSV] returned, and
    the number of category files is the number of different categories of
    these items, at most five, whether or not their files could be
    written. *)
Theorem main_summary (inputFile outputDir : string) (items : list Item) :
  inputFile <> "" -> processCSV fs inputFile = inl items ->
  os.MkdirAll fs outputDir = None ->
  os.WriteFile fs (filepath.Join outputDir "allitems.json")
    (json.MarshalIndent quote
       (convertItemsToMap (sortItemsByID xorshift_Next items))) = None ->
  let categories := size (list_to_set (Category <$> items) : gset string) in
  last (main xorshift_Next quote fs seed inputFile outputDir).1
  = Some (evPrint (msgSummary (length items) categories))
  /\ (categories <= 5)%nat.
Proof.
  intros Hne Hp Hm Hw categories.
  split; [|by apply (size_categories inputFile)].
  rewrite (main_export xorshift_Next quote fs seed inputFile outputDir items)
    by done.
  cbn zeta. rewrite Hw. cbn [fst].
  rewrite !last_cons, last_snoc.
  assert (sortItemsByID xorshift_Next items ≡ₚ items) as Hperm
    by apply Slice_Permutation.
  rewrite (Permutation_length Hperm). do 3 f_equal.
  unfold categories.
  rewrite <- (size_dom (groupByCategory (sortItemsByID xorshift_Next items))),
    groupByCategory_dom.
  f_equal. apply set_eq. intros c. rewrite !elem_of_list_to_set.
  by rewrite Hperm.
Qed.

(** X15. When no row gives an item, the run still succeeds: it writes an
    empty object to [allitems.json], writes no category file and reports
    no item and no category. *)
Theorem main_no_items (inputFile outputDir : string) :
  inputFile <> "" -> processCSV fs inputFile = inl [] ->
  os.MkdirAll fs outputDir = None ->
  os.WriteFile fs (filepath.Join outputDir "allitems.json") "{}" = None ->
  main xorshift_Next quote fs seed inputFile outputDir
  = ([evMkdirAll outputDir;
      evWriteFile (filepath.Join outputDir "allitems.json") "{}" None;
      evPrint (msgAllSaved (filepath.Join outputDir "allitems.json"));
      evPrint (msgSummary 0 0)], 0).
Proof.
  intros Hne Hp Hm Hw.
  rewrite (main_export xorshift_Next quote fs seed inputFile outputDir [])
    by done.
  cbn zeta.
  change (sortItemsByID xorshift_Next []) with (@nil Item).
  change (convertItemsToMap []) with (∅ : gmap string string).
  change (groupByCategory []) with (∅ : gmap string (list Item)).
  unfold json.MarshalIndent. rewrite !map_to_list_empty. cbn [json.sortKeys foldr].
  rewrite Hw. rewrite map_size_empty.
  by destruct seed.
Qed.

End Runs.

Lemma main_summary_witness :
  "items.csv" <> ""
  /\ processCSV (fsFailing sampleFile ["Pet.json"]) "items.csv" = inl sampleItems
  /\ os.MkdirAll (fsFailing sampleFile ["Pet.json"]) "output" = None
  /\ last (main (fun x => x) (fun s => s) (fsFailing sampleFile ["Pet.json"])
                [1%nat] "items.csv" "output").1
     = Some (evPrint (msgSummary 2 2)).
Proof.
  split; [discriminate|]. split; [vm_compute; reflexivity|].
  split; [reflexivity|].
  destruct (main_summary (fun x => x) (fun s => s)
              (fsFailing sampleFile ["Pet.json"]) [1%nat]
              "items.csv" "output" sampleItems) as [H _];
    [discriminate|vm_compute; reflexivity|reflexivity|vm_compute; reflexivity|].
  rewrite H. vm_compute. reflexivity.
Defined.

Lemma main_no_items_witness :
  "items.csv" <> ""
  /\ processCSV (fsOf [inl ["Item ID"; "Name"; "Category"];
                       inl ["7"; "Quest Scroll"; "House"];
                       inl ["8"; "Sword"; "Weapon"]]) "items.csv" = inl []
  /\ main (fun x => x) (fun s => s)
          (fsOf [inl ["Item ID"; "Name"; "Category"];
                 inl ["7"; "Quest Scroll"; "House"];
                 inl ["8"; "Sword"; "Weapon"]]) [] "items.csv" "output"
     = ([evMkdirAll "output";
         evWriteFile ("output", "allitems.json") "{}" None;
         evPrint (msgAllSaved ("output", "allitems.json"));
         evPrint (msgSummary 0 0)], 0).
Proof.
  split; [discriminate|]. split; [vm_compute; reflexivity|].
  apply (main_no_items (fun x => x) (fun s => s) _ [] "items.csv" "output");
    [discriminate|vm_compute; reflexivity|reflexivity|reflexivity].
Defined.

Lemma main_written_paths_witness :
  evWriteFile ("output", "Pet.json")
    ("{" +:+ json.nl +:+ "  3: Blue Pet" +:+ json.nl +:+ "}") None
    ∈ (main (fun x => x) (fun s => s) (fsOf sampleFile) [] "items.csv" "output").1
  /\ "Pet.json" ∈ outputFiles.
Proof.
  assert (evWriteFile ("output", "Pet.json")
            ("{" +:+ json.nl +:+ "  3: Blue Pet" +:+ json.nl +:+ "}") None
          ∈ (main (fun x => x) (fun s => s) (fsOf sampleFile) [] "items.csv"
                  "output").1) as H.
  { vm_compute. do 5 right. left. }
  split; [exact H|].
  apply (main_written_paths (fun x => x) (fun s => s) (fsOf sampleFile) []
           "items.csv" "output" _ _ _ H).
Defined.

Lemma main_event_order_witness :
  (main (fun x => x) (fun s => s) (fsOf sampleFile) [] "items.csv" "output").1
    !! 3%nat
  = Some (evWriteFile ("output", "House.json")
            ("{" +:+ json.nl +:+ "  1: Red Chair" +:+ json.nl +:+ "}") None)
  /\ (main (fun x => x) (fun s => s) (fsOf sampleFile) [] "items.csv" "output").1
       !! 0%nat = Some (evMkdirAll "output").
Proof.
  assert ((main (fun x => x) (fun s => s) (fsOf sampleFile) [] "items.csv"
                "output").1 !! 3%nat
          = Some (evWriteFile ("output", "House.json")
                    ("{" +:+ json.nl +:+ "  1: Red Chair" +:+ json.nl +:+ "}")
                    None)) as H by (vm_compute; reflexivity).
  split; [exact H|].
  apply (main_event_order (fun x => x) (fun s => s) (fsOf sampleFile) []
           "items.csv" "output" _ _ _ _ H).
Defined.


(** ** The comparator of the sorter *)

Lemma ltb_asym (s t : string) : String.ltb s t = true -> String.ltb t s = false.
Proof.
  unfold String.ltb. rewrite (String.compare_antisym s t).
  by destruct (String.compare t s).
Qed.

Lemma ltb_total (s t : string) :
  String.ltb s t = false -> String.ltb t s = false -> s = t.
Proof.
  unfold String.ltb. intros H1 H2. apply String.compare_eq_iff.
  rewrite (String.compare_antisym s t) in H1 |- *.
  by destruct (String.compare t s).
Qed.

(** X16. The comparator of [sortItemsByID] never holds in both directions,
    nor between an item and itself; and it holds in neither direction
    only for two items with the same id or with ids that are the same
    integer. *)
Theorem lessByID_asymmetric (x y : Item) :
  lessByID x x = false
  /\ (lessByID x y = true -> lessByID y x = false)
  /\ (lessByID x y = false /\ lessByID y x = false
      <-> ID x = ID y
          \/ exists n, strconv.Atoi (ID x) = Some n
                       /\ strconv.Atoi (ID y) = Some n).
Proof.
  split; [by apply lessByID_same_id|]. split.
  - unfold lessByID.
    destruct (strconv.Atoi (ID x)) as [a|], (strconv.Atoi (ID y)) as [b|];
      try apply ltb_asym.
    intros H%Z.ltb_lt. apply Z.ltb_ge. lia.
  - split.
    + unfold lessByID.
      destruct (strconv.Atoi (ID x)) as [a|] eqn:Ha,
               (strconv.Atoi (ID y)) as [b|] eqn:Hb;
        intros [H1 H2]; try (left; by apply ltb_total).
      right. exists a. split; [done|]. f_equal.
      apply Z.ltb_ge in H1, H2. lia.
    + intros [H|(n & Hx & Hy)].
      * split; by apply lessByID_same_id.
      * split; by apply (lessByID_same_number n).
Qed.


(** ** Slices *)

Lemma sliceTo_length (m : nat) (s : string) :
  String.length (sliceTo m s) = Nat.min m (String.length s).
Proof.
  revert s. induction m as [|m IH]; intros [|c s]; simpl; auto.
Qed.

Lemma sliceTo_all (m : nat) (s : string) :
  (String.length s <= m)%nat -> sliceTo m s = s.
Proof.
  revert s. induction m as [|m IH]; intros [|c s]; simpl; auto; [lia|].
  intros H. rewrite IH by lia. reflexivity.
Qed.

Lemma sliceTo_sliceTo (m n : nat) (s : string) :
  sliceTo m (sliceTo n s) = sliceTo (Nat.min m n) s.
Proof.
  revert n s. induction m as [|m IH]; intros [|n] [|c s]; simpl; auto.
  by rewrite IH.
Qed.

Lemma sliceFrom_length (k : nat) (s : string) :
  String.length (sliceFrom k s) = (String.length s - k)%nat.
Proof.
  revert s. induction k as [|k IH]; intros [|c s]; simpl; auto.
Qed.

Lemma sliceFrom_sliceTo (k m : nat) (s : string) :
  sliceFrom k (sliceTo m s) = sliceTo (m - k) (sliceFrom k s).
Proof.
  revert m s. induction k as [|k IH]; intros [|m] [|c s]; simpl; auto.
  - by destruct (m - k)%nat.
Qed.

Lemma sliceFrom_nil (k : nat) : sliceFrom k "" = "".
Proof. by destruct k. Qed.

Lemma sliceTo_nil (m : nat) : sliceTo m "" = "".
Proof. by destruct m. Qed.

Lemma byteAt_sliceTo (m k : nat) (s : string) :
  (k < m)%nat -> byteAt (sliceTo m s) k = byteAt s k.
Proof.
  unfold byteAt. revert k s. induction m as [|m IH]; intros k [|c s] H; simpl;
    auto; try lia.
  destruct k as [|k]; [reflexivity|]. apply IH. lia.
Qed.

Lemma byteAt_sliceFrom (k j : nat) (s : string) :
  byteAt (sliceFrom k s) j = byteAt s (k + j).
Proof.
  unfold byteAt. revert s.
  induction k as [|k IH]; intros [|c s]; simpl; auto; by destruct j.
Qed.

Lemma byteZ_range (c : ascii) : 0 <= byteZ c <= 255.
Proof.
  unfold byteZ. pose proof (N_ascii_bounded c). lia.
Qed.

Lemma byteAt_range (s : string) (k : nat) : 0 <= byteAt s k <= 255.
Proof.
  unfold byteAt. destruct (String.get k s); [apply byteZ_range | lia].
Qed.

Lemma byteAt_cons_0 (c : ascii) (s : string) : byteAt (String c s) 0 = byteZ c.
Proof. reflexivity. Qed.

Lemma byteAt_cons_S (c : ascii) (s : string) (k : nat) :
  byteAt (String c s) (S k) = byteAt s k.
Proof. reflexivity. Qed.

Lemma sliceFrom_cons (k : nat) (s : string) :
  (k < String.length s)%nat ->
  exists c, sliceFrom k s = String c (sliceFrom (S k) s) /\ byteAt s k = byteZ c.
Proof.
  revert s. induction k as [|k IH]; intros [|c s] H; simpl in *; try lia.
  - exists c. by destruct s.
  - destruct (IH s ltac:(lia)) as (c' & H1 & H2). exists c'. split; [|exact H2].
    rewrite H1. by destruct s.
Qed.


(** ** What [utf8.DecodeRuneInString] returns *)

Lemma first_cases (b : Z) :
  (b < 0x80 /\ utf8.first b = utf8.as_)
  \/ (0x80 <= b /\ utf8.first b = utf8.xx)
  \/ (0xC2 <= b
      /\ (utf8.first b = utf8.s1 \/ utf8.first b = utf8.s2
          \/ utf8.first b = utf8.s3 \/ utf8.first b = utf8.s4
          \/ utf8.first b = utf8.s5 \/ utf8.first b = utf8.s6
          \/ utf8.first b = utf8.s7)).
Proof.
  unfold utf8.first.
  repeat match goal with
         | |- context [if ?x <? ?y then _ else _] => destruct (Z.ltb_spec x y)
         | |- context [if ?x =? ?y then _ else _] => destruct (Z.eqb_spec x y)
         end; try (left; split; [lia | reflexivity]);
    try (right; left; split; [lia | reflexivity]);
    right; right; (split; [lia|]); tauto.
Qed.

(** Evaluates the comparisons and table lookups between constants. *)
Ltac eval_closed :=
  repeat match goal with
         | |- context [?a <=? ?b] =>
           let v := eval vm_compute in (a <=? b) in
           match v with true => idtac | false => idtac end;
           change (a <=? b) with v
         | |- context [?a <? ?b] =>
           let v := eval vm_compute in (a <? b) in
           match v with true => idtac | false => idtac end;
           change (a <? b) with v
         | |- context [Z.testbit ?a ?b] =>
           let v := eval vm_compute in (Z.testbit a b) in
           match v with true => idtac | false => idtac end;
           change (Z.testbit a b) with v
         | |- context [Z.land ?a 7] =>
           let v := eval vm_compute in (Z.land a 7) in
           match v with Zpos _ => idtac end;
           change (Z.land a 7) with v
         | |- context [utf8.acceptRanges ?a] =>
           let v := eval vm_compute in (utf8.acceptRanges a) in
           match v with (Zpos _, Zpos _) => idtac end;
           change (utf8.acceptRanges a) with v
         end;
  cbv beta iota; cbn [fst snd].

Ltac decode_unfold Hx :=
  unfold utf8.DecodeRuneInString; cbv beta iota zeta; rewrite Hx;
  unfold utf8.locb, utf8.hicb; eval_closed.

Ltac range_check :=
  match goal with
  | |- context [if (?b <? ?lo) || (?hi <? ?b) then _ else _] =>
    destruct (Z.ltb_spec b lo); cbn [orb];
    [|destruct (Z.ltb_spec hi b); cbn [orb]]
  end; cbv beta iota; cbn [fst snd].

Ltac length_check :=
  match goal with
  | |- context [if Z.of_nat (String.length ?s) <? ?n then _ else _] =>
    destruct (Z.ltb_spec (Z.of_nat (String.length s)) n)
  end; cbv beta iota; cbn [fst snd].

Ltac is_invalid := apply decoded_invalid; lia.

Ltac absurd_length := exfalso; cbn [String.length] in *; lia.

Ltac decode_steps :=
  repeat first [ is_invalid | absurd_length | length_check | range_check ].

Lemma Decode_decoded (s : string) :
  decoded s (utf8.DecodeRuneInString s).1 (utf8.DecodeRuneInString s).2.
Proof.
  destruct s as [|c0 r0]; [constructor|].
  pose proof (byteZ_range c0) as Hr0.
  destruct (first_cases (byteZ c0)) as [[Hb Hx]|[[Hb Hx]|[Hb Hx]]].
  - decode_unfold Hx. by constructor.
  - decode_unfold Hx. is_invalid.
  - destruct Hx as [Hx|[Hx|[Hx|[Hx|[Hx|[Hx|Hx]]]]]].
    all: destruct r0 as [|c1 [|c2 [|c3 r3]]].
    all: try pose proof (byteZ_range c1) as Hr1.
    all: try pose proof (byteZ_range c2) as Hr2.
    all: try pose proof (byteZ_range c3) as Hr3.
    all: decode_unfold Hx; decode_steps.
    all: first [ apply decoded_two | apply decoded_three | apply decoded_four ];
      try (unfold cont; lia).
    all: intros t'; decode_unfold Hx; decode_steps; reflexivity.
Qed.


Lemma Decode_pair (s : string) :
  exists r w, utf8.DecodeRuneInString s = (r, w) /\ decoded s r w.
Proof.
  pose proof (Decode_decoded s) as H.
  destruct (utf8.DecodeRuneInString s) as [r w]. by exists r, w.
Qed.

Lemma Decode_ascii (c : ascii) (t : string) :
  byteZ c < 0x80 -> utf8.DecodeRuneInString (String c t) = (byteZ c, 1%nat).
Proof.
  intros Hc. destruct (Decode_pair (String c t)) as (r & w & -> & H).
  inversion H; subst; try reflexivity; lia.
Qed.

Lemma Decode_width (s : string) :
  s <> "" ->
  (1 <= (utf8.DecodeRuneInString s).2 <= String.length s)%nat.
Proof.
  intros Hs. destruct (Decode_pair s) as (r & w & -> & H).
  inversion H; subst; cbn [snd String.length]; try lia. done.
Qed.

Lemma sliceTo_String (m : nat) (s : string) (c : ascii) (p : string) :
  sliceTo m s = String c p ->
  exists m' t, m = S m' /\ s = String c t /\ sliceTo m' t = p.
Proof.
  destruct m as [|m'], s as [|c' t]; simpl; try discriminate.
  intros [= -> <-]. by exists m', t.
Qed.

(** The first rune of a prefix is the first rune of the string, unless the
    prefix cuts it, and then it is [RuneError]. *)
Lemma Decode_prefix (m : nat) (s : string) :
  utf8.DecodeRuneInString (sliceTo m s) = utf8.DecodeRuneInString s
  \/ (utf8.DecodeRuneInString (sliceTo m s)).1 = utf8.RuneError.
Proof.
  destruct (Decode_pair (sliceTo m s)) as (r & w & E & H). rewrite E.
  inversion H as [Hp|c t Hc Hp|c t Hc Hp|c0 c1 t r' H0 H1 Hall Hp
                  |c0 c1 c2 t r' H0 H1 H2 Hall Hp
                  |c0 c1 c2 c3 t r' H0 H1 H2 H3 Hall Hp]; subst; auto.
  - symmetry in Hp. apply sliceTo_String in Hp as (m' & t' & -> & -> & _).
    left. by rewrite Decode_ascii.
  - symmetry in Hp. apply sliceTo_String in Hp as (m1 & t1 & -> & -> & Hp).
    apply sliceTo_String in Hp as (m2 & t2 & -> & -> & _).
    left. by rewrite Hall.
  - symmetry in Hp. apply sliceTo_String in Hp as (m1 & t1 & -> & -> & Hp).
    apply sliceTo_String in Hp as (m2 & t2 & -> & -> & Hp).
    apply sliceTo_String in Hp as (m3 & t3 & -> & -> & _).
    left. by rewrite Hall.
  - symmetry in Hp. apply sliceTo_String in Hp as (m1 & t1 & -> & -> & Hp).
    apply sliceTo_String in Hp as (m2 & t2 & -> & -> & Hp).
    apply sliceTo_String in Hp as (m3 & t3 & -> & -> & Hp).
    apply sliceTo_String in Hp as (m4 & t4 & -> & -> & _).
    left. by rewrite Hall.
Qed.

(** A rune of two bytes or more found in a prefix is the rune found in the
    string. *)
Lemma Decode_extend (m : nat) (s : string) :
  (2 <= (utf8.DecodeRuneInString (sliceTo m s)).2)%nat ->
  utf8.DecodeRuneInString s = utf8.DecodeRuneInString (sliceTo m s).
Proof.
  destruct (Decode_pair (sliceTo m s)) as (r & w & E & H). rewrite E.
  cbn [snd]. intros Hw.
  inversion H as [Hp|c t Hc Hp|c t Hc Hp|c0 c1 t r' H0 H1 Hall Hp
                  |c0 c1 c2 t r' H0 H1 H2 Hall Hp
                  |c0 c1 c2 c3 t r' H0 H1 H2 H3 Hall Hp]; subst; try lia.
  - symmetry in Hp. apply sliceTo_String in Hp as (m1 & t1 & -> & -> & Hp).
    apply sliceTo_String in Hp as (m2 & t2 & -> & -> & _). by rewrite Hall.
  - symmetry in Hp. apply sliceTo_String in Hp as (m1 & t1 & -> & -> & Hp).
    apply sliceTo_String in Hp as (m2 & t2 & -> & -> & Hp).
    apply sliceTo_String in Hp as (m3 & t3 & -> & -> & _). by rewrite Hall.
  - symmetry in Hp. apply sliceTo_String in Hp as (m1 & t1 & -> & -> & Hp).
    apply sliceTo_String in Hp as (m2 & t2 & -> & -> & Hp).
    apply sliceTo_String in Hp as (m3 & t3 & -> & -> & Hp).
    apply sliceTo_String in Hp as (m4 & t4 & -> & -> & _). by rewrite Hall.
Qed.

(** A byte that no continuation byte follows is a rune of its own. *)
Lemma Decode_alone (s : string) :
  s <> "" ->
  ~ (0x80 <= byteAt s 1 <= 0xBF) ->
  (utf8.DecodeRuneInString s).2 = 1%nat.
Proof.
  intros Hs Hnext. destruct (Decode_pair s) as (r & w & -> & H).
  inversion H; subst; cbn [snd]; try reflexivity; try done;
    exfalso; apply Hnext; rewrite byteAt_cons_S, byteAt_cons_0;
    match goal with Hc : cont _ |- _ => exact Hc end.
Qed.

Lemma IsSpace_RuneError : unicode.IsSpace utf8.RuneError = false.
Proof. reflexivity. Qed.

(** A white space rune starts with a byte that is no continuation byte. *)
Lemma Decode_space_start (s : string) :
  unicode.IsSpace (utf8.DecodeRuneInString s).1 = true ->
  s <> "" /\ ~ (0x80 <= byteAt s 0 <= 0xBF).
Proof.
  destruct (Decode_pair s) as (r & w & -> & H). cbn [fst]. intros Hsp.
  inversion H; subst; try (rewrite IsSpace_RuneError in Hsp; discriminate);
    (split; [done|]); rewrite byteAt_cons_0; lia.
Qed.

(** On ASCII bytes [unicode.IsSpace] is the table [asciiSpace]. *)
Lemma IsSpace_ascii (b : Z) :
  0 <= b < 0x80 -> unicode.IsSpace b = strings.asciiSpace b.
Proof.
  intros Hb. unfold unicode.IsSpace, strings.asciiSpace, unicode.MaxLatin1.
  rewrite Z.mod_small by lia.
  destruct (Z.leb_spec b 255); [|lia].
  destruct (Z.eqb_spec b 133); [lia|]. destruct (Z.eqb_spec b 160); [lia|].
  by rewrite !orb_false_r.
Qed.


(** ** File names that are safe already *)

Lemma byteZ_Zbyte (c : ascii) : Zbyte (byteZ c) = c.
Proof.
  unfold Zbyte, byteZ. pose proof (byteZ_range c) as Hc. unfold byteZ in Hc.
  rewrite Z.mod_small by lia. rewrite N2Z.id. apply ascii_N_embedding.
Qed.

Lemma rangeFrom_length (i skip : nat) (s : string) :
  (length (utf8.rangeFrom i skip s) <= String.length s)%nat.
Proof.
  revert i skip. induction s as [|c t IH]; intros i skip; cbn [utf8.rangeFrom].
  - cbn. lia.
  - destruct skip as [|k].
    + destruct (utf8.DecodeRuneInString (String c t)) as [r w].
      cbn [length String.length]. specialize (IH (S i) (w - 1)%nat). lia.
    + cbn [String.length]. specialize (IH (S i) k). lia.
Qed.

Lemma replaceSpaces_safe (s : string) : safeName s -> replaceSpaces s = s.
Proof.
  unfold safeName. induction s as [|c t IH]; [done|].
  cbn [String.list_ascii_of_string replaceSpaces].
  intros [Hc Ht]%Forall_cons. rewrite (IH Ht).
  destruct (Ascii.eqb_spec c " ") as [->|]; [|done].
  vm_compute in Hc. discriminate.
Qed.

Lemma replaceUnsafe_rangeFrom (i : nat) (s : string) :
  safeName s ->
  String.string_of_list_ascii
    (map (fun ic : nat * Z => if isSafe ic.2 then Zbyte ic.2 else "_"%char)
         (utf8.rangeFrom i 0 s)) = s.
Proof.
  unfold safeName. revert i. induction s as [|c t IH]; intros i; [done|].
  cbn [String.list_ascii_of_string utf8.rangeFrom].
  intros [Hc Ht]%Forall_cons.
  rewrite Decode_ascii by (apply isSafe_ascii in Hc; lia).
  cbn [map snd String.string_of_list_ascii Nat.sub].
  rewrite Hc, byteZ_Zbyte. f_equal. by apply IH.
Qed.

Lemma sanitizeFilename_safe (name : string) :
  safeName name -> sanitizeFilename name = name.
Proof.
  intros H. rewrite sanitizeFilename_spec, replaceSpaces_safe by done.
  by apply replaceUnsafe_rangeFrom.
Qed.

Lemma replaceSpaces_length (s : string) :
  String.length (replaceSpaces s) = String.length s.
Proof. induction s as [|c t IH]; cbn; [done|]. by rewrite IH. Qed.

Lemma string_of_list_ascii_length (l : list ascii) :
  String.length (String.string_of_list_ascii l) = length l.
Proof. induction l as [|c l IH]; cbn; [done|]. by rewrite IH. Qed.

(** X17. [sanitizeFilename] leaves a name of ASCII letters, digits,
    underscores and hyphens as it is, so that sanitizing twice is the same
    as sanitizing once; and it never makes a name longer. *)
Theorem sanitizeFilename_idempotent (name : string) :
  (safeName name -> sanitizeFilename name = name)
  /\ sanitizeFilename (sanitizeFilename name) = sanitizeFilename name
  /\ (String.length (sanitizeFilename name) <= String.length name)%nat.
Proof.
  split; [apply sanitizeFilename_safe|]. split.
  - apply sanitizeFilename_safe. unfold safeName.
    rewrite sanitizeFilename_spec. apply replaceUnsafe_safe.
  - rewrite sanitizeFilename_spec. unfold replaceUnsafe.
    rewrite string_of_list_ascii_length, length_map.
    etrans; [apply rangeFrom_length|]. by rewrite replaceSpaces_length.
Qed.


(** ** The errors of [processCSV] *)

Lemma readRows_inr (cols : Columns) (n : nat) (input : csv.Input)
    (acc : list Item) (err : error) :
  (0 < n)%nat -> readRows cols (Z.of_nat n) input acc = inr err ->
  exists cause, err = errRow cause /\ firstBadRow n input cause.
Proof.
  intros Hn. revert acc.
  induction input as [|[record|msg] input IH]; intros acc; cbn [readRows].
  - discriminate.
  - unfold csv.checkFields.
    destruct (Z.ltb_spec 0 (Z.of_nat n)) as [_|?]; [|lia].
    destruct (Z.eqb_spec (Z.of_nat (length record)) (Z.of_nat n)) as [Hlen|Hlen].
    + intros Hrun.
      assert (exists acc', readRows cols (Z.of_nat n) input acc' = inr err)
        as [acc' H'] by (destruct (filterRow cols record); eauto).
      apply IH in H' as (cause & -> & before & x & after & -> & Hall & Hx).
      exists cause. split; [done|].
      exists (inl record :: before), x, after. split; [done|]. split; [|done].
      constructor; [|done]. exists record. split; [done|lia].
    + intros [= <-]. exists csv.ErrFieldCount. split; [done|].
      exists [], (inl record), input. split; [done|]. split; [constructor|].
      right. exists record. split; [done|]. split; [lia|done].
  - intros [= <-]. exists (csv.ParseError msg). split; [done|].
    exists [], (inr msg), input. split; [done|]. split; [constructor|].
    left. by exists msg.
Qed.

Lemma findColumns_missing (header : list string) (name : string) :
  name ∈ requiredColumns ->
  indexOf (findColumns header 0 (mkColumns (-1) (-1) (-1))) name = -1 ->
  Forall (fun column => strings.TrimSpace column <> name) header.
Proof.
  intros Hname Hidx.
  destruct (findColumns_resolves header name Hname) as [[_ Hno]|(k & Hk & _)];
    [|lia].
  apply Forall_lookup. intros k column Hk Htrim. apply (Hno k). by exists column.
Qed.

(** X18. An error of [processCSV] is one of five: the file could not be
    opened; the file is empty; its first record is no valid CSV; the
    header lacks one of the three columns; or, the header being complete,
    the first data row that is no valid CSV or has not as many fields as
    the header, whatever comes after it. *)
Theorem processCSV_errors (fs : os.FS) (filePath : string) (err : error) :
  processCSV fs filePath = inr err ->
  (exists cause, os.Open fs filePath = inr cause /\ err = errOpen cause)
  \/ (os.Open fs filePath = inl [] /\ err = errHeader csv.EOF)
  \/ (exists msg rows,
        os.Open fs filePath = inl (inr msg :: rows)
        /\ err = errHeader (csv.ParseError msg))
  \/ (exists header rows,
        os.Open fs filePath = inl (inl header :: rows)
        /\ ((err = errColumns
             /\ exists name, name ∈ requiredColumns
                  /\ Forall (fun column => strings.TrimSpace column <> name)
                            header)
            \/ (exists cause, err = errRow cause
                  /\ firstBadRow (length header) rows cause))).
Proof.
  unfold processCSV.
  destruct (os.Open fs filePath) as [[|[header|msg] rows]|cause] eqn:Hopen.
  - intros [= <-]. right; left. done.
  - right; right; right. exists header, rows. split; [done|]. revert H.
    unfold csv.Read, csv.NewReader, csv.checkFields.
    cbn [csv.input csv.FieldsPerRecord].
    change (0 <? 0) with false. change (0 =? 0) with true.
    cbn [csv.input csv.FieldsPerRecord].
    set (cols := findColumns header 0 _).
    destruct (Z.eqb_spec (itemIDIndex cols) (-1)) as [H1|H1].
    { intros [= <-]. left. split; [done|]. exists "Item ID".
      split; [set_solver|]. apply findColumns_missing; [set_solver|done]. }
    destruct (Z.eqb_spec (nameIndex cols) (-1)) as [H2|H2].
    { intros [= <-]. left. split; [done|]. exists "Name".
      split; [set_solver|]. apply findColumns_missing; [set_solver|done]. }
    destruct (Z.eqb_spec (categoryIndex cols) (-1)) as [H3|H3].
    { intros [= <-]. left. split; [done|]. exists "Category".
      split; [set_solver|]. apply findColumns_missing; [set_solver|done]. }
    cbn [orb]. intros H. right. apply (readRows_inr cols) in H; [done|].
    destruct header; [|cbn; lia]. by cbn in H1.
  - intros [= <-]. right; right; left. by exists msg, rows.
  - intros [= <-]. left. by exists cause.
Qed.

Lemma processCSV_errors_witness :
  processCSV (fsOf shortRowFile) "items.csv" = inr (errRow csv.ErrFieldCount)
  /\ firstBadRow 3 [inl ["1"; "Red Chair"; "House"]; inl ["2"; "Blue Pet"];
                    inl ["3"; "Green Wall"; "House Wallpaper"]]
                 csv.ErrFieldCount.
Proof.
  assert (processCSV (fsOf shortRowFile) "items.csv"
          = inr (errRow csv.ErrFieldCount)) as H by (vm_compute; reflexivity).
  split; [exact H|].
  destruct (processCSV_errors (fsOf shortRowFile) "items.csv" _ H)
    as [(cause & Ho & _)|[[Ho _]|[(msg & rows & Ho & _)
       |(header & rows & Ho & [[He _]|(cause & He & Hbad)])]]];
    try discriminate.
  injection Ho as <- <-. by injection He as <-.
Defined.


(** ** What [utf8.DecodeLastRuneInString] returns *)

Lemma scanBack_le (s : string) (start : Z) (n : nat) :
  utf8.scanBack s start n <= start.
Proof.
  revert start. induction n as [|n IH]; intros start; simpl; [lia|].
  destruct (utf8.RuneStart _); [lia|]. specialize (IH (start - 1)). lia.
Qed.

Lemma length_0_nil (s : string) : String.length s = 0%nat -> s = "".
Proof. by destruct s. Qed.

Lemma DecodeLast_ascii (t : string) :
  t <> "" -> byteAt t (String.length t - 1) < 0x80 ->
  utf8.DecodeLastRuneInString t = (byteAt t (String.length t - 1), 1%nat).
Proof.
  intros Ht Hb. unfold utf8.DecodeLastRuneInString. cbv zeta.
  destruct (Z.eqb_spec (Z.of_nat (String.length t)) 0) as [H0|H0].
  { exfalso. apply Ht, length_0_nil. lia. }
  replace (Z.to_nat (Z.of_nat (String.length t) - 1))
    with (String.length t - 1)%nat by lia.
  unfold utf8.RuneSelf.
  destruct (Z.ltb_spec (byteAt t (String.length t - 1)) 128); [done|lia].
Qed.

(** The last rune of a string that is not empty: an ASCII byte, a valid
    encoding of two bytes or more that ends the string, or a lone byte read
    as [RuneError]. *)
Lemma DecodeLast_spec (t : string) :
  t <> "" ->
  exists r size,
    utf8.DecodeLastRuneInString t = (r, size)
    /\ (1 <= size <= String.length t)%nat
    /\ ((byteAt t (String.length t - size) < 0x80 /\ size = 1%nat)
        \/ (0xC0 <= byteAt t (String.length t - size) /\ (2 <= size)%nat
            /\ utf8.DecodeRuneInString (sliceFrom (String.length t - size) t)
               = (r, size))
        \/ (0x80 <= byteAt t (String.length t - size) /\ size = 1%nat
            /\ r = utf8.RuneError)).
Proof.
  intros Ht.
  assert (0 < String.length t)%nat as Hn.
  { destruct t; [done | simpl; lia]. }
  destruct (Z.ltb_spec (byteAt t (String.length t - 1)) 0x80) as [Hb|Hb].
  { exists (byteAt t (String.length t - 1)), 1%nat.
    split; [by apply DecodeLast_ascii|]. split; [lia|]. left. by split. }
  unfold utf8.DecodeLastRuneInString. cbv zeta.
  destruct (Z.eqb_spec (Z.of_nat (String.length t)) 0) as [H0|H0]; [lia|].
  replace (Z.to_nat (Z.of_nat (String.length t) - 1))
    with (String.length t - 1)%nat by lia.
  unfold utf8.RuneSelf.
  destruct (Z.ltb_spec (byteAt t (String.length t - 1)) 128); [lia|].
  match goal with
  | |- context [utf8.scanBack t ?st ?k] =>
    pose proof (scanBack_le t st k) as Hscan;
    set (sb := utf8.scanBack t st k) in *
  end.
  set (start := Z.to_nat (Z.max 0 sb)).
  assert (start < String.length t)%nat as Hstart by lia.
  replace (Z.max 0 sb) with (Z.of_nat start) by lia.
  destruct (Decode_pair (sliceFrom start t)) as (r & w & E & Hdec). rewrite E.
  destruct (sliceFrom_cons start t Hstart) as (c0 & Hcons & Hc0).
  destruct (Z.eqb_spec (Z.of_nat start + Z.of_nat w) (Z.of_nat (String.length t)))
    as [Hend|Hend]; cycle 1.
  { exists utf8.RuneError, 1%nat. split; [done|]. split; [lia|].
    right; right. repeat split; lia. }
  exists r, w. split; [done|].
  assert (start = String.length t - w)%nat as Hsw by lia.
  rewrite Hcons in Hdec. rewrite <- Hsw, Hc0.
  inversion Hdec as [|c t' Hc|c t' Hc|c c1 t' r' Hb0 Hb1 Hall
                     |c c1 c2 t' r' Hb0 Hb1 Hb2 Hall
                     |c c1 c2 c3 t' r' Hb0 Hb1 Hb2 Hb3 Hall]; subst.
  - split; [lia|]. left. by split.
  - split; [lia|]. right; right. by repeat split.
  - split; [lia|]. right; left. split; [lia|]. split; [lia|]. exact E.
  - split; [lia|]. right; left. split; [lia|]. split; [lia|]. exact E.
  - split; [lia|]. right; left. split; [lia|]. split; [lia|]. exact E.
Qed.


(** ** What [strings.TrimLeftFunc] returns *)

Lemma rangeFrom_elem (i skip : nat) (s : string) (j : nat) (c : Z) :
  (j, c) ∈ utf8.rangeFrom i skip s ->
  exists k, j = (i + k)%nat /\ (k < String.length s)%nat
            /\ c = (utf8.DecodeRuneInString (sliceFrom k s)).1.
Proof.
  revert i skip. induction s as [|c0 t IH]; intros i skip; cbn [utf8.rangeFrom].
  - intros H. by apply elem_of_nil in H.
  - destruct skip as [|skip].
    + destruct (utf8.DecodeRuneInString (String c0 t)) as [r w] eqn:E.
      intros [[= -> ->]|H]%elem_of_cons.
      * exists 0%nat. cbn [sliceFrom String.length]. rewrite E.
        split; [lia|]. split; [lia|done].
      * apply IH in H as (k & -> & Hk & ->). exists (S k).
        cbn [sliceFrom String.length]. split; [lia|]. split; [lia|done].
    + intros H. apply IH in H as (k & -> & Hk & ->). exists (S k).
      cbn [sliceFrom String.length]. split; [lia|]. split; [lia|done].
Qed.

Lemma TrimLeftFunc_spec (s : string) (f : Z -> bool) :
  exists k, strings.TrimLeftFunc s f = sliceFrom k s
            /\ (sliceFrom k s = ""
                \/ f (utf8.DecodeRuneInString (sliceFrom k s)).1 = false).
Proof.
  unfold strings.TrimLeftFunc, strings.indexFunc.
  destruct (find _ (utf8.range s)) as [[j c]|] eqn:Hfind.
  - apply find_some in Hfind as [Hin Hf]. cbn [snd] in Hf.
    apply list_elem_of_In, rangeFrom_elem in Hin as (k & -> & Hk & ->).
    destruct (Z.eqb_spec (Z.of_nat (0 + k)) (-1)); [lia|].
    rewrite Nat2Z.id. exists k. split; [done|]. right.
    by destruct (f _).
  - cbn. exists (String.length s). split; [|left].
    + clear. induction s; [done|]. done.
    + clear. induction s; [done|]. done.
Qed.

Lemma TrimLeftFunc_fix (s : string) (f : Z -> bool) :
  s <> "" -> f (utf8.DecodeRuneInString s).1 = false ->
  strings.TrimLeftFunc s f = s.
Proof.
  intros Hs Hf. unfold strings.TrimLeftFunc, strings.indexFunc, utf8.range.
  destruct s as [|c t]; [done|]. cbn [utf8.rangeFrom].
  destruct (utf8.DecodeRuneInString (String c t)) as [r w].
  cbn [fst] in Hf. cbn [find snd]. rewrite Hf. cbn. done.
Qed.

(** ** What [strings.TrimRightFunc] returns, for [unicode.IsSpace] *)

Lemma byteAt_out (s : string) (k : nat) :
  (String.length s <= k)%nat -> byteAt s k = 0.
Proof.
  unfold byteAt. revert k. induction s as [|c t IH]; intros k Hk; [by destruct k|].
  destruct k as [|k]; cbn [String.length] in Hk; [lia|]. cbn. apply IH. lia.
Qed.

Lemma sliceTo_ne (m : nat) (s : string) :
  (0 < m)%nat -> (m <= String.length s)%nat -> sliceTo m s <> "".
Proof. destruct m, s; cbn; try lia; done. Qed.

Lemma sliceFrom_ne (k : nat) (s : string) :
  (k < String.length s)%nat -> sliceFrom k s <> "".
Proof. intros H. destruct (sliceFrom_cons k s H) as (c & -> & _). done. Qed.

(** One turn of the loop of [lastIndexFunc] from a rune boundary [i]: the
    last rune of [s[:i]] starts at [i - size], and going behind it leads
    back to [i]. *)
Lemma lastIndex_step (s : string) (i : nat) :
  (0 < i <= String.length s)%nat -> notCont (byteAt s i) ->
  exists r size,
    utf8.DecodeLastRuneInString (sliceTo i s) = (r, size)
    /\ (1 <= size <= i)%nat
    /\ behind s (Z.of_nat i - Z.of_nat size) = Z.of_nat i
    /\ (unicode.IsSpace r = true -> notCont (byteAt s (i - size))).
Proof.
  intros Hi Hnc.
  destruct (DecodeLast_spec (sliceTo i s)) as (r & size & E & Hsize & Hcases).
  { apply sliceTo_ne; lia. }
  rewrite sliceTo_length in Hsize, Hcases.
  rewrite Nat.min_l in Hsize, Hcases by lia.
  exists r, size. split; [exact E|]. split; [lia|].
  rewrite byteAt_sliceTo in Hcases by lia.
  unfold behind. replace (Z.of_nat i - Z.of_nat size) with (Z.of_nat (i - size)) by lia.
  rewrite Nat2Z.id. destruct (Z.leb_spec 0 (Z.of_nat (i - size))); [|lia].
  cbn [andb]. unfold utf8.RuneSelf.
  destruct Hcases as [[Hb ->]|[(Hb & Hs2 & Hdec)|(Hb & -> & ->)]].
  - destruct (Z.leb_spec 128 (byteAt s (i - 1))); [lia|].
    split; [lia|]. intros _. unfold notCont. lia.
  - destruct (Z.leb_spec 128 (byteAt s (i - size))); [|lia].
    rewrite sliceFrom_sliceTo in Hdec.
    assert (utf8.DecodeRuneInString (sliceFrom (i - size) s) = (r, size)) as ->.
    { rewrite <- Hdec. apply Decode_extend. rewrite Hdec. cbn [snd]. lia. }
    cbn [snd]. split; [lia|]. intros _. unfold notCont. lia.
  - destruct (Z.leb_spec 128 (byteAt s (i - 1))); [|lia].
    rewrite (Decode_alone (sliceFrom (i - 1) s)).
    + split; [lia|]. by rewrite IsSpace_RuneError.
    + apply sliceFrom_ne. lia.
    + rewrite byteAt_sliceFrom. replace (i - 1 + 1)%nat with i by lia. exact Hnc.
Qed.

Lemma lastIndexFunc_loop_spec (fuel : nat) (s : string) (i : nat) :
  (i <= fuel)%nat -> (i <= String.length s)%nat -> notCont (byteAt s i) ->
  let res := strings.lastIndexFunc_loop fuel s unicode.IsSpace false (Z.of_nat i) in
  res = -1
  \/ exists m : nat,
       (0 < m <= i)%nat /\ 0 <= res /\ behind s res = Z.of_nat m
       /\ unicode.IsSpace (utf8.DecodeLastRuneInString (sliceTo m s)).1 = false.
Proof.
  revert i. induction fuel as [|fuel IH]; intros i Hfuel Hlen Hnc; cbn zeta.
  { by left. }
  cbn [strings.lastIndexFunc_loop].
  destruct (Z.ltb_spec 0 (Z.of_nat i)) as [Hpos|]; [|by left].
  rewrite Nat2Z.id.
  destruct (lastIndex_step s i) as (r & size & E & Hsize & Hbehind & Hsp);
    [lia|done|].
  rewrite E. destruct (unicode.IsSpace r) eqn:Hr; cbn [Bool.eqb].
  - replace (Z.of_nat i - Z.of_nat size) with (Z.of_nat (i - size)) by lia.
    destruct (IH (i - size)%nat) as [H|(m & Hm & Hres & Hb & Hlast)];
      [lia|lia|by apply Hsp| |].
    + by left.
    + right. exists m. split; [lia|]. done.
  - right. exists i. split; [lia|]. split; [lia|]. split; [done|].
    by rewrite E.
Qed.

Lemma TrimRightFunc_spec (s : string) :
  exists m, strings.TrimRightFunc s unicode.IsSpace = sliceTo m s
    /\ (m <= String.length s)%nat
    /\ (m = 0%nat
        \/ unicode.IsSpace (utf8.DecodeLastRuneInString (sliceTo m s)).1 = false).
Proof.
  unfold strings.TrimRightFunc, strings.lastIndexFunc.
  destruct (lastIndexFunc_loop_spec (String.length s) s (String.length s))
    as [H|(m & Hm & Hres & Hb & Hlast)]; [lia|lia| | |].
  - unfold notCont. rewrite byteAt_out by lia. lia.
  - cbn zeta in H. rewrite H. cbn. exists 0%nat. split; [by destruct s|].
    split; [lia|by left].
  - cbn zeta in Hres, Hb. unfold behind in Hb. cbn zeta. rewrite Hb.
    rewrite Nat2Z.id. exists m. split; [done|]. split; [lia|by right].
Qed.

Lemma TrimRightFunc_fix (s : string) :
  s <> "" -> unicode.IsSpace (utf8.DecodeLastRuneInString s).1 = false ->
  strings.TrimRightFunc s unicode.IsSpace = s.
Proof.
  intros Hs Hf. unfold strings.TrimRightFunc, strings.lastIndexFunc.
  assert (0 < String.length s)%nat as Hlen by (destruct s; [done|cbn; lia]).
  destruct (String.length s) as [|n] eqn:Hn; [lia|].
  cbn [strings.lastIndexFunc_loop]. rewrite <- Hn.
  destruct (Z.ltb_spec 0 (Z.of_nat (String.length s))); [|lia].
  rewrite Nat2Z.id.
  destruct (lastIndex_step s (String.length s)) as (r & size & E & Hsize & Hb & _).
  { lia. }
  { unfold notCont. rewrite byteAt_out by lia. lia. }
  rewrite E. rewrite sliceTo_all in E by lia. rewrite E in Hf. cbn [fst] in Hf.
  rewrite Hf. cbn [Bool.eqb]. unfold behind in Hb. rewrite Hb.
  rewrite Nat2Z.id. apply sliceTo_all. lia.
Qed.


(** ** A trimmed string has no white space at either end *)

Lemma noSpaceAtStart_sliceTo (m : nat) (s : string) :
  noSpaceAtStart s -> noSpaceAtStart (sliceTo m s).
Proof.
  intros [->|H]; [left; apply sliceTo_nil|].
  destruct (Decode_prefix m s) as [E|E].
  - right. by rewrite E.
  - right. rewrite E. apply IsSpace_RuneError.
Qed.

Lemma trimSpaceStart_spec (s : string) :
  match strings.trimSpaceStart s with
  | inl t => noSpaceAtStart t /\ (t = "" \/ byteAt t 0 < 0x80)
  | inr t => t <> "" /\ 0x80 <= byteAt t 0
  end.
Proof.
  induction s as [|c t IH]; cbn [strings.trimSpaceStart].
  - split; by left.
  - unfold utf8.RuneSelf. destruct (Z.leb_spec 128 (byteZ c)) as [Hc|Hc].
    + split; [done|]. by rewrite byteAt_cons_0.
    + destruct (strings.asciiSpace (byteZ c)) eqn:Hsp; [exact IH|].
      split; [|right; rewrite byteAt_cons_0; lia].
      right. rewrite Decode_ascii by lia. cbn [fst].
      rewrite IsSpace_ascii; [done|]. pose proof (byteZ_range c). lia.
Qed.

Lemma trimSpaceStop_spec (t : string) (stop : nat) :
  (stop <= String.length t)%nat ->
  exists m, strings.trimSpaceStop t stop = sliceTo m t
            /\ noSpaceAtEnd (sliceTo m t).
Proof.
  induction stop as [|k IH]; intros Hlen; cbn [strings.trimSpaceStop].
  - exists 0%nat. split; [by destruct t|]. left. by destruct t.
  - unfold utf8.RuneSelf. destruct (Z.leb_spec 128 (byteAt t k)) as [Hc|Hc].
    + destruct (TrimRightFunc_spec (sliceTo (S k) t)) as (m & -> & Hm & Hlast).
      rewrite sliceTo_sliceTo in *. exists (Nat.min m (S k)). split; [done|].
      destruct Hlast as [->|Hlast]; [left; by destruct t|by right].
    + destruct (strings.asciiSpace (byteAt t k)) eqn:Hsp; [apply IH; lia|].
      exists (S k). split; [done|]. right.
      rewrite DecodeLast_ascii.
      * cbn [fst]. rewrite sliceTo_length, Nat.min_l by lia.
        replace (S k - 1)%nat with k by lia. rewrite byteAt_sliceTo by lia.
        rewrite IsSpace_ascii; [done|]. pose proof (byteAt_range t k). lia.
      * apply sliceTo_ne; lia.
      * rewrite sliceTo_length, Nat.min_l by lia.
        replace (S k - 1)%nat with k by lia. by rewrite byteAt_sliceTo by lia.
Qed.

(** What [strings.TrimSpace] returns starts and ends with no white space. *)
Lemma TrimSpace_trimmed (s : string) :
  noSpaceAtStart (strings.TrimSpace s) /\ noSpaceAtEnd (strings.TrimSpace s).
Proof.
  unfold strings.TrimSpace.
  pose proof (trimSpaceStart_spec s) as Hstart.
  destruct (strings.trimSpaceStart s) as [t|t].
  - destruct Hstart as [Hfirst _].
    destruct (trimSpaceStop_spec t (String.length t)) as (m & -> & Hlast); [lia|].
    split; [by apply noSpaceAtStart_sliceTo|done].
  - unfold strings.TrimFunc.
    destruct (TrimLeftFunc_spec t unicode.IsSpace) as (k & -> & Hfirst).
    destruct (TrimRightFunc_spec (sliceFrom k t)) as (m & -> & Hm & Hlast).
    split.
    + apply noSpaceAtStart_sliceTo. destruct Hfirst; [by left|by right].
    + destruct Hlast as [->|Hlast]; [left; by destruct (sliceFrom k t)|by right].
Qed.

(** [strings.TrimSpace] leaves such a string as it is. *)
Lemma TrimSpace_fix (t : string) :
  noSpaceAtStart t -> noSpaceAtEnd t -> strings.TrimSpace t = t.
Proof.
  intros [->|Hfirst] Hlast; [done|].
  destruct Hlast as [->|Hlast]; [done|].
  destruct t as [|c t']; [done|]. set (t := String c t') in *.
  assert (t <> "") as Hne by done.
  unfold strings.TrimSpace. subst t. cbn [strings.trimSpaceStart]. set (t := String c t') in *.
  unfold utf8.RuneSelf. destruct (Z.leb_spec 128 (byteZ c)) as [Hc|Hc].
  - unfold strings.TrimFunc. rewrite TrimLeftFunc_fix by done.
    by apply TrimRightFunc_fix.
  - assert (strings.asciiSpace (byteZ c) = false) as ->.
    { subst t. rewrite Decode_ascii in Hfirst by lia. cbn [fst] in Hfirst.
      rewrite IsSpace_ascii in Hfirst; [done|]. pose proof (byteZ_range c). lia. }
    assert (0 < String.length t)%nat as Hlen by (subst t; cbn; lia).
    destruct (String.length t) as [|k] eqn:Hk; [lia|].
    cbn [strings.trimSpaceStop]. unfold utf8.RuneSelf.
    rewrite (sliceTo_all (S k) t) by lia.
    destruct (Z.leb_spec 128 (byteAt t k)) as [Hb|Hb].
    + by apply TrimRightFunc_fix.
    + rewrite DecodeLast_ascii in Hlast; [|done|rewrite Hk; by replace (S k - 1)%nat with k by lia].
      cbn [fst] in Hlast. rewrite Hk in Hlast.
      replace (S k - 1)%nat with k in Hlast by lia.
      rewrite IsSpace_ascii in Hlast by (pose proof (byteAt_range t k); lia).
      by rewrite Hlast.
Qed.

Lemma TrimSpace_idem (s : string) :
  strings.TrimSpace (strings.TrimSpace s) = strings.TrimSpace s.
Proof. apply TrimSpace_fix; apply TrimSpace_trimmed. Qed.


(** ** The fields of an item are trimmed parts of the fields of its row *)

Lemma sliceTo_sliceFrom_append (k : nat) (s : string) :
  s = sliceTo k s +:+ sliceFrom k s.
Proof.
  revert s. induction k as [|k IH]; intros [|c s]; cbn [sliceTo sliceFrom];
    rewrite ?append_nil, ?append_cons; try done.
  by rewrite <- IH.
Qed.

Lemma sliceFrom_sliceFrom (k j : nat) (s : string) :
  sliceFrom j (sliceFrom k s) = sliceFrom (k + j) s.
Proof.
  revert s. induction k as [|k IH]; intros s; [done|].
  destruct s as [|c s]; cbn [sliceFrom Nat.add]; [apply sliceFrom_nil|apply IH].
Qed.

Lemma trimSpaceStart_slice (s : string) :
  exists k, match strings.trimSpaceStart s with inl t | inr t => t end
            = sliceFrom k s.
Proof.
  induction s as [|c t IH]; cbn [strings.trimSpaceStart]; [by exists 0%nat|].
  destruct (utf8.RuneSelf <=? byteZ c); [by exists 0%nat|].
  destruct (strings.asciiSpace (byteZ c)); [|by exists 0%nat].
  destruct IH as [k IH]. by exists (S k).
Qed.

Lemma TrimSpace_slice (s : string) :
  exists k m, strings.TrimSpace s = sliceTo m (sliceFrom k s).
Proof.
  unfold strings.TrimSpace. destruct (trimSpaceStart_slice s) as [k Hk].
  destruct (strings.trimSpaceStart s) as [t|t]; subst t.
  - destruct (trimSpaceStop_spec (sliceFrom k s) (String.length (sliceFrom k s)))
      as (m & -> & _); [lia|]. by exists k, m.
  - unfold strings.TrimFunc.
    destruct (TrimLeftFunc_spec (sliceFrom k s) unicode.IsSpace) as (j & -> & _).
    destruct (TrimRightFunc_spec (sliceFrom j (sliceFrom k s))) as (m & -> & _).
    rewrite sliceFrom_sliceFrom. by exists (k + j)%nat, m.
Qed.

Lemma TrimSpace_isSubstring (s : string) : isSubstring (strings.TrimSpace s) s.
Proof.
  destruct (TrimSpace_slice s) as (k & m & ->).
  exists (sliceTo k s), (sliceFrom m (sliceFrom k s)).
  rewrite <- sliceTo_sliceFrom_append. apply sliceTo_sliceFrom_append.
Qed.

(** X19. Every field of an item [processCSV] returns is trimmed:
    [strings.TrimSpace] leaves it as it is, and it neither starts nor ends
    with a white space character. *)
Theorem processCSV_trimmed (fs : os.FS) (filePath : string) (items : list Item)
    (r : Item) (f : string) :
  processCSV fs filePath = inl items -> r ∈ items ->
  f ∈ [ID r; Name r; Category r] ->
  strings.TrimSpace f = f /\ noSpaceAtStart f /\ noSpaceAtEnd f /\ f <> "".
Proof.
  intros Hp Hr Hf.
  destruct (processCSV_items fs filePath items Hp r Hr)
    as [(Hid & Hname & Hcat & _) (header & rows & record & _ & _ & Ht1 & Ht2 & Ht3)].
  assert (exists s, f = strings.TrimSpace s /\ f <> "") as (s & -> & Hne).
  { repeat (apply elem_of_cons in Hf as [->|Hf]; [eauto|]).
    by apply elem_of_nil in Hf. }
  split; [apply TrimSpace_idem|]. split; [apply TrimSpace_trimmed|].
  split; [apply TrimSpace_trimmed|done].
Qed.

Lemma processCSV_trimmed_witness :
  processCSV (fsOf sampleFile) "items.csv" = inl sampleItems
  /\ mkItem "3" "Blue Pet" "Pet" ∈ sampleItems
  /\ strings.TrimSpace "Blue Pet" = "Blue Pet".
Proof.
  assert (processCSV (fsOf sampleFile) "items.csv" = inl sampleItems) as Hp
    by (vm_compute; reflexivity).
  assert (mkItem "3" "Blue Pet" "Pet" ∈ sampleItems) as Hr by (right; left).
  split; [exact Hp|]. split; [exact Hr|].
  apply (processCSV_trimmed (fsOf sampleFile) "items.csv" sampleItems
           (mkItem "3" "Blue Pet" "Pet") "Blue Pet" Hp Hr).
  right; left.
Defined.

(** X20. Every field of an item [processCSV] returns is a part of the
    field of its row: the row's field is the item's field with some text
    before and some text after it. *)
Theorem processCSV_fields_of_row (fs : os.FS) (filePath : string)
    (items : list Item) (r : Item) :
  processCSV fs filePath = inl items -> r ∈ items ->
  exists header rows record,
    os.Open fs filePath = inl (inl header :: rows)
    /\ inl record ∈ rows
    /\ let cols := findColumns header 0 (mkColumns (-1) (-1) (-1)) in
       isSubstring (ID r) (field record (itemIDIndex cols))
       /\ isSubstring (Name r) (field record (nameIndex cols))
       /\ isSubstring (Category r) (field record (categoryIndex cols)).
Proof.
  intros Hp Hr.
  destruct (processCSV_items fs filePath items Hp r Hr)
    as [_ (header & rows & record & Hopen & Hrec & Ht1 & Ht2 & Ht3)].
  exists header, rows, record. split; [done|]. split; [done|]. cbn zeta.
  rewrite Ht1, Ht2, Ht3. repeat split; apply TrimSpace_isSubstring.
Qed.

Lemma processCSV_fields_of_row_witness :
  processCSV (fsOf sampleFile) "items.csv" = inl sampleItems
  /\ mkItem "3" "Blue Pet" "Pet" ∈ sampleItems
  /\ exists header rows record,
       os.Open (fsOf sampleFile) "items.csv" = inl (inl header :: rows)
       /\ inl record ∈ rows.
Proof.
  assert (processCSV (fsOf sampleFile) "items.csv" = inl sampleItems) as Hp
    by (vm_compute; reflexivity).
  assert (mkItem "3" "Blue Pet" "Pet" ∈ sampleItems) as Hr by (right; left).
  split; [exact Hp|]. split; [exact Hr|].
  destruct (processCSV_fields_of_row (fsOf sampleFile) "items.csv" sampleItems
              (mkItem "3" "Blue Pet" "Pet") Hp Hr)
    as (header & rows & record & Hopen & Hrec & _).
  by exists header, rows, record.
Defined.


(** ** The three columns are three different columns *)

Lemma resolves_found (header : list string) (name : string) (idx : Z) :
  resolves header name idx -> idx <> -1 ->
  exists k : nat, idx = Z.of_nat k /\ columnNamed header name k.
Proof. intros [[-> _]|(k & -> & Hk & _)] Hne; [done|by exists k]. Qed.

(** X21. The positions the header loop finds for two different required
    columns are different, so that a header [processCSV] accepts has at
    least three columns. *)
Theorem findColumns_distinct (header : list string) :
  let cols := findColumns header 0 (mkColumns (-1) (-1) (-1)) in
  itemIDIndex cols <> -1 -> nameIndex cols <> -1 -> categoryIndex cols <> -1 ->
  itemIDIndex cols <> nameIndex cols
  /\ itemIDIndex cols <> categoryIndex cols
  /\ nameIndex cols <> categoryIndex cols
  /\ (3 <= length header)%nat.
Proof.
  intros cols H1 H2 H3.
  destruct (resolves_found header "Item ID" (itemIDIndex cols))
    as (k1 & E1 & c1 & Hc1 & Ht1);
    [apply (findColumns_resolves header "Item ID"); set_solver|done|].
  destruct (resolves_found header "Name" (nameIndex cols))
    as (k2 & E2 & c2 & Hc2 & Ht2);
    [apply (findColumns_resolves header "Name"); set_solver|done|].
  destruct (resolves_found header "Category" (categoryIndex cols))
    as (k3 & E3 & c3 & Hc3 & Ht3);
    [apply (findColumns_resolves header "Category"); set_solver|done|].
  rewrite E1, E2, E3.
  assert (k1 <> k2) as N12 by (intros ->; congruence).
  assert (k1 <> k3) as N13 by (intros ->; congruence).
  assert (k2 <> k3) as N23 by (intros ->; congruence).
  split; [lia|]. split; [lia|]. split; [lia|].
  apply lookup_lt_Some in Hc1, Hc2, Hc3. lia.
Qed.

Lemma findColumns_distinct_witness :
  itemIDIndex (findColumns ["Name"; " Item ID "; "Notes"; "Name"; "Category"] 0
                           (mkColumns (-1) (-1) (-1))) <> -1
  /\ itemIDIndex (findColumns ["Name"; " Item ID "; "Notes"; "Name"; "Category"] 0
                              (mkColumns (-1) (-1) (-1)))
     <> nameIndex (findColumns ["Name"; " Item ID "; "Notes"; "Name"; "Category"] 0
                               (mkColumns (-1) (-1) (-1))).
Proof.
  split; [vm_compute; discriminate|].
  apply (findColumns_distinct ["Name"; " Item ID "; "Notes"; "Name"; "Category"]);
    vm_compute; discriminate.
Defined.


(** ** [sort.Slice] sorts, when [less] is a strict weak ordering *)

Section Order.

Context {A : Type}.
Variable less : A -> A -> bool.

Hypothesis less_asym : forall x y, less x y = true -> less y x = false.
Hypothesis less_ntrans :
  forall x y z, less x y = false -> less y z = false -> less x z = false.

Lemma Less_Some (d : list A) (i j : nat) (x y : A) :
  d !! i = Some x -> d !! j = Some y -> sort.Less less d i j = less x y.
Proof. unfold sort.Less. by intros -> ->. Qed.

Lemma Less_true (d : list A) (i j : nat) :
  sort.Less less d i j = true -> (i < length d)%nat /\ (j < length d)%nat.
Proof.
  unfold sort.Less. destruct (d !! i) eqn:Hi; [|done].
  destruct (d !! j) eqn:Hj; [|done]. intros _.
  split; by eapply lookup_lt_Some.
Qed.

Lemma Less_irrefl (d : list A) (i : nat) : sort.Less less d i i = false.
Proof.
  unfold sort.Less. destruct (d !! i) as [x|]; [|done].
  destruct (less x x) eqn:H; [|done]. apply less_asym in H as H'. congruence.
Qed.

Lemma Less_asym (d : list A) (i j : nat) :
  sort.Less less d i j = true -> sort.Less less d j i = false.
Proof.
  unfold sort.Less. destruct (d !! i) as [x|], (d !! j) as [y|]; try done.
  apply less_asym.
Qed.

Lemma Less_ntrans (d : list A) (i j k : nat) :
  (j < length d)%nat ->
  sort.Less less d i j = false -> sort.Less less d j k = false -> sort.Less less d i k = false.
Proof.
  intros Hj. destruct (lookup_lt_is_Some_2 d j Hj) as [y Hy].
  unfold sort.Less. rewrite Hy.
  destruct (d !! i) as [x|], (d !! k) as [z|]; try done.
  apply less_ntrans.
Qed.

Lemma Less_trans (d : list A) (i j k : nat) :
  sort.Less less d i j = true -> sort.Less less d j k = true -> sort.Less less d i k = true.
Proof.
  intros H1 H2. destruct (sort.Less less d i k) eqn:H; [done|].
  apply Less_true in H1 as H1'. apply Less_asym in H2 as H2'.
  pose proof (Less_true _ _ _ H2) as [_ Hk].
  rewrite (Less_ntrans d i k j Hk H H2') in H1. done.
Qed.

(** [d[i] <= d[j] < d[k]] gives [d[i] < d[k]]. *)
Lemma Less_le_lt (d : list A) (i j k : nat) :
  (i < length d)%nat ->
  sort.Less less d j i = false -> sort.Less less d j k = true -> sort.Less less d i k = true.
Proof.
  intros Hi H1 H2. destruct (sort.Less less d i k) eqn:H; [done|].
  rewrite (Less_ntrans d j i k Hi H1 H) in H2. done.
Qed.

(** [d[i] < d[j] <= d[k]] gives [d[i] < d[k]]. *)
Lemma Less_lt_le (d : list A) (i j k : nat) :
  (k < length d)%nat ->
  sort.Less less d i j = true -> sort.Less less d k j = false -> sort.Less less d i k = true.
Proof.
  intros Hk H1 H2. destruct (sort.Less less d i k) eqn:H; [done|].
  rewrite (Less_ntrans d i k j Hk H H2) in H1. done.
Qed.

Lemma transpose_lt (p q k n : nat) :
  (p < n)%nat -> (q < n)%nat -> (k < n)%nat -> (transpose p q k < n)%nat.
Proof. unfold transpose. intros. repeat case_decide; lia. Qed.

Lemma Swap_lookup_transpose (d : list A) (p q k : nat) :
  (p < length d)%nat -> (q < length d)%nat ->
  sort.Swap d p q !! k = d !! transpose p q k.
Proof. intros. by rewrite Swap_lookup. Qed.

Lemma Less_Swap (d : list A) (p q i j : nat) :
  (p < length d)%nat -> (q < length d)%nat ->
  sort.Less less (sort.Swap d p q) i j = sort.Less less d (transpose p q i) (transpose p q j).
Proof.
  intros Hp Hq. unfold sort.Less at 1. by rewrite !Swap_lookup_transpose.
Qed.

Lemma Swap_out (d : list A) (p q : nat) :
  ~ ((p < length d)%nat /\ (q < length d)%nat) -> sort.Swap d p q = d.
Proof.
  intros H. unfold sort.Swap.
  destruct (d !! p) as [x|] eqn:Hp; [|done].
  destruct (d !! q) as [y|] eqn:Hq; [|done].
  apply lookup_lt_Some in Hp, Hq. tauto.
Qed.

(** *** Frames *)

Lemma sameOutside_refl (a b : nat) (d : list A) : sameOutside a b d d.
Proof. by split. Qed.

Lemma sameOutside_trans (a b : nat) (d1 d2 d3 : list A) :
  sameOutside a b d1 d2 -> sameOutside a b d2 d3 -> sameOutside a b d1 d3.
Proof.
  intros [L1 H1] [L2 H2]. split; [congruence|].
  intros k Hk. by rewrite H2, H1.
Qed.

Lemma sameOutside_weaken (a b a' b' : nat) (d d' : list A) :
  (a <= a')%nat -> (b' <= b)%nat ->
  sameOutside a' b' d d' -> sameOutside a b d d'.
Proof. intros Ha Hb [L H]. split; [done|]. intros k Hk. apply H. lia. Qed.

Lemma sameOutside_Swap (a b p q : nat) (d : list A) :
  (a <= p < b)%nat -> (a <= q < b)%nat -> sameOutside a b d (sort.Swap d p q).
Proof.
  intros Hp Hq. split; [apply Swap_length|]. intros k Hk.
  destruct (decide ((p < length d)%nat /\ (q < length d)%nat)) as [[? ?]|Hout].
  - rewrite Swap_lookup_transpose by done. unfold transpose.
    repeat case_decide; try lia; done.
  - by rewrite Swap_out.
Qed.

Lemma sameOutside_Less (a b : nat) (d d' : list A) (i j : nat) :
  sameOutside a b d d' -> (i < a \/ b <= i)%nat -> (j < a \/ b <= j)%nat ->
  sort.Less less d' i j = sort.Less less d i j.
Proof. intros [_ H] Hi Hj. unfold sort.Less. by rewrite !H. Qed.

(** A permutation that keeps the elements outside [a <= i < b] takes
    every element at such a position from such a position. *)
Lemma sameOutside_source (a b : nat) (d d' : list A) (k : nat) :
  d' ≡ₚ d -> sameOutside a b d d' -> (a <= k < b)%nat -> (b <= length d)%nat ->
  exists k', (a <= k' < b)%nat /\ d' !! k = d !! k'.
Proof.
  intros Hperm [Hlen Hout] Hk Hb.
  assert (take a d' = take a d) as Htake.
  { apply list_eq. intros i. destruct (decide (i < a)%nat).
    - rewrite !lookup_take_lt by done. apply Hout. lia.
    - by rewrite !lookup_take_ge by lia. }
  assert (drop b d' = drop b d) as Hdrop.
  { apply list_eq. intros i. rewrite !lookup_drop. apply Hout. lia. }
  assert (take (b - a) (drop a d') ≡ₚ take (b - a) (drop a d)) as Hseg.
  { rewrite <- (take_drop a d'), <- (take_drop a d) in Hperm.
    rewrite Htake in Hperm. apply Permutation_app_inv_l in Hperm.
    rewrite <- (take_drop (b - a) (drop a d')),
            <- (take_drop (b - a) (drop a d)) in Hperm.
    rewrite !drop_drop in Hperm.
    replace (a + (b - a))%nat with b in Hperm by lia.
    rewrite Hdrop in Hperm. by apply Permutation_app_inv_r in Hperm. }
  destruct (lookup_lt_is_Some_2 d' k) as [x Hx]; [lia|].
  assert (x ∈ take (b - a) (drop a d')) as Hin.
  { apply list_elem_of_lookup. exists (k - a)%nat.
    rewrite lookup_take_lt by lia. rewrite lookup_drop.
    by replace (a + (k - a))%nat with k by lia. }
  rewrite Hseg in Hin. apply list_elem_of_lookup in Hin as [i Hi].
  assert (i < b - a)%nat as Hlt.
  { apply lookup_lt_Some in Hi. rewrite length_take in Hi. lia. }
  rewrite lookup_take_lt, lookup_drop in Hi by done.
  exists (a + i)%nat. split; [lia|]. by rewrite Hx, Hi.
Qed.

(** *** Runs in order *)

Lemma sortedSeg_adjacent (d : list A) (a b : nat) :
  (b <= length d)%nat ->
  (forall i, (a <= i)%nat -> (S i < b)%nat -> sort.Less less d (S i) i = false) ->
  sortedSeg less d a b.
Proof.
  intros Hb Hadj i j Hi Hij Hj.
  induction j as [|j IH]; [lia|].
  destruct (decide (i = j)) as [->|Hne]; [apply Hadj; lia|].
  apply (Less_ntrans d (S j) j i); [lia|apply Hadj; lia|apply IH; lia].
Qed.

Lemma sortedSeg_short (d : list A) (a b : nat) :
  (b <= S a)%nat -> sortedSeg less d a b.
Proof. intros H i j. lia. Qed.

End Order.


Ltac transpose_cases :=
  unfold transpose in *; repeat case_decide; try lia.

Section InsertionSorted.

Context {A : Type}.
Variable less : A -> A -> bool.

Hypothesis less_asym : forall x y, less x y = true -> less y x = false.
Hypothesis less_ntrans :
  forall x y z, less x y = false -> less y z = false -> less x z = false.

Lemma insertionInner_sorted (a j hi : nat) (d : list A) :
  (a <= j <= hi)%nat -> (hi < length d)%nat ->
  sortedSeg less d a j -> sortedSeg less d (S j) (S hi) ->
  (forall i k, (a <= i < j)%nat -> (j < k <= hi)%nat ->
     sort.Less less d k i = false) ->
  (forall k, (j < k <= hi)%nat -> sort.Less less d k j = false) ->
  sortedSeg less (sort.insertionInner less a j d) a (S hi)
  /\ sameOutside a (S hi) d (sort.insertionInner less a j d).
Proof.
  revert d. induction j as [|j' IH]; intros d Hj Hhi Hpre Hsuf Hcross Hmin;
    cbn [sort.insertionInner].
  - split; [|apply sameOutside_refl].
    intros i k Hi Hik Hk. destruct (decide (i = 0%nat)) as [->|Hne].
    + apply Hmin. lia.
    + apply Hsuf; lia.
  - destruct (Nat.ltb_spec a (S j')) as [Haj|Haj]; cbn [andb].
    2:{ split; [|apply sameOutside_refl].
        intros i k Hi Hik Hk. destruct (decide (i = S j')) as [->|Hne].
        - apply Hmin. lia.
        - apply Hsuf; lia. }
    destruct (sort.Less less d (S j') j') eqn:Hless.
    2:{ split; [|apply sameOutside_refl].
        intros i k Hi Hik Hk.
        destruct (decide (k < S j')%nat); [apply Hpre; lia|].
        destruct (decide (S j' < i)%nat); [apply Hsuf; lia|].
        destruct (decide (i = S j')) as [->|Hne]; [apply Hmin; lia|].
        destruct (decide (k = S j')) as [->|Hne']; [|apply Hcross; lia].
        destruct (decide (i = j')) as [->|Hne'']; [done|].
        apply (Less_ntrans less less_ntrans d (S j') j' i); [lia|done|].
        apply Hpre; lia. }
    destruct (IH (sort.Swap d (S j') j')) as [Hsorted Hsame].
    + lia.
    + by rewrite Swap_length.
    + intros i k Hi Hik Hk. rewrite Less_Swap by lia.
      transpose_cases. apply Hpre; lia.
    + intros i k Hi Hik Hk. rewrite Less_Swap by lia.
      transpose_cases; [apply Hcross; lia|apply Hsuf; lia].
    + intros i k Hi Hk. rewrite Less_Swap by lia.
      transpose_cases; [apply Hpre; lia|apply Hcross; lia].
    + intros k Hk. rewrite Less_Swap by lia.
      transpose_cases; [by apply (Less_asym less less_asym)|apply Hmin; lia].
    + split; [done|].
      eapply sameOutside_trans; [|exact Hsame].
      apply sameOutside_Swap; lia.
Qed.

Lemma insertionOuter_sorted (n a i : nat) (d : list A) :
  (a <= i)%nat -> (i + n <= length d)%nat -> sortedSeg less d a i ->
  sortedSeg less (sort.insertionOuter less n a i d) a (i + n)
  /\ sameOutside a (i + n) d (sort.insertionOuter less n a i d).
Proof.
  revert i d. induction n as [|n IH]; intros i d Hi Hlen Hsorted;
    cbn [sort.insertionOuter].
  - rewrite Nat.add_0_r. split; [done|apply sameOutside_refl].
  - assert (sortedSeg less (sort.insertionInner less a i d) a (S i)
            /\ sameOutside a (S i) d (sort.insertionInner less a i d)) as [H1 H2].
    { apply insertionInner_sorted; [lia|lia|done| | |].
      - apply sortedSeg_short. lia.
      - intros ? ? ? ?. lia.
      - intros ? ?. lia. }
    destruct (IH (S i) (sort.insertionInner less a i d)) as [H3 H4].
    + lia.
    + destruct H2 as [-> _]. lia.
    + done.
    + replace (i + S n)%nat with (S i + n)%nat by lia. split; [done|].
      eapply sameOutside_trans; [|exact H4].
      eapply sameOutside_weaken; [| |exact H2]; lia.
Qed.

(** [insertionSort_func] sorts the range it is given and leaves the rest. *)
Lemma insertionSort_sorted (d : list A) (a b : nat) :
  (b <= length d)%nat ->
  sortedSeg less (sort.insertionSort_func less d a b) a b
  /\ sameOutside a b d (sort.insertionSort_func less d a b).
Proof.
  intros Hb. unfold sort.insertionSort_func.
  destruct (decide (a < b)%nat) as [Hab|Hab].
  - destruct (insertionOuter_sorted (b - (a + 1)) a (a + 1) d) as [H1 H2];
      [lia|lia|apply sortedSeg_short; lia|].
    by replace (a + 1 + (b - (a + 1)))%nat with b in * by lia.
  - replace (b - (a + 1))%nat with 0%nat by lia. cbn.
    split; [apply sortedSeg_short; lia|apply sameOutside_refl].
Qed.

End InsertionSorted.


Section PartitionSorted.

Context {A : Type}.
Variable less : A -> A -> bool.

Hypothesis less_asym : forall x y, less x y = true -> less y x = false.
Hypothesis less_ntrans :
  forall x y z, less x y = false -> less y z = false -> less x z = false.

(** *** [partition_func] *)

Lemma scanUpLess_spec (fuel : nat) (d : list A) (a i j : nat) :
  (S j - i <= fuel)%nat ->
  let i' := sort.scanUpLess less fuel d a i j in
  (i <= i' <= Nat.max i (S j))%nat
  /\ (forall k, (i <= k < i')%nat -> sort.Less less d k a = true)
  /\ ((i' <= j)%nat -> sort.Less less d i' a = false).
Proof.
  revert i. induction fuel as [|fuel IH]; intros i Hfuel; cbn [sort.scanUpLess].
  - cbn zeta. split; [lia|]. split; [intros; lia|intros; lia].
  - destruct (Nat.leb_spec i j) as [Hij|Hij]; cbn [andb].
    2:{ cbn zeta. split; [lia|]. split; [intros; lia|intros; lia]. }
    destruct (sort.Less less d i a) eqn:Hless.
    2:{ cbn zeta. split; [lia|]. split; [intros; lia|done]. }
    destruct (IH (S i)) as (H1 & H2 & H3); [lia|]. cbn zeta in *.
    split; [lia|]. split; [|done].
    intros k Hk. destruct (decide (k = i)) as [->|]; [done|apply H2; lia].
Qed.

Lemma scanDownNotLess_spec (fuel : nat) (d : list A) (a i j : nat) :
  (S j - i <= fuel)%nat -> (1 <= i)%nat ->
  let j' := sort.scanDownNotLess less fuel d a i j in
  (Nat.min j (i - 1) <= j' <= j)%nat
  /\ (forall k, (j' < k <= j)%nat -> sort.Less less d k a = false)
  /\ ((i <= j')%nat -> sort.Less less d j' a = true).
Proof.
  revert j. induction fuel as [|fuel IH]; intros j Hfuel Hi;
    cbn [sort.scanDownNotLess].
  - cbn zeta. split; [lia|]. split; [intros; lia|intros; lia].
  - destruct (Nat.leb_spec i j) as [Hij|Hij]; cbn [andb].
    2:{ cbn zeta. split; [lia|]. split; [intros; lia|intros; lia]. }
    destruct (sort.Less less d j a) eqn:Hless; cbn [negb].
    { cbn zeta. split; [lia|]. split; [intros; lia|done]. }
    destruct (IH (j - 1)%nat) as (H1 & H2 & H3); [lia|lia|]. cbn zeta in *.
    split; [lia|]. split; [|done].
    intros k Hk. destruct (decide (k = j)) as [->|]; [done|apply H2; lia].
Qed.

Lemma partitionLoop_spec (fuel : nat) (d : list A) (a b i j : nat) :
  (S j - i <= fuel)%nat -> (a < i)%nat -> (i <= S j)%nat -> (j < b)%nat ->
  (b <= length d)%nat ->
  (forall k, (a < k < i)%nat -> sort.Less less d k a = true) ->
  (forall k, (j < k < b)%nat -> sort.Less less d k a = false) ->
  let '(d', j') := sort.partitionLoop less fuel d a i j in
  sameOutside (S a) b d d'
  /\ (a <= j' < b)%nat
  /\ (forall k, (a < k <= j')%nat -> sort.Less less d' k a = true)
  /\ (forall k, (j' < k < b)%nat -> sort.Less less d' k a = false).
Proof.
  revert d i j. induction fuel as [|fuel IH];
    intros d i j Hfuel Hai Hij Hjb Hb Hlow Hhigh; cbn [sort.partitionLoop].
  - split; [apply sameOutside_refl|]. split; [lia|].
    split; [intros; apply Hlow; lia|done].
  - pose proof (scanUpLess_spec (S j - i) d a i j ltac:(lia)) as (Hi1 & Hi2 & Hi3).
    cbn zeta in *. set (i1 := sort.scanUpLess less (S j - i) d a i j) in *.
    pose proof (scanDownNotLess_spec (S j - i1) d a i1 j ltac:(lia) ltac:(lia))
      as (Hj1 & Hj2 & Hj3).
    cbn zeta in *. set (j1 := sort.scanDownNotLess less (S j - i1) d a i1 j) in *.
    destruct (Nat.ltb_spec j1 i1) as [Hlt|Hge].
    + split; [apply sameOutside_refl|]. split; [lia|]. split.
      * intros k Hk. destruct (decide (k < i)%nat); [apply Hlow; lia|apply Hi2; lia].
      * intros k Hk. destruct (decide (j < k)%nat); [apply Hhigh; lia|apply Hj2; lia].
    + assert (i1 <> j1) as Hne.
      { intros E. rewrite E in Hi3. rewrite Hi3 in Hj3 by lia.
        assert (false = true) by (apply Hj3; lia). done. }
      specialize (IH (sort.Swap d i1 j1) (S i1) (j1 - 1)%nat).
      destruct (sort.partitionLoop less fuel (sort.Swap d i1 j1) a (S i1) (j1 - 1))
        as [d' j'].
      destruct IH as (Hs & Hr & Hl & Hh); try lia.
      * rewrite Swap_length. lia.
      * intros k Hk. rewrite Less_Swap by lia. transpose_cases.
        -- apply Hj3. lia.
        -- destruct (decide (k < i)%nat); [apply Hlow; lia|apply Hi2; lia].
      * intros k Hk. rewrite Less_Swap by lia. transpose_cases.
        -- apply Hi3. lia.
        -- destruct (decide (j < k)%nat); [apply Hhigh; lia|apply Hj2; lia].
      * split; [|done].
        eapply sameOutside_trans; [|exact Hs]. apply sameOutside_Swap; lia.
Qed.

(** [partition_func] puts the pivot at [mid], the elements less than it
    before and the others after it. *)
Lemma partition_spec (d : list A) (a b pivot : nat) :
  (a <= pivot < b)%nat -> (b <= length d)%nat ->
  let '(d', mid, _) := sort.partition_func less d a b pivot in
  sameOutside a b d d'
  /\ (a <= mid < b)%nat
  /\ (forall k, (a <= k < mid)%nat -> sort.Less less d' k mid = true)
  /\ (forall k, (mid < k < b)%nat -> sort.Less less d' k mid = false).
Proof.
  intros Hp Hb. unfold sort.partition_func.
  set (d0 := sort.Swap d a pivot).
  assert (sameOutside a b d d0) as Hs0 by (apply sameOutside_Swap; lia).
  assert (length d0 = length d) as Hl0 by apply Swap_length.
  pose proof (scanUpLess_spec (S (b - 1) - (a + 1)) d0 a (a + 1) (b - 1)
                ltac:(lia)) as (Hi1 & Hi2 & Hi3).
  cbn zeta in *.
  set (i1 := sort.scanUpLess less (S (b - 1) - (a + 1)) d0 a (a + 1) (b - 1)) in *.
  pose proof (scanDownNotLess_spec (S (b - 1) - i1) d0 a i1 (b - 1)
                ltac:(lia) ltac:(lia)) as (Hj1 & Hj2 & Hj3).
  cbn zeta in *.
  set (j1 := sort.scanDownNotLess less (S (b - 1) - i1) d0 a i1 (b - 1)) in *.
  assert (forall (d1 : list A) (j : nat),
             sameOutside (S a) b d0 d1 -> (a <= j < b)%nat ->
             (forall k, (a < k <= j)%nat -> sort.Less less d1 k a = true) ->
             (forall k, (j < k < b)%nat -> sort.Less less d1 k a = false) ->
             sameOutside a b d (sort.Swap d1 j a)
             /\ (a <= j < b)%nat
             /\ (forall k, (a <= k < j)%nat ->
                   sort.Less less (sort.Swap d1 j a) k j = true)
             /\ (forall k, (j < k < b)%nat ->
                   sort.Less less (sort.Swap d1 j a) k j = false)) as Hfinal.
  { intros d1 j Hs1 Hj Hlow Hhigh.
    assert (length d1 = length d) as Hl1 by (destruct Hs1; congruence).
    split.
    { eapply sameOutside_trans; [exact Hs0|].
      eapply sameOutside_trans;
        [eapply sameOutside_weaken; [| |exact Hs1]; lia|].
      apply sameOutside_Swap; lia. }
    split; [lia|]. split.
    - intros k Hk. rewrite Less_Swap by lia. transpose_cases; apply Hlow; lia.
    - intros k Hk. rewrite Less_Swap by lia. transpose_cases; apply Hhigh; lia. }
  destruct (Nat.ltb_spec j1 i1) as [Hlt|Hge].
  - apply Hfinal; [apply sameOutside_refl|lia| |].
    + intros k Hk. apply Hi2. lia.
    + intros k Hk. apply Hj2. lia.
  - assert (i1 <> j1) as Hne.
    { intros E. rewrite E in Hi3. rewrite Hi3 in Hj3 by lia.
      assert (false = true) by (apply Hj3; lia). done. }
    pose proof (partitionLoop_spec (S j1 - i1) (sort.Swap d0 i1 j1) a b (S i1)
                  (j1 - 1)) as Hloop.
    destruct (sort.partitionLoop less (S j1 - i1) (sort.Swap d0 i1 j1) a (S i1)
                (j1 - 1)) as [d2 j2].
    destruct Hloop as (Hs & Hr & Hl & Hh); try lia.
    + rewrite Swap_length. lia.
    + intros k Hk. rewrite Less_Swap by lia. transpose_cases.
      * apply Hj3. lia.
      * apply Hi2. lia.
    + intros k Hk. rewrite Less_Swap by lia. transpose_cases.
      * apply Hi3. lia.
      * apply Hj2. lia.
    + apply Hfinal; [|lia|done|done].
      eapply sameOutside_trans; [|exact Hs]. apply sameOutside_Swap; lia.
Qed.

(** *** [partitionEqual_func] *)

Lemma scanUpNotLess_spec (fuel : nat) (d : list A) (a i j : nat) :
  (S j - i <= fuel)%nat ->
  let i' := sort.scanUpNotLess less fuel d a i j in
  (i <= i' <= Nat.max i (S j))%nat
  /\ (forall k, (i <= k < i')%nat -> sort.Less less d a k = false)
  /\ ((i' <= j)%nat -> sort.Less less d a i' = true).
Proof.
  revert i. induction fuel as [|fuel IH]; intros i Hfuel;
    cbn [sort.scanUpNotLess].
  - cbn zeta. split; [lia|]. split; [intros; lia|intros; lia].
  - destruct (Nat.leb_spec i j) as [Hij|Hij]; cbn [andb].
    2:{ cbn zeta. split; [lia|]. split; [intros; lia|intros; lia]. }
    destruct (sort.Less less d a i) eqn:Hless; cbn [negb].
    { cbn zeta. split; [lia|]. split; [intros; lia|done]. }
    destruct (IH (S i)) as (H1 & H2 & H3); [lia|]. cbn zeta in *.
    split; [lia|]. split; [|done].
    intros k Hk. destruct (decide (k = i)) as [->|]; [done|apply H2; lia].
Qed.

Lemma scanDownLess_spec (fuel : nat) (d : list A) (a i j : nat) :
  (S j - i <= fuel)%nat -> (1 <= i)%nat ->
  let j' := sort.scanDownLess less fuel d a i j in
  (Nat.min j (i - 1) <= j' <= j)%nat
  /\ (forall k, (j' < k <= j)%nat -> sort.Less less d a k = true)
  /\ ((i <= j')%nat -> sort.Less less d a j' = false).
Proof.
  revert j. induction fuel as [|fuel IH]; intros j Hfuel Hi;
    cbn [sort.scanDownLess].
  - cbn zeta. split; [lia|]. split; [intros; lia|intros; lia].
  - destruct (Nat.leb_spec i j) as [Hij|Hij]; cbn [andb].
    2:{ cbn zeta. split; [lia|]. split; [intros; lia|intros; lia]. }
    destruct (sort.Less less d a j) eqn:Hless.
    2:{ cbn zeta. split; [lia|]. split; [intros; lia|done]. }
    destruct (IH (j - 1)%nat) as (H1 & H2 & H3); [lia|lia|]. cbn zeta in *.
    split; [lia|]. split; [|done].
    intros k Hk. destruct (decide (k = j)) as [->|]; [done|apply H2; lia].
Qed.

Lemma partitionEqualLoop_spec (fuel : nat) (d : list A) (a b i j : nat) :
  (S j - i <= fuel)%nat -> (a < i)%nat -> (i <= S j)%nat -> (j < b)%nat ->
  (b <= length d)%nat ->
  (forall k, (a < k < i)%nat -> sort.Less less d a k = false) ->
  (forall k, (j < k < b)%nat -> sort.Less less d a k = true) ->
  let '(d', mid) := sort.partitionEqualLoop less fuel d a i j in
  sameOutside (S a) b d d'
  /\ (a < mid <= b)%nat
  /\ (forall k, (a < k < mid)%nat -> sort.Less less d' a k = false)
  /\ (forall k, (mid <= k < b)%nat -> sort.Less less d' a k = true).
Proof.
  revert d i j. induction fuel as [|fuel IH];
    intros d i j Hfuel Hai Hij Hjb Hb Hlow Hhigh; cbn [sort.partitionEqualLoop].
  - split; [apply sameOutside_refl|]. split; [lia|].
    split; [done|intros; apply Hhigh; lia].
  - pose proof (scanUpNotLess_spec (S j - i) d a i j ltac:(lia))
      as (Hi1 & Hi2 & Hi3).
    cbn zeta in *. set (i1 := sort.scanUpNotLess less (S j - i) d a i j) in *.
    pose proof (scanDownLess_spec (S j - i1) d a i1 j ltac:(lia) ltac:(lia))
      as (Hj1 & Hj2 & Hj3).
    cbn zeta in *. set (j1 := sort.scanDownLess less (S j - i1) d a i1 j) in *.
    destruct (Nat.ltb_spec j1 i1) as [Hlt|Hge].
    + split; [apply sameOutside_refl|]. split; [lia|]. split.
      * intros k Hk. destruct (decide (k < i)%nat); [apply Hlow; lia|apply Hi2; lia].
      * intros k Hk. destruct (decide (j < k)%nat); [apply Hhigh; lia|apply Hj2; lia].
    + assert (i1 <> j1) as Hne.
      { intros E. rewrite E in Hi3. rewrite Hi3 in Hj3 by lia.
        assert (true = false) by (apply Hj3; lia). done. }
      specialize (IH (sort.Swap d i1 j1) (S i1) (j1 - 1)%nat).
      destruct (sort.partitionEqualLoop less fuel (sort.Swap d i1 j1) a (S i1)
                  (j1 - 1)) as [d' mid].
      destruct IH as (Hs & Hr & Hl & Hh); try lia.
      * rewrite Swap_length. lia.
      * intros k Hk. rewrite Less_Swap by lia. transpose_cases.
        -- apply Hj3. lia.
        -- destruct (decide (k < i)%nat); [apply Hlow; lia|apply Hi2; lia].
      * intros k Hk. rewrite Less_Swap by lia. transpose_cases.
        -- apply Hi3. lia.
        -- destruct (decide (j < k)%nat); [apply Hhigh; lia|apply Hj2; lia].
      * split; [|done].
        eapply sameOutside_trans; [|exact Hs]. apply sameOutside_Swap; lia.
Qed.

(** [partitionEqual_func] puts the pivot at [a], the elements it is not
    less than before [mid] and the others from [mid] on. *)
Lemma partitionEqual_spec (d : list A) (a b pivot : nat) :
  (a <= pivot < b)%nat -> (b <= length d)%nat ->
  let '(d', mid) := sort.partitionEqual_func less d a b pivot in
  sameOutside a b d d'
  /\ d' !! a = d !! pivot
  /\ (a < mid <= b)%nat
  /\ (forall k, (a <= k < mid)%nat -> sort.Less less d' a k = false)
  /\ (forall k, (mid <= k < b)%nat -> sort.Less less d' a k = true).
Proof.
  intros Hp Hb. unfold sort.partitionEqual_func.
  set (d0 := sort.Swap d a pivot).
  assert (sameOutside a b d d0) as Hs0 by (apply sameOutside_Swap; lia).
  assert (length d0 = length d) as Hl0 by apply Swap_length.
  pose proof (partitionEqualLoop_spec (b - a) d0 a b (a + 1) (b - 1)) as Hloop.
  destruct (sort.partitionEqualLoop less (b - a) d0 a (a + 1) (b - 1))
    as [d' mid].
  destruct Hloop as (Hs & Hr & Hl & Hh); try lia.
  split.
  { eapply sameOutside_trans; [exact Hs0|].
    eapply sameOutside_weaken; [| |exact Hs]; lia. }
  split.
  { destruct Hs as [_ Hs]. rewrite Hs by lia. subst d0.
    rewrite Swap_lookup_transpose by lia. transpose_cases; done. }
  split; [lia|]. split; [|done].
  intros k Hk. destruct (decide (k = a)) as [->|];
    [apply (Less_irrefl less less_asym)|apply Hl; lia].
Qed.

End PartitionSorted.


Section FrameSorted.

Context {A : Type}.
Variable less : A -> A -> bool.
Variable xorshift_Next : Z -> Z.

(** *** [breakPatterns_func] and [reverseRange_func] stay in their range *)

Lemma nextPowerOfTwo_bounds (length : nat) :
  (0 < length)%nat ->
  0 < sort.nextPowerOfTwo length <= 2 * Z.of_nat length
  /\ exists k, 0 <= k /\ sort.nextPowerOfTwo length = 2 ^ k.
Proof.
  intros Hl. unfold sort.nextPowerOfTwo, bits.Len.
  destruct (Z.leb_spec (Z.of_nat length) 0); [lia|].
  rewrite Z.shiftl_1_l.
  pose proof (Z.log2_nonneg (Z.of_nat length)) as Hnn.
  pose proof (Z.log2_spec (Z.of_nat length) ltac:(lia)) as [Hlo Hhi].
  rewrite Z.pow_add_r by lia. change (2 ^ 1) with 2.
  split; [|exists (Z.log2 (Z.of_nat length) + 1); split; [lia|]].
  - split; [|lia]. assert (0 < 2 ^ Z.log2 (Z.of_nat length)) by (apply Z.pow_pos_nonneg; lia). lia.
  - rewrite Z.pow_add_r by lia. done.
Qed.

Lemma breakPatterns_other (length : nat) (random : Z) :
  (0 < length)%nat ->
  let other := Z.to_nat (Z.land random (sort.nextPowerOfTwo length - 1)) in
  ((if (length <=? other)%nat then (other - length)%nat else other) < length)%nat.
Proof.
  intros Hl other.
  destruct (nextPowerOfTwo_bounds length Hl) as [Hb (k & Hk & E)].
  assert (0 <= Z.land random (sort.nextPowerOfTwo length - 1)
          < sort.nextPowerOfTwo length) as Hland.
  { rewrite E. replace (2 ^ k - 1) with (Z.ones k)
      by (rewrite Z.ones_equiv; lia).
    rewrite Z.land_ones by lia. apply Z.mod_pos_bound.
    apply Z.pow_pos_nonneg; lia. }
  destruct (Nat.leb_spec length other); lia.
Qed.

Lemma breakPatternsLoop_outside (n : nat) (d : list A) (a b idx : nat)
    (random : Z) (i : nat) :
  (0 < b - a)%nat -> (a <= idx - 1)%nat -> (idx - 1 + i + n <= b)%nat ->
  sameOutside a b d
    (sort.breakPatternsLoop xorshift_Next n d a (b - a) idx
       (sort.nextPowerOfTwo (b - a)) random i).
Proof.
  revert d random i. induction n as [|n IH]; intros d random i Hl Hidx Hi;
    cbn [sort.breakPatternsLoop]; [apply sameOutside_refl|].
  eapply sameOutside_trans; [|apply IH; lia].
  pose proof (breakPatterns_other (b - a) (xorshift_Next random) Hl) as Ho.
  cbn zeta in Ho. apply sameOutside_Swap; lia.
Qed.

Lemma breakPatterns_outside (d : list A) (a b : nat) :
  sameOutside a b d (sort.breakPatterns_func xorshift_Next d a b).
Proof.
  unfold sort.breakPatterns_func.
  destruct (Nat.leb_spec 8 (b - a)) as [Hl|]; [|apply sameOutside_refl].
  assert (2 <= (b - a) / 4)%nat as H4
    by (apply (Nat.div_le_lower_bound (b - a) 4 2); lia).
  assert (4 * ((b - a) / 4) <= b - a)%nat as H5
    by (apply Nat.Div0.mul_div_le).
  apply breakPatternsLoop_outside; lia.
Qed.

Lemma reverseLoop_outside (fuel : nat) (d : list A) (a b i j : nat) :
  (a <= i)%nat -> (j < b)%nat ->
  sameOutside a b d (sort.reverseLoop fuel d i j).
Proof.
  revert d i j. induction fuel as [|fuel IH]; intros d i j Hi Hj;
    cbn [sort.reverseLoop]; [apply sameOutside_refl|].
  destruct (Nat.ltb_spec i j); [|apply sameOutside_refl].
  eapply sameOutside_trans; [|apply IH; lia].
  apply sameOutside_Swap; lia.
Qed.

Lemma reverseRange_outside (d : list A) (a b : nat) :
  sameOutside a b d (sort.reverseRange_func d a b).
Proof.
  unfold sort.reverseRange_func.
  destruct (decide (a < b)%nat).
  - apply reverseLoop_outside; lia.
  - replace (b - a)%nat with 0%nat by lia. apply sameOutside_refl.
Qed.

(** *** [choosePivot_func] chooses in the range *)

Lemma order2_cases (d : list A) (a b swaps : nat) :
  exists s, sort.order2_func less d a b swaps = (a, b, s)
            \/ sort.order2_func less d a b swaps = (b, a, s).
Proof.
  unfold sort.order2_func. destruct (sort.Less less d b a); eauto.
Qed.

Lemma median_cases (d : list A) (a b c swaps : nat) :
  (sort.median_func less d a b c swaps).1 = a
  \/ (sort.median_func less d a b c swaps).1 = b
  \/ (sort.median_func less d a b c swaps).1 = c.
Proof.
  unfold sort.median_func.
  destruct (order2_cases d a b swaps) as [s1 [-> | ->]];
    [destruct (order2_cases d b c s1) as [s2 [-> | ->]]
    |destruct (order2_cases d a c s1) as [s2 [-> | ->]]];
    match goal with
    | |- context [sort.order2_func less d ?x ?y ?s] =>
      destruct (order2_cases d x y s) as [s3 [-> | ->]]
    end; cbn [fst]; auto.
Qed.

Lemma choosePivot_range (d : list A) (a b : nat) :
  (a < b)%nat -> (a <= (sort.choosePivot_func less d a b).1 < b)%nat.
Proof.
  intros Hab. unfold sort.choosePivot_func, sort.medianAdjacent_func,
    sort.shortestNinther. cbn zeta.
  assert (4 * ((b - a) / 4) <= b - a < 4 * ((b - a) / 4) + 4)%nat as H4.
  { pose proof (Nat.div_mod_eq (b - a) 4).
    pose proof (Nat.mod_upper_bound (b - a) 4). lia. }
  set (q := ((b - a) / 4)%nat) in *. clearbody q.
  destruct (Nat.leb_spec 8 (b - a)) as [H8|H8].
  - destruct (Nat.leb_spec 50 (b - a)) as [H50|H50];
      repeat match goal with
      | |- context [sort.median_func less d ?x ?y ?z ?s] =>
        let H := fresh "Hm" in
        pose proof (median_cases d x y z s) as H;
        destruct (sort.median_func less d x y z s) as [? ?];
        cbn [fst] in H; cbn beta iota
      end;
      repeat match goal with |- context [if ?c then _ else _] => destruct c end;
      cbn [fst];
      repeat match goal with H : _ \/ _ |- _ => destruct H end; lia.
  - repeat match goal with |- context [if ?c then _ else _] => destruct c end;
      cbn [fst]; lia.
Qed.

End FrameSorted.


Section PartialInsertionSorted.

Context {A : Type}.
Variable less : A -> A -> bool.

Hypothesis less_asym : forall x y, less x y = true -> less y x = false.
Hypothesis less_ntrans :
  forall x y z, less x y = false -> less y z = false -> less x z = false.

Lemma Less_source (d d' : list A) (i j i' j' : nat) :
  d' !! i = d !! i' -> d' !! j = d !! j' ->
  sort.Less less d' i j = sort.Less less d i' j'.
Proof. unfold sort.Less. by intros -> ->. Qed.

(** A permutation inside the range keeps the bound. *)
Lemma lowerBound_preserved (d d' : list A) (a b : nat) :
  d' ≡ₚ d -> sameOutside a b d d' -> (b <= length d)%nat ->
  lowerBound less d a b -> lowerBound less d' a b.
Proof.
  intros Hperm Hsame Hb Hlow Ha k Hk.
  destruct (sameOutside_source a b d d' k Hperm Hsame Hk Hb) as (k' & Hk' & E).
  rewrite (Less_source d d' k (a - 1) k' (a - 1) E).
  - by apply Hlow.
  - destruct Hsame as [_ Hout]. apply Hout. lia.
Qed.

Lemma lowerBound_sub (d : list A) (a b a' b' : nat) :
  (a' = a)%nat -> (b' <= b)%nat -> lowerBound less d a b -> lowerBound less d a' b'.
Proof. intros -> Hb H Ha k Hk. apply H; lia. Qed.

Lemma skipSorted_spec (fuel : nat) (d : list A) (i b : nat) :
  (b - i <= fuel)%nat ->
  let i' := sort.skipSorted less fuel d i b in
  (i <= i' <= Nat.max i b)%nat
  /\ (forall k, (i <= k < i')%nat -> sort.Less less d k (k - 1) = false)
  /\ ((i' < b)%nat -> sort.Less less d i' (i' - 1) = true).
Proof.
  revert i. induction fuel as [|fuel IH]; intros i Hfuel; cbn [sort.skipSorted].
  - cbn zeta. split; [lia|]. split; intros; lia.
  - destruct (Nat.ltb_spec i b) as [Hib|Hib]; cbn [andb].
    2:{ cbn zeta. split; [lia|]. split; intros; lia. }
    destruct (sort.Less less d i (i - 1)) eqn:Hless; cbn [negb].
    { cbn zeta. split; [lia|]. split; [intros; lia|done]. }
    destruct (IH (S i)) as (H1 & H2 & H3); [lia|]. cbn zeta in *.
    split; [lia|]. split; [|done].
    intros k Hk. destruct (decide (k = i)) as [->|]; [done|apply H2; lia].
Qed.

Lemma shiftLeft_sorted (a j hi : nat) (d : list A) :
  (a <= j <= hi)%nat -> (hi < length d)%nat ->
  sortedSeg less d a j -> sortedSeg less d (S j) (S hi) ->
  (forall i k, (a <= i < j)%nat -> (j < k <= hi)%nat ->
     sort.Less less d k i = false) ->
  (forall k, (j < k <= hi)%nat -> sort.Less less d k j = false) ->
  ((0 < a)%nat -> sort.Less less d j (a - 1) = false) ->
  sortedSeg less (sort.shiftLeft less j d) a (S hi)
  /\ sameOutside a (S hi) d (sort.shiftLeft less j d).
Proof.
  revert d. induction j as [|j' IH];
    intros d Hj Hhi Hpre Hsuf Hcross Hmin Hlow; cbn [sort.shiftLeft].
  - split; [|apply sameOutside_refl].
    intros i k Hi Hik Hk. destruct (decide (i = 0%nat)) as [->|Hne].
    + apply Hmin. lia.
    + apply Hsuf; lia.
  - destruct (sort.Less less d (S j') j') eqn:Hless; cbn [negb].
    2:{ split; [|apply sameOutside_refl].
        intros i k Hi Hik Hk.
        destruct (decide (k < S j')%nat); [apply Hpre; lia|].
        destruct (decide (S j' < i)%nat); [apply Hsuf; lia|].
        destruct (decide (i = S j')) as [->|Hne]; [apply Hmin; lia|].
        destruct (decide (k = S j')) as [->|Hne']; [|apply Hcross; lia].
        destruct (decide (i = j')) as [->|Hne'']; [done|].
        apply (Less_ntrans less less_ntrans d (S j') j' i); [lia|done|].
        apply Hpre; lia. }
    destruct (decide (a = S j')) as [->|Hne].
    { rewrite Nat.sub_1_r in Hlow. cbn [Nat.pred] in Hlow.
      rewrite Hlow in Hless by lia. done. }
    destruct (IH (sort.Swap d (S j') j')) as [Hsorted Hsame].
    + lia.
    + by rewrite Swap_length.
    + intros i k Hi Hik Hk. rewrite Less_Swap by lia.
      transpose_cases. apply Hpre; lia.
    + intros i k Hi Hik Hk. rewrite Less_Swap by lia.
      transpose_cases; [apply Hcross; lia|apply Hsuf; lia].
    + intros i k Hi Hk. rewrite Less_Swap by lia.
      transpose_cases; [apply Hpre; lia|apply Hcross; lia].
    + intros k Hk. rewrite Less_Swap by lia.
      transpose_cases; [by apply (Less_asym less less_asym)|apply Hmin; lia].
    + intros Ha. rewrite Less_Swap by lia. transpose_cases. by apply Hlow.
    + split; [done|].
      eapply sameOutside_trans; [|exact Hsame].
      apply sameOutside_Swap; lia.
Qed.

Lemma shiftRight_outside (fuel : nat) (d : list A) (lo j b : nat) :
  (lo < j)%nat ->
  sameOutside lo b d (sort.shiftRight less fuel d j b).
Proof.
  revert d j. induction fuel as [|fuel IH]; intros d j Hj;
    cbn [sort.shiftRight]; [apply sameOutside_refl|].
  destruct (Nat.ltb_spec j b); [|apply sameOutside_refl].
  destruct (negb _); [apply sameOutside_refl|].
  eapply sameOutside_trans; [|apply IH; lia].
  apply sameOutside_Swap; lia.
Qed.

Lemma sortedSeg_outside (d d' : list A) (a b lo hi : nat) :
  sameOutside lo hi d d' -> (b <= lo \/ hi <= a)%nat ->
  sortedSeg less d a b -> sortedSeg less d' a b.
Proof.
  intros Hsame Hb Hsorted i j Hi Hij Hj.
  rewrite (sameOutside_Less less lo hi d d') by (done || lia).
  by apply Hsorted.
Qed.

Lemma sortedSeg_extend (d : list A) (a i i' : nat) :
  (a < i)%nat -> (i' <= length d)%nat ->
  sortedSeg less d a i ->
  (forall k, (i <= k < i')%nat -> sort.Less less d k (k - 1) = false) ->
  sortedSeg less d a i'.
Proof.
  intros Hai Hlen Hsorted Hadj.
  apply (sortedSeg_adjacent less less_ntrans); [done|].
  intros k Hk Hk'. destruct (decide (S k < i)%nat).
  - apply Hsorted; lia.
  - specialize (Hadj (S k) ltac:(lia)). by rewrite Nat.sub_1_r in Hadj.
Qed.

Lemma partialInsertionLoop_spec (steps : nat) (d : list A) (a b i : nat) :
  (a < i <= b)%nat -> (b <= length d)%nat ->
  sortedSeg less d a i -> lowerBound less d a b ->
  let '(d', sorted) := sort.partialInsertionLoop less steps d a b i in
  sameOutside a b d d' /\ (sorted = true -> sortedSeg less d' a b).
Proof.
  revert d i. induction steps as [|steps IH]; intros d i Hi Hb Hsorted Hlow;
    cbn [sort.partialInsertionLoop].
  { split; [apply sameOutside_refl|done]. }
  pose proof (skipSorted_spec (b - i) d i b ltac:(lia)) as (Hi1 & Hi2 & Hi3).
  cbn zeta in *. set (i1 := sort.skipSorted less (b - i) d i b) in *.
  assert (sortedSeg less d a i1) as Hsorted1
    by (apply (sortedSeg_extend d a i i1); [lia|lia|done|done]).
  destruct (Nat.eqb_spec i1 b) as [E|Hne].
  { split; [apply sameOutside_refl|]. intros _. by rewrite <- E. }
  destruct (Nat.ltb_spec (b - a) sort.shortestShifting).
  { split; [apply sameOutside_refl|done]. }
  specialize (Hi3 ltac:(lia)).
  set (d1 := sort.Swap d i1 (i1 - 1)).
  set (d2 := if (2 <=? i1 - a)%nat then sort.shiftLeft less (i1 - 1) d1 else d1).
  set (d3 := if (2 <=? b - i1)%nat
             then sort.shiftRight less (b - (i1 + 1)) d2 (i1 + 1) b else d2).
  assert (length d1 = length d) as Hl1 by apply Swap_length.
  assert (sameOutside a b d d1) as Hs1 by (apply sameOutside_Swap; lia).
  assert (d1 ≡ₚ d) as Hp1 by apply Swap_Permutation.
  assert (lowerBound less d1 a b) as Hlow1
    by (by apply (lowerBound_preserved d d1)).
  assert (sortedSeg less d2 a i1 /\ sameOutside a i1 d1 d2 /\ d2 ≡ₚ d1)
    as (Hsorted2 & Hs2 & Hp2).
  { subst d2. destruct (Nat.leb_spec 2 (i1 - a)) as [H2|H2].
    - destruct (shiftLeft_sorted a (i1 - 1) (i1 - 1) d1) as [H3 H4].
      + lia.
      + lia.
      + intros p q Hp Hpq Hq. subst d1. rewrite Less_Swap by lia.
        transpose_cases. apply Hsorted1; lia.
      + apply sortedSeg_short. lia.
      + intros; lia.
      + intros; lia.
      + intros Ha. apply Hlow1; [done|lia].
      + replace (S (i1 - 1)) with i1 in * by lia.
        split; [done|]. split; [done|]. apply shiftLeft_Permutation.
    - split; [apply sortedSeg_short; lia|]. split; [apply sameOutside_refl|done]. }
  assert (length d2 = length d) as Hl2 by (destruct Hs2; congruence).
  assert (sameOutside i1 b d2 d3 /\ d3 ≡ₚ d2) as (Hs3 & Hp3).
  { subst d3. destruct (Nat.leb_spec 2 (b - i1)).
    - split; [apply shiftRight_outside; lia|apply shiftRight_Permutation].
    - split; [apply sameOutside_refl|done]. }
  assert (sameOutside a b d d3) as Hsame.
  { eapply sameOutside_trans; [exact Hs1|].
    eapply sameOutside_trans.
    - eapply sameOutside_weaken; [| |exact Hs2]; lia.
    - eapply sameOutside_weaken; [| |exact Hs3]; lia. }
  specialize (IH d3 i1).
  destruct (sort.partialInsertionLoop less steps d3 a b i1) as [d' sorted].
  destruct IH as [H5 H6].
  - lia.
  - destruct Hsame as [-> _]. done.
  - apply (sortedSeg_outside d2 d3 a i1 i1 b); [done|lia|done].
  - apply (lowerBound_preserved d d3); [|done|done|done].
    by rewrite Hp3, Hp2, Hp1.
  - split; [|done]. by eapply sameOutside_trans.
Qed.

(** [partialInsertionSort_func] stays in its range, and when it says so
    the range is in order. *)
Lemma partialInsertionSort_spec (d : list A) (a b : nat) :
  (a < b)%nat -> (b <= length d)%nat -> lowerBound less d a b ->
  let '(d', sorted) := sort.partialInsertionSort_func less d a b in
  sameOutside a b d d' /\ (sorted = true -> sortedSeg less d' a b).
Proof.
  intros Hab Hb Hlow. unfold sort.partialInsertionSort_func.
  apply partialInsertionLoop_spec; [lia|done|apply sortedSeg_short; lia|done].
Qed.

End PartialInsertionSorted.


Section HeapSorted.

Context {A : Type}.
Variable less : A -> A -> bool.

Hypothesis less_asym : forall x y, less x y = true -> less y x = false.
Hypothesis less_ntrans :
  forall x y z, less x y = false -> less y z = false -> less x z = false.

Lemma siftDown_loop_spec (fuel : nat) (d : list A) (root hi first lo : nat) :
  (first + hi <= length d)%nat -> (lo <= root)%nat -> (hi <= fuel + root)%nat ->
  (forall p, (lo <= p)%nat -> p <> root -> heapAt less d first hi p) ->
  (forall q c, (lo <= q)%nat -> (root = 2 * q + 1 \/ root = 2 * q + 2)%nat ->
     (c = 2 * root + 1 \/ c = 2 * root + 2)%nat -> (c < hi)%nat ->
     sort.Less less d (first + q) (first + c) = false) ->
  heapFrom less (sort.siftDown_loop less fuel d root hi first) first lo hi
  /\ sameOutside (first + root) (first + hi) d
       (sort.siftDown_loop less fuel d root hi first).
Proof.
  revert d root. induction fuel as [|fuel IH];
    intros d root Hlen Hlo Hfuel Hheap Hgrand; cbn [sort.siftDown_loop].
  { split; [|apply sameOutside_refl]. intros p Hp.
    destruct (decide (p = root)) as [->|Hne]; [|by apply Hheap].
    intros c Hc Hhi. lia. }
  cbn zeta. destruct (Nat.leb_spec hi (2 * root + 1)) as [Hleaf|Hchild].
  { split; [|apply sameOutside_refl]. intros p Hp.
    destruct (decide (p = root)) as [->|Hne]; [|by apply Hheap].
    intros c Hc Hhi. lia. }
  set (child := if ((2 * root + 1 + 1 <? hi)%nat
                    && sort.Less less d (first + (2 * root + 1))
                         (first + (2 * root + 1) + 1))
                then (2 * root + 1 + 1)%nat else (2 * root + 1)%nat).
  assert ((child = 2 * root + 1 \/ child = 2 * root + 2)%nat
          /\ (child < hi)%nat
          /\ forall o, (o = 2 * root + 1 \/ o = 2 * root + 2)%nat -> (o < hi)%nat ->
               sort.Less less d (first + child) (first + o) = false)
    as (Hchild1 & Hchild2 & Hother).
  { subst child. destruct (Nat.ltb_spec (2 * root + 1 + 1) hi) as [H2|H2];
      cbn [andb].
    - destruct (sort.Less less d (first + (2 * root + 1))
                  (first + (2 * root + 1) + 1)) eqn:Hless.
      + split; [lia|]. split; [lia|]. intros o [->| ->] Ho.
        * apply (Less_asym less less_asym).
          by replace (first + (2 * root + 1 + 1))%nat
            with (first + (2 * root + 1) + 1)%nat by lia.
        * replace (2 * root + 1 + 1)%nat with (2 * root + 2)%nat by lia.
          apply (Less_irrefl less less_asym).
      + split; [lia|]. split; [lia|]. intros o [->| ->] Ho.
        * apply (Less_irrefl less less_asym).
        * by replace (first + (2 * root + 2))%nat
            with (first + (2 * root + 1) + 1)%nat by lia.
    - split; [lia|]. split; [lia|]. intros o [->| ->] Ho; [|lia].
      apply (Less_irrefl less less_asym). }
  clearbody child.
  destruct (sort.Less less d (first + root) (first + child)) eqn:Hless;
    cbn [negb].
  2:{ split; [|apply sameOutside_refl]. intros p Hp.
      destruct (decide (p = root)) as [->|Hne]; [|by apply Hheap].
      intros c Hc Hhi.
      apply (Less_ntrans less less_ntrans d (first + root) (first + child)
               (first + c)); [lia|done|by apply Hother]. }
  destruct (IH (sort.Swap d (first + root) (first + child)) child)
    as [Hres Hsame].
  - rewrite Swap_length. lia.
  - lia.
  - lia.
  - intros p Hp Hne c Hc Hhi. rewrite Less_Swap by lia.
    destruct (decide (p = root)) as [->|Hne'].
    + transpose_cases.
      * by apply (Less_asym less less_asym).
      * by apply Hother.
    + transpose_cases.
      * apply (Hgrand p); [done|lia| |lia]. lia.
      * apply Hheap; [done|done|lia|done].
  - intros q c Hq Hroot Hc Hhi. rewrite Less_Swap by lia.
    transpose_cases. apply (Hheap child); [lia|lia|done|done].
  - split; [done|].
    eapply sameOutside_trans.
    + apply (sameOutside_Swap (first + root) (first + hi) (first + root)
               (first + child)); lia.
    + eapply sameOutside_weaken; [| |exact Hsame]; lia.
Qed.

Lemma heapBuild_spec (n : nat) (d : list A) (hi first : nat) :
  (first + hi <= length d)%nat ->
  heapFrom less d first n hi ->
  heapFrom less (sort.heapBuild less n d hi first) first 0 hi
  /\ sameOutside first (first + hi) d (sort.heapBuild less n d hi first).
Proof.
  revert d. induction n as [|i IH]; intros d Hlen Hheap; cbn [sort.heapBuild].
  { split; [done|apply sameOutside_refl]. }
  unfold sort.siftDown_func.
  destruct (siftDown_loop_spec hi d i hi first i) as [H1 H2];
    [lia|lia|lia| | |].
  - intros p Hp Hne. apply Hheap. lia.
  - intros q c Hq Hroot. lia.
  - destruct (IH (sort.siftDown_loop less hi d i hi first)) as [H3 H4].
    + destruct H2 as [-> _]. done.
    + done.
    + split; [done|]. eapply sameOutside_trans; [|exact H4].
      eapply sameOutside_weaken; [| |exact H2]; lia.
Qed.

(** The root of a heap is not less than any element of the heap. *)
Lemma heap_root (d : list A) (first hi : nat) (c : nat) :
  (first + hi <= length d)%nat -> heapFrom less d first 0 hi -> (c < hi)%nat ->
  sort.Less less d (first + 0) (first + c) = false.
Proof.
  intros Hlen Hheap. induction c as [c IH] using lt_wf_ind. intros Hc.
  destruct c as [|c']; [apply (Less_irrefl less less_asym)|].
  assert (exists p, (S c' = 2 * p + 1 \/ S c' = 2 * p + 2)%nat) as [p Hp].
  { exists (c' / 2)%nat. pose proof (Nat.div_mod_eq c' 2).
    pose proof (Nat.mod_upper_bound c' 2). lia. }
  apply (Less_ntrans less less_ntrans d (first + 0) (first + p) (first + S c'));
    [lia|apply IH; lia|].
  apply (Hheap p); [lia|done|done].
Qed.

Lemma heapPop_spec (n : nat) (d : list A) (first hi : nat) :
  (n <= hi)%nat -> (first + hi <= length d)%nat ->
  heapFrom less d first 0 n ->
  sortedSeg less d (first + n) (first + hi) ->
  (forall p q, (p < n)%nat -> (n <= q < hi)%nat ->
     sort.Less less d (first + q) (first + p) = false) ->
  sortedSeg less (sort.heapPop less n d first) first (first + hi)
  /\ sameOutside first (first + hi) d (sort.heapPop less n d first).
Proof.
  revert d. induction n as [|i IH]; intros d Hn Hlen Hheap Hsorted Hcross;
    cbn [sort.heapPop].
  { rewrite Nat.add_0_r in Hsorted. split; [done|apply sameOutside_refl]. }
  unfold sort.siftDown_func.
  set (d1 := sort.Swap d first (first + i)).
  assert (length d1 = length d) as Hl1 by apply Swap_length.
  destruct (siftDown_loop_spec i d1 0 i first 0) as [H1 H2];
    [lia|lia|lia| | |].
  { intros p Hp Hne c Hc Hhi. subst d1. rewrite Less_Swap by lia.
    transpose_cases. apply (Hheap p); [lia|done|lia]. }
  { intros q c Hq Hroot. lia. }
  set (d2 := sort.siftDown_loop less i d1 0 i first) in *.
  assert (d2 ≡ₚ d1) as Hp2 by apply siftDown_loop_Permutation.
  assert (length d2 = length d) as Hl2 by (destruct H2; congruence).
  rewrite Nat.add_0_r in H2.
  assert (forall C, (first <= C < first + S i)%nat ->
            sort.Less less d first C = false) as Hroot.
  { intros C HC. replace C with (first + (C - first))%nat by lia.
    replace first with (first + 0)%nat at 1 by lia.
    apply (heap_root d first (S i)); [lia|done|lia]. }
  assert (forall P Q, (first <= P < first + S i)%nat ->
            (first + S i <= Q < first + hi)%nat ->
            sort.Less less d Q P = false) as Hcross'.
  { intros P Q HP HQ. replace P with (first + (P - first))%nat by lia.
    replace Q with (first + (Q - first))%nat by lia. apply Hcross; lia. }
  destruct (IH d2) as [H3 H4].
  - lia.
  - lia.
  - done.
  - intros p q Hp Hpq Hq.
    rewrite (sameOutside_Less less first (first + i) d1 d2) by (done || lia).
    subst d1. rewrite Less_Swap by lia.
    transpose_cases; (apply Hcross'; lia) || (apply Hsorted; lia).
  - intros p q Hp Hq.
    destruct (sameOutside_source first (first + i) d1 d2 (first + p))
      as (p' & Hp' & E); [done|done|lia|lia|].
    rewrite (Less_source less d1 d2 (first + q) (first + p) (first + q) p');
      [| |done].
    2:{ destruct H2 as [_ H2]. apply H2. lia. }
    subst d1. rewrite Less_Swap by lia.
    transpose_cases; (apply Hroot; lia) || (apply Hcross'; lia).
  - split; [done|].
    eapply sameOutside_trans;
      [apply (sameOutside_Swap first (first + hi) first (first + i)); lia|].
    eapply sameOutside_trans; [|exact H4].
    eapply sameOutside_weaken; [| |exact H2]; lia.
Qed.

(** [heapSort_func] sorts the range it is given and leaves the rest. *)
Lemma heapSort_sorted (d : list A) (a b : nat) :
  (a <= b)%nat -> (b <= length d)%nat ->
  sortedSeg less (sort.heapSort_func less d a b) a b
  /\ sameOutside a b d (sort.heapSort_func less d a b).
Proof.
  intros Hab Hb. unfold sort.heapSort_func. cbn zeta.
  destruct (heapBuild_spec ((b - a - 1) / 2 + 1) d (b - a) a) as [H1 H2].
  - lia.
  - intros p Hp c Hc Hhi.
    pose proof (Nat.div_mod_eq (b - a - 1) 2).
    pose proof (Nat.mod_upper_bound (b - a - 1) 2). lia.
  - set (d1 := sort.heapBuild less ((b - a - 1) / 2 + 1) d (b - a) a) in *.
    destruct (heapPop_spec (b - a) d1 a (b - a)) as [H3 H4].
    + lia.
    + destruct H2 as [-> _]. lia.
    + done.
    + apply sortedSeg_short. lia.
    + intros; lia.
    + replace (a + (b - a))%nat with b in * by lia.
      split; [done|]. by eapply sameOutside_trans.
Qed.

End HeapSorted.


Section LoopSorted.

Context {A : Type}.
Variable less : A -> A -> bool.
Variable xorshift_Next : Z -> Z.

Hypothesis less_asym : forall x y, less x y = true -> less y x = false.
Hypothesis less_ntrans :
  forall x y z, less x y = false -> less y z = false -> less x z = false.

Lemma segSource_trans (a b : nat) (d1 d2 d3 : list A) :
  segSource a b d1 d2 -> segSource a b d2 d3 -> segSource a b d1 d3.
Proof.
  intros H1 H2 k Hk. destruct (H2 k Hk) as (k' & Hk' & E).
  destruct (H1 k' Hk') as (k'' & Hk'' & E'). exists k''. split; [done|congruence].
Qed.

Lemma segSource_perm (a b : nat) (d d' : list A) :
  d' ≡ₚ d -> sameOutside a b d d' -> (b <= length d)%nat -> segSource a b d d'.
Proof. intros Hp Hs Hb k Hk. by apply sameOutside_source. Qed.

Lemma segSource_outside (a b lo hi : nat) (d d' : list A) :
  sameOutside lo hi d d' -> (b <= lo \/ hi <= a)%nat -> segSource a b d d'.
Proof.
  intros [_ Hs] Hd k Hk. exists k. split; [done|]. apply Hs. lia.
Qed.

(** The two sorted parts around the pivot make a sorted range. *)
Lemma partition_combine (d4 d6 : list A) (a mid b : nat) :
  (a <= mid < b)%nat -> (b <= length d4)%nat -> length d6 = length d4 ->
  (forall k, (a <= k < mid)%nat -> sort.Less less d4 k mid = true) ->
  (forall k, (mid < k < b)%nat -> sort.Less less d4 k mid = false) ->
  d6 !! mid = d4 !! mid ->
  segSource a mid d4 d6 -> segSource (mid + 1) b d4 d6 ->
  sortedSeg less d6 a mid -> sortedSeg less d6 (mid + 1) b ->
  sortedSeg less d6 a b.
Proof.
  intros Hmid Hb Hlen Hlow Hhigh Hm Hsrc1 Hsrc2 Hs1 Hs2 i j Hi Hij Hj.
  destruct (decide (j < mid)%nat); [apply Hs1; lia|].
  destruct (decide (mid < i)%nat); [apply Hs2; lia|].
  destruct (decide (i = mid)) as [->|Hi'].
  { destruct (Hsrc2 j ltac:(lia)) as (j' & Hj' & Ej).
    rewrite (Less_source less d4 d6 j mid j' mid Ej Hm). apply Hhigh. lia. }
  destruct (Hsrc1 i ltac:(lia)) as (i' & Hi'' & Ei).
  destruct (decide (j = mid)) as [->|Hj''].
  { rewrite (Less_source less d4 d6 mid i mid i' Hm Ei).
    apply (Less_asym less less_asym). apply Hlow. lia. }
  destruct (Hsrc2 j ltac:(lia)) as (j' & Hj' & Ej).
  rewrite (Less_source less d4 d6 j i j' i' Ej Ei).
  destruct (sort.Less less d4 j' i') eqn:Hless; [|done].
  pose proof (Less_trans less less_asym less_ntrans d4 j' i' mid Hless
                (Hlow i' ltac:(lia))) as Ht.
  rewrite Hhigh in Ht by lia. done.
Qed.

Lemma pdqsort_loop_sorted (fuel : nat) (d : list A) (a b limit : nat)
    (wasBalanced wasPartitioned : bool) :
  (b - a < fuel)%nat -> (a <= b)%nat -> (b <= length d)%nat ->
  lowerBound less d a b ->
  sortedSeg less
    (sort.pdqsort_loop less xorshift_Next fuel d a b limit
       wasBalanced wasPartitioned) a b
  /\ sameOutside a b d
       (sort.pdqsort_loop less xorshift_Next fuel d a b limit
          wasBalanced wasPartitioned).
Proof.
  revert d a b limit wasBalanced wasPartitioned.
  induction fuel as [|fuel IH];
    intros d a b limit wasBalanced wasPartitioned Hfuel Hab Hb Hlow; [lia|].
  cbn [sort.pdqsort_loop]. cbn zeta.
  destruct (Nat.leb_spec (b - a) sort.maxInsertion) as [Hshort|Hlong];
    [by apply insertionSort_sorted|].
  unfold sort.maxInsertion in Hlong.
  destruct (limit =? 0)%nat; [by apply heapSort_sorted|].
  set (s1 := if negb wasBalanced
             then (sort.breakPatterns_func xorshift_Next d a b, (limit - 1)%nat)
             else (d, limit)).
  assert (sameOutside a b d s1.1 /\ s1.1 ≡ₚ d) as [Hs1 Hp1].
  { subst s1. destruct (negb wasBalanced); cbn [fst].
    - split; [apply breakPatterns_outside|apply breakPatterns_Permutation].
    - split; [apply sameOutside_refl|done]. }
  destruct s1 as [d1 limit1]. cbn [fst] in Hs1, Hp1.
  pose proof (choosePivot_range less d1 a b ltac:(lia)) as Hpivot.
  destruct (sort.choosePivot_func less d1 a b) as [pivot hint].
  cbn [fst] in Hpivot.
  set (s2 := match hint with
             | sort.decreasingHint =>
               (sort.reverseRange_func d1 a b, (b - 1 - (pivot - a))%nat,
                sort.increasingHint)
             | _ => (d1, pivot, hint)
             end).
  assert (sameOutside a b d1 s2.1.1 /\ s2.1.1 ≡ₚ d1 /\ (a <= s2.1.2 < b)%nat)
    as (Hs2 & Hp2 & Hpivot2).
  { subst s2. destruct hint; cbn [fst snd];
      try (split; [apply sameOutside_refl|split; [done|lia]]).
    split; [apply reverseRange_outside|].
    split; [apply reverseRange_Permutation|lia]. }
  destruct s2 as [[d2 pivot2] hint2]. cbn [fst snd] in Hs2, Hp2, Hpivot2.
  assert (sameOutside a b d d2) as Hs02 by (by eapply sameOutside_trans).
  assert (d2 ≡ₚ d) as Hp02 by (by rewrite Hp2).
  assert (length d2 = length d) as Hl2 by (by destruct Hs02).
  assert (lowerBound less d2 a b) as Hlow2
    by (by apply (lowerBound_preserved less d d2)).
  set (s3 := match hint2 with
             | sort.increasingHint =>
               if wasBalanced && wasPartitioned
               then sort.partialInsertionSort_func less d2 a b
               else (d2, false)
             | _ => (d2, false)
             end).
  assert (sameOutside a b d2 s3.1 /\ s3.1 ≡ₚ d2
          /\ (s3.2 = true -> sortedSeg less s3.1 a b)) as (Hs3 & Hp3 & Hsorted3).
  { subst s3.
    assert (sameOutside a b d2 (d2, false).1 /\ (d2, false).1 ≡ₚ d2
            /\ ((d2, false).2 = true -> sortedSeg less (d2, false).1 a b)) as Hid
      by (split; [apply sameOutside_refl|split; [done|done]]).
    destruct hint2; try exact Hid.
    destruct (wasBalanced && wasPartitioned); [|exact Hid].
    pose proof (partialInsertionSort_spec less less_asym less_ntrans d2 a b
                  ltac:(lia) ltac:(lia) Hlow2) as Hpi.
    pose proof (partialInsertionSort_Permutation less d2 a b) as Hpp.
    destruct (sort.partialInsertionSort_func less d2 a b) as [d3 sorted].
    cbn [fst snd] in *. destruct Hpi. done. }
  destruct s3 as [d3 sorted]. cbn [fst snd] in Hs3, Hp3, Hsorted3.
  assert (sameOutside a b d d3) as Hs03 by (by eapply sameOutside_trans).
  assert (d3 ≡ₚ d) as Hp03 by (by rewrite Hp3).
  assert (length d3 = length d) as Hl3 by (by destruct Hs03).
  assert (lowerBound less d3 a b) as Hlow3
    by (by apply (lowerBound_preserved less d d3)).
  destruct sorted; [by split; [apply Hsorted3|]|].
  destruct ((0 <? a)%nat && negb (sort.Less less d3 (a - 1) pivot2)) eqn:Hequal.
  - (* the pivot is not greater than the element before the range *)
    apply andb_true_iff in Hequal as [Ha%Nat.ltb_lt Hle%negb_true_iff].
    pose proof (partitionEqual_spec less less_asym d3 a b pivot2
                  Hpivot2 ltac:(lia)) as Hpe.
    pose proof (partitionEqual_Permutation less d3 a b pivot2) as Hpp.
    destruct (sort.partitionEqual_func less d3 a b pivot2) as [d4 mid].
    cbn [fst] in Hpp. destruct Hpe as (Hs4 & Ha4 & Hmid & Hleft & Hright).
    assert (sameOutside a b d d4) as Hs04 by (by eapply sameOutside_trans).
    assert (d4 ≡ₚ d) as Hp04 by (by rewrite Hpp).
    assert (length d4 = length d) as Hl4 by (by destruct Hs04).
    assert (lowerBound less d4 a b) as Hlow4
      by (by apply (lowerBound_preserved less d d4)).
    assert (sort.Less less d4 (a - 1) a = false) as Hprev.
    { rewrite (Less_source less d3 d4 (a - 1) a (a - 1) pivot2); [done| |done].
      destruct Hs4 as [_ Hs4]. apply Hs4. lia. }
    destruct (IH d4 mid b limit1 wasBalanced wasPartitioned) as [Hsorted5 Hs5];
      [lia|lia|lia| |].
    { intros _ k Hk. replace (mid - 1)%nat with (mid - 1)%nat by lia.
      destruct (sort.Less less d4 k (mid - 1)) eqn:Hless; [|done].
      pose proof (Less_lt_le less less_ntrans d4 k (mid - 1) a ltac:(lia) Hless
                    (Hleft (mid - 1)%nat ltac:(lia))) as Hka.
      apply (Less_asym less less_asym) in Hka. rewrite Hright in Hka by lia.
      done. }
    set (d5 := sort.pdqsort_loop less xorshift_Next fuel d4 mid b limit1
                 wasBalanced wasPartitioned) in *.
    assert (d5 ≡ₚ d4) as Hp5 by apply pdqsort_loop_Permutation.
    split.
    2:{ eapply sameOutside_trans; [exact Hs04|].
        eapply sameOutside_weaken; [| |exact Hs5]; lia. }
    intros i j Hi Hij Hj.
    destruct (decide (mid <= i)%nat); [apply Hsorted5; lia|].
    assert (d5 !! i = d4 !! i) as Ei by (destruct Hs5 as [_ Hs5]; apply Hs5; lia).
    destruct (decide (j < mid)%nat) as [Hjm|Hjm].
    + assert (d5 !! j = d4 !! j) as Ej
        by (destruct Hs5 as [_ Hs5]; apply Hs5; lia).
      rewrite (Less_source less d4 d5 j i j i Ej Ei).
      apply (Less_ntrans less less_ntrans d4 j a i); [lia| |apply Hleft; lia].
      apply (Less_ntrans less less_ntrans d4 j (a - 1) a); [lia| |done].
      apply Hlow4; [done|lia].
    + destruct (sameOutside_source mid b d4 d5 j Hp5 Hs5 ltac:(lia) ltac:(lia))
        as (j' & Hj' & Ej).
      rewrite (Less_source less d4 d5 j i j' i Ej Ei).
      destruct (sort.Less less d4 j' i) eqn:Hless; [|done].
      pose proof (Less_lt_le less less_ntrans d4 j' i a ltac:(lia) Hless
                    (Hleft i ltac:(lia))) as Hja.
      apply (Less_asym less less_asym) in Hja. rewrite Hright in Hja by lia.
      done.
  - (* the ordinary partition *)
    clear Hequal.
    pose proof (partition_spec less d3 a b pivot2
                  Hpivot2 ltac:(lia)) as Hpa.
    pose proof (partition_Permutation less d3 a b pivot2) as Hpp.
    destruct (sort.partition_func less d3 a b pivot2) as [[d4 mid] ap].
    cbn [fst] in Hpp. destruct Hpa as (Hs4 & Hmid & Hleft & Hright).
    assert (sameOutside a b d d4) as Hs04 by (by eapply sameOutside_trans).
    assert (d4 ≡ₚ d) as Hp04 by (by rewrite Hpp).
    assert (length d4 = length d) as Hl4 by (by destruct Hs04).
    assert (lowerBound less d4 a b) as Hlow4
      by (by apply (lowerBound_preserved less d d4)).
    assert (lowerBound less d4 (mid + 1) b) as Hlow4'.
    { intros _ k Hk. replace (mid + 1 - 1)%nat with mid by lia.
      apply Hright. lia. }
    destruct (Nat.ltb_spec (mid - a) (b - mid)) as [Hleftfirst|Hrightfirst].
    + destruct (IH d4 a mid limit1 true true) as [Hsorted5 Hs5];
        [lia|lia|lia|apply (lowerBound_sub less d4 a b); [done|lia|done]|].
      set (d5 := sort.pdqsort_loop less xorshift_Next fuel d4 a mid limit1
                   true true) in *.
      assert (d5 ≡ₚ d4) as Hp5 by apply pdqsort_loop_Permutation.
      assert (length d5 = length d) as Hl5 by (destruct Hs5; congruence).
      destruct (IH d5 (mid + 1)%nat b limit1 ((b - a) / 8 <=? mid - a)%nat ap)
        as [Hsorted6 Hs6]; [lia|lia|lia| |].
      { intros _ k Hk. replace (mid + 1 - 1)%nat with mid by lia.
        rewrite (sameOutside_Less less a mid d4 d5) by (done || lia).
        apply Hright. lia. }
      set (d6 := sort.pdqsort_loop less xorshift_Next fuel d5 (mid + 1) b
                   limit1 _ ap) in *.
      assert (d6 ≡ₚ d5) as Hp6 by apply pdqsort_loop_Permutation.
      split.
      2:{ eapply sameOutside_trans; [exact Hs04|].
          eapply sameOutside_trans.
          - eapply sameOutside_weaken; [| |exact Hs5]; lia.
          - eapply sameOutside_weaken; [| |exact Hs6]; lia. }
      apply (partition_combine d4 d6 a mid b); try done; try lia.
      * destruct Hs6; lia.
      * destruct Hs6 as [_ Hs6]. rewrite Hs6 by lia.
        destruct Hs5 as [_ Hs5]. apply Hs5. lia.
      * apply (segSource_trans a mid d4 d5 d6).
        -- apply segSource_perm; [done|done|lia].
        -- apply (segSource_outside a mid (mid + 1) b); [done|lia].
      * apply (segSource_trans (mid + 1) b d4 d5 d6).
        -- apply (segSource_outside (mid + 1) b a mid); [done|lia].
        -- apply segSource_perm; [done|done|lia].
      * apply (sortedSeg_outside less d5 d6 a mid (mid + 1) b); [done|lia|done].
    + destruct (IH d4 (mid + 1)%nat b limit1 true true) as [Hsorted5 Hs5];
        [lia|lia|lia|done|].
      set (d5 := sort.pdqsort_loop less xorshift_Next fuel d4 (mid + 1) b limit1
                   true true) in *.
      assert (d5 ≡ₚ d4) as Hp5 by apply pdqsort_loop_Permutation.
      assert (length d5 = length d) as Hl5 by (destruct Hs5; congruence).
      destruct (IH d5 a mid limit1 ((b - a) / 8 <=? b - mid)%nat ap)
        as [Hsorted6 Hs6]; [lia|lia|lia| |].
      { intros Ha k Hk.
        rewrite (sameOutside_Less less (mid + 1) b d4 d5) by (done || lia).
        apply Hlow4; [done|lia]. }
      set (d6 := sort.pdqsort_loop less xorshift_Next fuel d5 a mid
                   limit1 _ ap) in *.
      assert (d6 ≡ₚ d5) as Hp6 by apply pdqsort_loop_Permutation.
      split.
      2:{ eapply sameOutside_trans; [exact Hs04|].
          eapply sameOutside_trans.
          - eapply sameOutside_weaken; [| |exact Hs5]; lia.
          - eapply sameOutside_weaken; [| |exact Hs6]; lia. }
      apply (partition_combine d4 d6 a mid b); try done; try lia.
      * destruct Hs6; lia.
      * destruct Hs6 as [_ Hs6]. rewrite Hs6 by lia.
        destruct Hs5 as [_ Hs5]. apply Hs5. lia.
      * apply (segSource_trans a mid d4 d5 d6).
        -- apply (segSource_outside a mid (mid + 1) b); [done|lia].
        -- apply segSource_perm; [done|done|lia].
      * apply (segSource_trans (mid + 1) b d4 d5 d6).
        -- apply segSource_perm; [done|done|lia].
        -- apply (segSource_outside (mid + 1) b a mid); [done|lia].
      * apply (sortedSeg_outside less d5 d6 (mid + 1) b a mid); [done|lia|done].
Qed.

(** [sort.Slice] puts the slice in order: no element is less than one
    before it. *)
Lemma Slice_sorted (x : list A) :
  sortedSeg less (sort.Slice less xorshift_Next x) 0 (length x).
Proof.
  unfold sort.Slice, sort.pdqsort_func.
  apply pdqsort_loop_sorted; [lia|lia|lia|]. intros Ha. lia.
Qed.

End LoopSorted.


(** ** [sort.Slice] sees the elements through [less] only *)

Section SliceMap.

Context {A B : Type}.
Variable g : B -> A.
Variable less : A -> A -> bool.
Variable less' : B -> B -> bool.
Variable xorshift_Next : Z -> Z.

Hypothesis less_g : forall x y, less' x y = less (g x) (g y).

Lemma Less_map (d : list B) (i j : nat) :
  sort.Less less (g <$> d) i j = sort.Less less' d i j.
Proof.
  unfold sort.Less. rewrite !list_lookup_fmap.
  destruct (d !! i), (d !! j); cbn; auto.
Qed.

Lemma Swap_map (d : list B) (i j : nat) :
  sort.Swap (g <$> d) i j = g <$> sort.Swap d i j.
Proof.
  unfold sort.Swap. rewrite !list_lookup_fmap.
  destruct (d !! i), (d !! j); cbn; auto. by rewrite !list_fmap_insert.
Qed.

Lemma insertionInner_map (a j : nat) (d : list B) :
  sort.insertionInner less a j (g <$> d) = g <$> sort.insertionInner less' a j d.
Proof.
  revert d. induction j as [|j IH]; intros d; cbn [sort.insertionInner]; [done|].
  rewrite Less_map, Swap_map, IH. by destruct (_ && _).
Qed.

Lemma insertionOuter_map (n a i : nat) (d : list B) :
  sort.insertionOuter less n a i (g <$> d)
  = g <$> sort.insertionOuter less' n a i d.
Proof.
  revert i d. induction n as [|n IH]; intros i d; cbn [sort.insertionOuter];
    [done|].
  by rewrite insertionInner_map, IH.
Qed.

Lemma insertionSort_map (d : list B) (a b : nat) :
  sort.insertionSort_func less (g <$> d) a b
  = g <$> sort.insertionSort_func less' d a b.
Proof. apply insertionOuter_map. Qed.

Lemma siftDown_loop_map (fuel : nat) (d : list B) (root hi first : nat) :
  sort.siftDown_loop less fuel (g <$> d) root hi first
  = g <$> sort.siftDown_loop less' fuel d root hi first.
Proof.
  revert d root. induction fuel as [|fuel IH]; intros d root;
    cbn [sort.siftDown_loop]; [done|].
  cbn zeta. rewrite !Less_map, Swap_map, IH.
  destruct (_ <=? _)%nat; [done|]. by destruct (negb _).
Qed.

Lemma siftDown_map (d : list B) (lo hi first : nat) :
  sort.siftDown_func less (g <$> d) lo hi first
  = g <$> sort.siftDown_func less' d lo hi first.
Proof. apply siftDown_loop_map. Qed.

Lemma heapBuild_map (n : nat) (d : list B) (hi first : nat) :
  sort.heapBuild less n (g <$> d) hi first
  = g <$> sort.heapBuild less' n d hi first.
Proof.
  revert d. induction n as [|n IH]; intros d; cbn [sort.heapBuild]; [done|].
  by rewrite siftDown_map, IH.
Qed.

Lemma heapPop_map (n : nat) (d : list B) (first : nat) :
  sort.heapPop less n (g <$> d) first = g <$> sort.heapPop less' n d first.
Proof.
  revert d. induction n as [|n IH]; intros d; cbn [sort.heapPop]; [done|].
  by rewrite Swap_map, siftDown_map, IH.
Qed.

Lemma heapSort_map (d : list B) (a b : nat) :
  sort.heapSort_func less (g <$> d) a b = g <$> sort.heapSort_func less' d a b.
Proof.
  unfold sort.heapSort_func. cbn zeta. by rewrite heapBuild_map, heapPop_map.
Qed.

Lemma scanUpLess_map (fuel : nat) (d : list B) (a i j : nat) :
  sort.scanUpLess less fuel (g <$> d) a i j = sort.scanUpLess less' fuel d a i j.
Proof.
  revert i. induction fuel as [|fuel IH]; intros i; cbn [sort.scanUpLess];
    [done|].
  by rewrite Less_map, IH.
Qed.

Lemma scanDownNotLess_map (fuel : nat) (d : list B) (a i j : nat) :
  sort.scanDownNotLess less fuel (g <$> d) a i j
  = sort.scanDownNotLess less' fuel d a i j.
Proof.
  revert j. induction fuel as [|fuel IH]; intros j; cbn [sort.scanDownNotLess];
    [done|].
  by rewrite Less_map, IH.
Qed.

Lemma partitionLoop_map (fuel : nat) (d : list B) (a i j : nat) :
  sort.partitionLoop less fuel (g <$> d) a i j
  = prod_map (fmap g) id (sort.partitionLoop less' fuel d a i j).
Proof.
  revert d i j. induction fuel as [|fuel IH]; intros d i j;
    cbn [sort.partitionLoop]; [done|].
  cbn zeta. rewrite !scanUpLess_map, !scanDownNotLess_map, Swap_map, IH.
  by destruct (_ <? _)%nat.
Qed.

Lemma partition_map (d : list B) (a b pivot : nat) :
  sort.partition_func less (g <$> d) a b pivot
  = prod_map (prod_map (fmap g) id) id (sort.partition_func less' d a b pivot).
Proof.
  unfold sort.partition_func. cbn zeta.
  repeat progress
    rewrite ?Swap_map, ?scanUpLess_map, ?scanDownNotLess_map, ?partitionLoop_map.
  destruct (_ <? _)%nat; [done|].
  destruct (sort.partitionLoop less' _ _ _ _ _) as [d2 j2]. cbn.
  by rewrite Swap_map.
Qed.

Lemma scanUpNotLess_map (fuel : nat) (d : list B) (a i j : nat) :
  sort.scanUpNotLess less fuel (g <$> d) a i j
  = sort.scanUpNotLess less' fuel d a i j.
Proof.
  revert i. induction fuel as [|fuel IH]; intros i; cbn [sort.scanUpNotLess];
    [done|].
  by rewrite Less_map, IH.
Qed.

Lemma scanDownLess_map (fuel : nat) (d : list B) (a i j : nat) :
  sort.scanDownLess less fuel (g <$> d) a i j
  = sort.scanDownLess less' fuel d a i j.
Proof.
  revert j. induction fuel as [|fuel IH]; intros j; cbn [sort.scanDownLess];
    [done|].
  by rewrite Less_map, IH.
Qed.

Lemma partitionEqualLoop_map (fuel : nat) (d : list B) (a i j : nat) :
  sort.partitionEqualLoop less fuel (g <$> d) a i j
  = prod_map (fmap g) id (sort.partitionEqualLoop less' fuel d a i j).
Proof.
  revert d i j. induction fuel as [|fuel IH]; intros d i j;
    cbn [sort.partitionEqualLoop]; [done|].
  cbn zeta. rewrite !scanUpNotLess_map, !scanDownLess_map, Swap_map, IH.
  by destruct (_ <? _)%nat.
Qed.

Lemma partitionEqual_map (d : list B) (a b pivot : nat) :
  sort.partitionEqual_func less (g <$> d) a b pivot
  = prod_map (fmap g) id (sort.partitionEqual_func less' d a b pivot).
Proof.
  unfold sort.partitionEqual_func. cbn zeta.
  by rewrite Swap_map, partitionEqualLoop_map.
Qed.

Lemma skipSorted_map (fuel : nat) (d : list B) (i b : nat) :
  sort.skipSorted less fuel (g <$> d) i b = sort.skipSorted less' fuel d i b.
Proof.
  revert i. induction fuel as [|fuel IH]; intros i; cbn [sort.skipSorted];
    [done|].
  by rewrite Less_map, IH.
Qed.

Lemma shiftLeft_map (j : nat) (d : list B) :
  sort.shiftLeft less j (g <$> d) = g <$> sort.shiftLeft less' j d.
Proof.
  revert d. induction j as [|j IH]; intros d; cbn [sort.shiftLeft]; [done|].
  rewrite Less_map, Swap_map, IH. by destruct (negb _).
Qed.

Lemma shiftRight_map (fuel : nat) (d : list B) (j b : nat) :
  sort.shiftRight less fuel (g <$> d) j b
  = g <$> sort.shiftRight less' fuel d j b.
Proof.
  revert d j. induction fuel as [|fuel IH]; intros d j; cbn [sort.shiftRight];
    [done|].
  rewrite Less_map, Swap_map, IH.
  destruct (_ <? _)%nat; [|done]. by destruct (negb _).
Qed.

Lemma partialInsertionLoop_map (steps : nat) (d : list B) (a b i : nat) :
  sort.partialInsertionLoop less steps (g <$> d) a b i
  = prod_map (fmap g) id (sort.partialInsertionLoop less' steps d a b i).
Proof.
  revert d i. induction steps as [|steps IH]; intros d i;
    cbn [sort.partialInsertionLoop]; [done|].
  cbn zeta. rewrite !skipSorted_map.
  destruct (_ =? _)%nat; [done|]. destruct (_ <? _)%nat; [done|].
  rewrite Swap_map.
  destruct (2 <=? _ - a)%nat, (2 <=? b - _)%nat;
    rewrite ?shiftLeft_map, ?shiftRight_map; apply IH.
Qed.

Lemma partialInsertionSort_map (d : list B) (a b : nat) :
  sort.partialInsertionSort_func less (g <$> d) a b
  = prod_map (fmap g) id (sort.partialInsertionSort_func less' d a b).
Proof. apply partialInsertionLoop_map. Qed.

Lemma breakPatternsLoop_map (n : nat) (d : list B) (a length idx : nat)
    (modulus random : Z) (i : nat) :
  sort.breakPatternsLoop xorshift_Next n (g <$> d) a length idx modulus random i
  = g <$> sort.breakPatternsLoop xorshift_Next n d a length idx modulus random i.
Proof.
  revert d random i. induction n as [|n IH]; intros d random i;
    cbn [sort.breakPatternsLoop]; [done|].
  cbn zeta. by rewrite Swap_map, IH.
Qed.

Lemma breakPatterns_map (d : list B) (a b : nat) :
  sort.breakPatterns_func xorshift_Next (g <$> d) a b
  = g <$> sort.breakPatterns_func xorshift_Next d a b.
Proof.
  unfold sort.breakPatterns_func. cbn zeta.
  destruct (8 <=? _)%nat; [apply breakPatternsLoop_map|done].
Qed.

Lemma order2_map (d : list B) (a b swaps : nat) :
  sort.order2_func less (g <$> d) a b swaps = sort.order2_func less' d a b swaps.
Proof. unfold sort.order2_func. by rewrite Less_map. Qed.

Lemma median_map (d : list B) (a b c swaps : nat) :
  sort.median_func less (g <$> d) a b c swaps
  = sort.median_func less' d a b c swaps.
Proof.
  unfold sort.median_func. rewrite order2_map.
  destruct (sort.order2_func less' d a b swaps) as [[a1 b1] s1].
  rewrite order2_map. destruct (sort.order2_func less' d b1 c s1) as [[b2 c2] s2].
  by rewrite order2_map.
Qed.

Lemma choosePivot_map (d : list B) (a b : nat) :
  sort.choosePivot_func less (g <$> d) a b = sort.choosePivot_func less' d a b.
Proof.
  unfold sort.choosePivot_func, sort.medianAdjacent_func. cbn zeta.
  destruct (8 <=? _)%nat; [|done].
  destruct (sort.shortestNinther <=? _)%nat.
  - rewrite median_map. destruct (sort.median_func less' d _ _ _ _) as [i1 s1].
    rewrite median_map. destruct (sort.median_func less' d _ _ _ _) as [j1 s2].
    rewrite median_map. destruct (sort.median_func less' d _ _ _ _) as [k1 s3].
    by rewrite median_map.
  - by rewrite median_map.
Qed.

Lemma reverseLoop_map (fuel : nat) (d : list B) (i j : nat) :
  sort.reverseLoop fuel (g <$> d) i j = g <$> sort.reverseLoop fuel d i j.
Proof.
  revert d i j. induction fuel as [|fuel IH]; intros d i j;
    cbn [sort.reverseLoop]; [done|].
  rewrite Swap_map, IH. by destruct (_ <? _)%nat.
Qed.

Lemma reverseRange_map (d : list B) (a b : nat) :
  sort.reverseRange_func (g <$> d) a b = g <$> sort.reverseRange_func d a b.
Proof. apply reverseLoop_map. Qed.

Lemma pdqsort_loop_map (fuel : nat) (d : list B) (a b limit : nat)
    (wasBalanced wasPartitioned : bool) :
  sort.pdqsort_loop less xorshift_Next fuel (g <$> d) a b limit
    wasBalanced wasPartitioned
  = g <$> sort.pdqsort_loop less' xorshift_Next fuel d a b limit
            wasBalanced wasPartitioned.
Proof.
  revert d a b limit wasBalanced wasPartitioned.
  induction fuel as [|fuel IH];
    intros d a b limit wasBalanced wasPartitioned; [done|].
  cbn [sort.pdqsort_loop]. cbn zeta.
  destruct (_ <=? sort.maxInsertion)%nat; [apply insertionSort_map|].
  destruct (limit =? 0)%nat; [apply heapSort_map|].
  rewrite breakPatterns_map.
  set (s1 := if negb wasBalanced
             then (sort.breakPatterns_func xorshift_Next d a b, (limit - 1)%nat)
             else (d, limit)).
  replace (if negb wasBalanced
           then (g <$> sort.breakPatterns_func xorshift_Next d a b,
                 (limit - 1)%nat)
           else (g <$> d, limit))
    with (prod_map (fmap g) id s1) by (subst s1; by destruct (negb _)).
  destruct s1 as [d1 limit1]. cbn [prod_map fst snd id].
  rewrite choosePivot_map.
  destruct (sort.choosePivot_func less' d1 a b) as [pivot hint].
  rewrite reverseRange_map.
  set (s2 := match hint with
             | sort.decreasingHint =>
               (sort.reverseRange_func d1 a b, (b - 1 - (pivot - a))%nat,
                sort.increasingHint)
             | _ => (d1, pivot, hint)
             end).
  replace (match hint with
           | sort.decreasingHint =>
             (g <$> sort.reverseRange_func d1 a b, (b - 1 - (pivot - a))%nat,
              sort.increasingHint)
           | _ => (g <$> d1, pivot, hint)
           end)
    with (prod_map (prod_map (fmap g) id) id s2) by (subst s2; by destruct hint).
  destruct s2 as [[d2 pivot2] hint2]. cbn [prod_map fst snd id].
  rewrite partialInsertionSort_map.
  set (s3 := match hint2 with
             | sort.increasingHint =>
               if wasBalanced && wasPartitioned
               then sort.partialInsertionSort_func less' d2 a b
               else (d2, false)
             | _ => (d2, false)
             end).
  replace (match hint2 with
           | sort.increasingHint =>
             if wasBalanced && wasPartitioned
             then prod_map (fmap g) id
                    (sort.partialInsertionSort_func less' d2 a b)
             else (g <$> d2, false)
           | _ => (g <$> d2, false)
           end)
    with (prod_map (fmap g) id s3)
    by (subst s3; destruct hint2; try done; by destruct (_ && _)).
  destruct s3 as [d3 sorted]. cbn [prod_map fst snd id].
  destruct sorted; [done|].
  rewrite Less_map, partitionEqual_map, partition_map.
  destruct (_ && _).
  - destruct (sort.partitionEqual_func less' d3 a b pivot2) as [d4 mid].
    cbn [prod_map fst snd id]. apply IH.
  - destruct (sort.partition_func less' d3 a b pivot2) as [[d4 mid] ap].
    cbn [prod_map fst snd id]. destruct (_ <? _)%nat; by rewrite !IH.
Qed.

(** Sorting the images of the elements under [g] gives the images of the
    sorted elements, when [less'] is [less] on the images. *)
Lemma Slice_map (x : list B) :
  sort.Slice less xorshift_Next (g <$> x)
  = g <$> sort.Slice less' xorshift_Next x.
Proof.
  unfold sort.Slice, sort.pdqsort_func. cbn zeta. rewrite length_fmap.
  apply pdqsort_loop_map.
Qed.

End SliceMap.


(** ** [sortItemsByID] sorts, where its comparator is an ordering *)

Lemma sig_list {A : Type} (P : A -> Prop) (l : list A) :
  Forall P l -> exists l' : list (sig P), proj1_sig <$> l' = l.
Proof.
  induction 1 as [|x l Hx _ [l' IH]]; [by exists []|].
  exists (exist P x Hx :: l'). cbn. by rewrite IH.
Qed.

(** [sort.Slice] puts a slice in order when [less] is a strict weak
    ordering of its elements: asymmetric, and with a transitive "not
    less". *)
Lemma Slice_sorted_on {A : Type} (less : A -> A -> bool)
    (xorshift_Next : Z -> Z) (x : list A) :
  (forall u v, u ∈ x -> v ∈ x -> less u v = true -> less v u = false) ->
  (forall u v w, u ∈ x -> v ∈ x -> w ∈ x ->
     less u v = false -> less v w = false -> less u w = false) ->
  sortedSeg less (sort.Slice less xorshift_Next x) 0 (length x).
Proof.
  intros Hasym Hntrans.
  destruct (sig_list (fun u => u ∈ x) x) as [l' Hl'].
  { apply Forall_forall. auto. }
  set (less' := fun u v : {u : A | u ∈ x} => less (`u) (`v)).
  rewrite <- Hl'.
  rewrite (Slice_map proj1_sig less less' xorshift_Next) by done.
  rewrite length_fmap. intros i j Hi Hij Hj.
  rewrite (Less_map proj1_sig less less') by done.
  apply (Slice_sorted less' xorshift_Next); try done.
  - intros [u Hu] [v Hv]. apply Hasym; done.
  - intros [u Hu] [v Hv] [w Hw]. apply Hntrans; done.
Qed.

Lemma sortedSeg_lookup {A : Type} (less : A -> A -> bool) (d : list A)
    (i j : nat) (x y : A) :
  sortedSeg less d 0 (length d) -> (i < j)%nat ->
  d !! i = Some x -> d !! j = Some y -> less y x = false.
Proof.
  intros Hsorted Hij Hx Hy.
  rewrite <- (Less_Some less d j i y x Hy Hx).
  apply Hsorted; [lia|done|]. by apply lookup_lt_Some in Hy.
Qed.

Lemma lessByID_asym (x y : Item) : lessByID x y = true -> lessByID y x = false.
Proof.
  unfold lessByID.
  destruct (strconv.Atoi (ID x)) as [a|], (strconv.Atoi (ID y)) as [b|];
    try apply ltb_asym.
  intros H%Z.ltb_lt. apply Z.ltb_ge. lia.
Qed.

Lemma ltb_ntrans (s t u : string) :
  String.ltb s t = false -> String.ltb t u = false -> String.ltb s u = false.
Proof.
  revert t u. induction s as [|a s IH]; intros t u H1 H2.
  - destruct t as [|b t]; [exact H2|].
    destruct (ltb_bytewise b b t t) as (_ & E & _). rewrite E in H1. done.
  - destruct u as [|c u].
    + by destruct (ltb_bytewise a a s s) as (_ & _ & E & _).
    + destruct t as [|b t].
      * destruct (ltb_bytewise c c u u) as (_ & E & _). rewrite E in H2. done.
      * destruct (ltb_bytewise a b s t) as (_ & _ & _ & E1).
        destruct (ltb_bytewise b c t u) as (_ & _ & _ & E2).
        destruct (ltb_bytewise a c s u) as (_ & _ & _ & E3).
        rewrite E1 in H1. rewrite E2 in H2. rewrite E3.
        apply orb_false_iff in H1 as [H1 H1'], H2 as [H2 H2'].
        apply Z.ltb_ge in H1, H2.
        apply orb_false_iff. split; [apply Z.ltb_ge; lia|].
        destruct (Z.eqb_spec (byteZ a) (byteZ c)) as [E|]; [|done]. cbn [andb].
        destruct (Z.eqb_spec (byteZ a) (byteZ b)) as [|]; [|lia].
        destruct (Z.eqb_spec (byteZ b) (byteZ c)) as [|]; [|lia].
        cbn [andb] in *. by apply (IH t u).
Qed.

Section SorterSorted.

Variable xorshift_Next : Z -> Z.

Lemma sortItemsByID_sorted_on (items : list Item) :
  (forall x y z, x ∈ items -> y ∈ items -> z ∈ items ->
     lessByID x y = false -> lessByID y z = false -> lessByID x z = false) ->
  forall i j x y, (i < j)%nat ->
    sortItemsByID xorshift_Next items !! i = Some x ->
    sortItemsByID xorshift_Next items !! j = Some y ->
    lessByID y x = false.
Proof.
  intros Hntrans i j x y Hij Hx Hy.
  apply (sortedSeg_lookup lessByID (sortItemsByID xorshift_Next items) i j);
    try done.
  assert (length (sortItemsByID xorshift_Next items) = length items) as ->
    by (apply Permutation_length, Slice_Permutation).
  apply Slice_sorted_on; [|done]. intros u v _ _. apply lessByID_asym.
Qed.

(** X22. Where "not less" of the comparator is transitive on the items
    given, [sortItemsByID] puts them in order, however many there are: no
    item is less than an item before it. *)
Theorem sortItemsByID_sorted (items : list Item) :
  (forall x y z, x ∈ items -> y ∈ items -> z ∈ items ->
     lessByID x y = false -> lessByID y z = false -> lessByID x z = false) ->
  forall i j x y, (i < j)%nat ->
    sortItemsByID xorshift_Next items !! i = Some x ->
    sortItemsByID xorshift_Next items !! j = Some y ->
    lessByID y x = false.
Proof. apply sortItemsByID_sorted_on. Qed.

Lemma sorted_elem_of (items : list Item) (i : nat) (x : Item) :
  sortItemsByID xorshift_Next items !! i = Some x -> x ∈ items.
Proof.
  intros Hx. apply list_elem_of_lookup_2 in Hx.
  by rewrite (Slice_Permutation lessByID xorshift_Next items) in Hx.
Qed.

(** X23. When every id is an integer, [sortItemsByID] puts the items in
    the order of these integers, smallest first. *)
Theorem sortItemsByID_numeric (items : list Item) :
  Forall (fun r => is_Some (strconv.Atoi (ID r))) items ->
  forall i j x y, (i < j)%nat ->
    sortItemsByID xorshift_Next items !! i = Some x ->
    sortItemsByID xorshift_Next items !! j = Some y ->
    exists m n, strconv.Atoi (ID x) = Some m /\ strconv.Atoi (ID y) = Some n
                /\ m <= n.
Proof.
  intros Hnum i j x y Hij Hx Hy. rewrite Forall_forall in Hnum.
  destruct (Hnum x (sorted_elem_of items i x Hx)) as [m Hm].
  destruct (Hnum y (sorted_elem_of items j y Hy)) as [n Hn].
  exists m, n. split; [done|]. split; [done|].
  assert (lessByID y x = false) as Hless.
  { apply (sortItemsByID_sorted_on items) with (i := i) (j := j); try done.
    intros u v w Hu Hv Hw. unfold lessByID.
    destruct (Hnum u Hu) as [a ->], (Hnum v Hv) as [b ->], (Hnum w Hw) as [c ->].
    intros H1%Z.ltb_ge H2%Z.ltb_ge. apply Z.ltb_ge. lia. }
  unfold lessByID in Hless. rewrite Hm, Hn in Hless. by apply Z.ltb_ge in Hless.
Qed.

(** X24. When no id is an integer, [sortItemsByID] puts the items in the
    byte-wise order of their ids. *)
Theorem sortItemsByID_strings (items : list Item) :
  Forall (fun r => strconv.Atoi (ID r) = None) items ->
  forall i j x y, (i < j)%nat ->
    sortItemsByID xorshift_Next items !! i = Some x ->
    sortItemsByID xorshift_Next items !! j = Some y ->
    String.ltb (ID y) (ID x) = false.
Proof.
  intros Hstr i j x y Hij Hx Hy. rewrite Forall_forall in Hstr.
  pose proof (Hstr y (sorted_elem_of items j y Hy)) as Hn.
  assert (lessByID y x = false) as Hless.
  { apply (sortItemsByID_sorted_on items) with (i := i) (j := j); try done.
    intros u v w Hu Hv Hw. unfold lessByID.
    rewrite (Hstr u Hu), (Hstr v Hv). apply ltb_ntrans. }
  unfold lessByID in Hless. by rewrite Hn in Hless.
Qed.

End SorterSorted.

Lemma sortItemsByID_sorted_witness :
  (forall x y z,
      x ∈ [mkItem "abc" "c" "Pet"; mkItem "10" "b" "Pet"; mkItem "2" "a" "Pet"] ->
      y ∈ [mkItem "abc" "c" "Pet"; mkItem "10" "b" "Pet"; mkItem "2" "a" "Pet"] ->
      z ∈ [mkItem "abc" "c" "Pet"; mkItem "10" "b" "Pet"; mkItem "2" "a" "Pet"] ->
      lessByID x y = false -> lessByID y z = false -> lessByID x z = false)
  /\ lessByID (mkItem "10" "b" "Pet") (mkItem "2" "a" "Pet") = false.
Proof.
  assert (forall x y z,
      x ∈ [mkItem "abc" "c" "Pet"; mkItem "10" "b" "Pet"; mkItem "2" "a" "Pet"] ->
      y ∈ [mkItem "abc" "c" "Pet"; mkItem "10" "b" "Pet"; mkItem "2" "a" "Pet"] ->
      z ∈ [mkItem "abc" "c" "Pet"; mkItem "10" "b" "Pet"; mkItem "2" "a" "Pet"] ->
      lessByID x y = false -> lessByID y z = false -> lessByID x z = false) as H.
  { intros x y z Hx Hy Hz.
    repeat (apply elem_of_cons in Hx as [->|Hx]); [| | |by apply elem_of_nil in Hx];
      (repeat (apply elem_of_cons in Hy as [->|Hy]);
         [| | |by apply elem_of_nil in Hy]);
      (repeat (apply elem_of_cons in Hz as [->|Hz]);
         [| | |by apply elem_of_nil in Hz]);
      vm_compute; congruence. }
  split; [exact H|].
  apply (sortItemsByID_sorted (fun x => x)
           [mkItem "abc" "c" "Pet"; mkItem "10" "b" "Pet"; mkItem "2" "a" "Pet"]
           H 0%nat 1%nat); [lia|reflexivity|reflexivity].
Defined.

Lemma sortItemsByID_numeric_witness :
  Forall (fun r => is_Some (strconv.Atoi (ID r)))
    [mkItem "14" "n" "Pet"; mkItem "13" "m" "Pet"; mkItem "12" "l" "Pet";
     mkItem "11" "k" "Pet"; mkItem "10" "j" "Pet"; mkItem "9" "i" "Pet";
     mkItem "8" "h" "Pet"; mkItem "7" "g" "Pet"; mkItem "6" "f" "Pet";
     mkItem "5" "e" "Pet"; mkItem "4" "d" "Pet"; mkItem "3" "c" "Pet";
     mkItem "2" "b" "Pet"; mkItem "1" "a" "Pet"]
  /\ exists m n, strconv.Atoi "9" = Some m /\ strconv.Atoi "10" = Some n /\ m <= n.
Proof.
  assert (Forall (fun r => is_Some (strconv.Atoi (ID r)))
    [mkItem "14" "n" "Pet"; mkItem "13" "m" "Pet"; mkItem "12" "l" "Pet";
     mkItem "11" "k" "Pet"; mkItem "10" "j" "Pet"; mkItem "9" "i" "Pet";
     mkItem "8" "h" "Pet"; mkItem "7" "g" "Pet"; mkItem "6" "f" "Pet";
     mkItem "5" "e" "Pet"; mkItem "4" "d" "Pet"; mkItem "3" "c" "Pet";
     mkItem "2" "b" "Pet"; mkItem "1" "a" "Pet"]) as H.
  { repeat constructor; eexists; vm_compute; reflexivity. }
  split; [exact H|].
  apply (sortItemsByID_numeric (fun x => x) _ H 8%nat 9%nat
           (mkItem "9" "i" "Pet") (mkItem "10" "j" "Pet"));
    [lia|vm_compute; reflexivity|vm_compute; reflexivity].
Defined.

Lemma sortItemsByID_strings_witness :
  Forall (fun r => strconv.Atoi (ID r) = None)
    [mkItem "b7" "x" "Pet"; mkItem "a" "y" "Pet"; mkItem "B" "z" "Pet"]
  /\ String.ltb "a" "B" = false.
Proof.
  assert (Forall (fun r => strconv.Atoi (ID r) = None)
    [mkItem "b7" "x" "Pet"; mkItem "a" "y" "Pet"; mkItem "B" "z" "Pet"]) as H.
  { repeat constructor. }
  split; [exact H|].
  apply (sortItemsByID_strings (fun x => x) _ H 0%nat 1%nat
           (mkItem "B" "z" "Pet") (mkItem "a" "y" "Pet"));
    [lia|vm_compute; reflexivity|vm_compute; reflexivity].
Defined.


(** ** The order of the keys in a file *)

Lemma leb_ltb (s t : string) : String.leb s t = negb (String.ltb t s).
Proof.
  unfold String.leb, String.ltb. rewrite (String.compare_antisym s t).
  by destruct (String.compare t s).
Qed.

Lemma insertKey_Permutation (kv : string * string) (l : list (string * string)) :
  json.insertKey kv l ≡ₚ kv :: l.
Proof.
  induction l as [|kv' l IH]; cbn [json.insertKey]; [done|].
  destruct (String.leb kv.1 kv'.1); [done|].
  rewrite IH. apply Permutation_swap.
Qed.

Lemma sortKeys_Permutation (l : list (string * string)) : json.sortKeys l ≡ₚ l.
Proof.
  unfold json.sortKeys. induction l as [|kv l IH]; cbn [foldr]; [done|].
  by rewrite insertKey_Permutation, IH.
Qed.

Lemma insertKey_sorted (kv : string * string) (l : list (string * string)) :
  kv.1 ∉ l.*1 -> StronglySorted keyBefore l ->
  StronglySorted keyBefore (json.insertKey kv l).
Proof.
  intros Hnew Hsorted. induction Hsorted as [|kv' l Hsorted IH Hall];
    cbn [json.insertKey]; [repeat constructor|].
  rewrite fmap_cons, not_elem_of_cons in Hnew. destruct Hnew as [Hne Hnew].
  rewrite leb_ltb. destruct (String.ltb kv'.1 kv.1) eqn:Hlt; cbn [negb].
  - constructor; [by apply IH|].
    rewrite (insertKey_Permutation kv l). by constructor.
  - assert (keyBefore kv kv') as Hb.
    { unfold keyBefore. destruct (String.ltb kv.1 kv'.1) eqn:Hlt'; [done|].
      destruct Hne. by apply ltb_total. }
    constructor; [by constructor|]. constructor; [done|].
    eapply Forall_impl; [exact Hall|]. intros kv'' Hb'. unfold keyBefore in *.
    destruct (String.ltb kv.1 kv''.1) eqn:Hlt''; [done|].
    rewrite (ltb_ntrans kv.1 kv''.1 kv'.1) in Hb; [done|done|].
    by apply ltb_asym.
Qed.

Lemma sortKeys_sorted (l : list (string * string)) :
  NoDup l.*1 -> StronglySorted keyBefore (json.sortKeys l).
Proof.
  unfold json.sortKeys. induction l as [|kv l IH]; cbn [foldr];
    [constructor|].
  rewrite fmap_cons. intros [Hnew Hnd]%NoDup_cons.
  apply insertKey_sorted; [|by apply IH].
  fold (json.sortKeys l). by rewrite (sortKeys_Permutation l).
Qed.

(** X25. The JSON object [saveMapToJSON] writes lists every entry of the
    table once, in the strictly increasing byte-wise order of the keys
    (so "10" comes before "2"), whatever the order of the items was. *)
Theorem saveMapToJSON_keys (quote : string -> string) (fs : os.FS)
    (filePath : filepath.Path) (itemMap : gmap string string) :
  exists kvs,
    kvs ≡ₚ map_to_list itemMap
    /\ StronglySorted keyBefore kvs
    /\ saveMapToJSON quote fs filePath itemMap
       = let jsonData :=
           match kvs with
           | [] => "{}"
           | _ => "{" +:+ json.nl +:+ json.members quote kvs +:+ json.nl +:+ "}"
           end in
         ([evWriteFile filePath jsonData (os.WriteFile fs filePath jsonData)],
          os.WriteFile fs filePath jsonData).
Proof.
  exists (json.sortKeys (map_to_list itemMap)).
  split; [apply sortKeys_Permutation|].
  split; [apply sortKeys_sorted, NoDup_fst_map_to_list|].
  unfold saveMapToJSON, json.MarshalIndent. cbn zeta.
  by destruct (json.sortKeys (map_to_list itemMap)).
Qed.

(** ** No index out of range *)

Lemma max_ge (values : list Z) (v : Z) : v ∈ values -> v <= max values.
Proof.
  intros Hv. destruct values as [|x values]; [by apply elem_of_nil in Hv|].
  unfold max. cbn [hd].
  by destruct (max_fold (x :: values) x) as (_ & _ & Hall); apply Hall.
Qed.

(** X26. In the row loop of [processCSV] no index is out of range: once
    the three columns are found and the row has passed the check of its
    length, each of the three positions is a position of the row. *)
Theorem processCSV_index_in_range (header record : list string) (idx : Z) :
  let cols := findColumns header 0 (mkColumns (-1) (-1) (-1)) in
  itemIDIndex cols <> -1 -> nameIndex cols <> -1 -> categoryIndex cols <> -1 ->
  (Z.of_nat (length record)
     <=? max [itemIDIndex cols; nameIndex cols; categoryIndex cols]) = false ->
  idx ∈ [itemIDIndex cols; nameIndex cols; categoryIndex cols] ->
  0 <= idx < Z.of_nat (length record)
  /\ exists s, record !! Z.to_nat idx = Some s /\ field record idx = s.
Proof.
  intros cols H1 H2 H3 Hlen%Z.leb_gt Hidx.
  pose proof (max_ge _ _ Hidx) as Hmax.
  assert (0 <= idx) as Hnn.
  { repeat (apply elem_of_cons in Hidx as [->|Hidx]);
      [| | |by apply elem_of_nil in Hidx].
    - destruct (resolves_found header "Item ID" (itemIDIndex cols))
        as (k & -> & _);
        [apply (findColumns_resolves header "Item ID"); set_solver|done|lia].
    - destruct (resolves_found header "Name" (nameIndex cols)) as (k & -> & _);
        [apply (findColumns_resolves header "Name"); set_solver|done|lia].
    - destruct (resolves_found header "Category" (categoryIndex cols))
        as (k & -> & _);
        [apply (findColumns_resolves header "Category"); set_solver|done|lia]. }
  split; [lia|].
  destruct (lookup_lt_is_Some_2 record (Z.to_nat idx)) as [s Hs]; [lia|].
  exists s. split; [done|]. unfold field.
  apply nth_lookup_Some with (d := EmptyString) in Hs. done.
Qed.

Lemma processCSV_index_in_range_witness :
  itemIDIndex (findColumns ["Name"; " Item ID "; "Notes"; "Name"; "Category"] 0
                           (mkColumns (-1) (-1) (-1))) <> -1
  /\ 0 <= 3 < Z.of_nat (length ["old"; "1"; "-"; "Red Chair"; "House"])
  /\ exists s, ["old"; "1"; "-"; "Red Chair"; "House"] !! Z.to_nat 3 = Some s
               /\ field ["old"; "1"; "-"; "Red Chair"; "House"] 3 = s.
Proof.
  split; [vm_compute; discriminate|].
  apply (processCSV_index_in_range
           ["Name"; " Item ID "; "Notes"; "Name"; "Category"]
           ["old"; "1"; "-"; "Red Chair"; "House"] 3);
    [vm_compute; discriminate|vm_compute; discriminate|vm_compute; discriminate
    |vm_compute; reflexivity|].
  vm_compute. right; left.
Defined.

(** ** The category tables and the table of all items *)

Lemma filter_filter_ID (items : list Item) (c k : string) :
  filter (fun r => ID r = k) (filter (fun r => Category r = c) items)
  = filter (fun r => Category r = c) (filter (fun r => ID r = k) items).
Proof.
  rewrite !list_filter_filter. apply filter_ext_in. intros; tauto.
Qed.

(** X27. Every key of the table of a category is a key of the table of
    all items; and when no two items have the same id, the table of all
    items is made of the tables of the categories: an entry is in it
    exactly when it is in the table of some category. *)
Theorem convertItemsToMap_categories (items : list Item) :
  (forall c k,
      is_Some (convertItemsToMap (filter (fun r => Category r = c) items) !! k) ->
      is_Some (convertItemsToMap items !! k))
  /\ (NoDup (ID <$> items) ->
      forall k v,
        convertItemsToMap items !! k = Some v
        <-> exists c,
              convertItemsToMap (filter (fun r => Category r = c) items) !! k
              = Some v).
Proof.
  split.
  - intros c k. rewrite <- !elem_of_dom, !convertItemsToMap_dom.
    rewrite !elem_of_list_to_set, !list_elem_of_fmap.
    intros (r & -> & [_ Hr]%list_elem_of_filter). by exists r.
  - intros Hnd k v. rewrite convertItemsToMap_lookup.
    pose proof (filter_ID_NoDup items k Hnd) as Hlen.
    destruct (filter (fun r => ID r = k) items) as [|r [|r' l]] eqn:Hf;
      cbn in Hlen; [| |lia].
    + split; [done|]. intros [c Hc]. rewrite convertItemsToMap_lookup in Hc.
      by rewrite filter_filter_ID, Hf in Hc.
    + cbn. split.
      * intros [= <-]. exists (Category r).
        rewrite convertItemsToMap_lookup, filter_filter_ID, Hf.
        rewrite filter_cons. by destruct (decide (Category r = Category r)).
      * intros [c Hc]. rewrite convertItemsToMap_lookup, filter_filter_ID, Hf in Hc.
        rewrite filter_cons in Hc. by destruct (decide (Category r = c)).
Qed.


(** ** Sorting a few items changes no table *)

Lemma convertItemsToMap_filter_eq (items items' : list Item) :
  (forall k, filter (fun r => ID r = k) items' = filter (fun r => ID r = k) items) ->
  convertItemsToMap items' = convertItemsToMap items.
Proof.
  intros H. apply map_eq. intros k. by rewrite !convertItemsToMap_lookup, H.
Qed.

(** X28. For at most 12 items, sorting changes no table even when ids
    repeat: the table of all items and the table of every category are
    those of the items in the order of the rows, so the last row with an
    id gives its name. *)
Theorem sortItemsByID_tables_short (xorshift_Next : Z -> Z) (items : list Item) :
  (length items <= 12)%nat ->
  convertItemsToMap (sortItemsByID xorshift_Next items) = convertItemsToMap items
  /\ forall category,
       convertItemsToMap (filter (fun r => Category r = category)
                                 (sortItemsByID xorshift_Next items))
       = convertItemsToMap (filter (fun r => Category r = category) items).
Proof.
  intros Hlen. split.
  - apply convertItemsToMap_filter_eq. intros k.
    apply (Slice_short_filter lessByID xorshift_Next (fun r => ID r = k));
      [|done].
    intros u v Hu Hv. apply lessByID_same_id. congruence.
  - intros category. apply convertItemsToMap_filter_eq. intros k.
    rewrite !list_filter_filter.
    apply (Slice_short_filter lessByID xorshift_Next
             (fun r => ID r = k /\ Category r = category)); [|done].
    intros u v [Hu _] [Hv _]. apply lessByID_same_id. congruence.
Qed.

Lemma sortItemsByID_tables_short_witness :
  (length [mkItem "7" "Old Cat" "Pet"; mkItem "3" "Rug" "House Floor";
           mkItem "7" "New Cat" "Pet"; mkItem "07" "Sofa" "House"] <= 12)%nat
  /\ convertItemsToMap
       (sortItemsByID (fun x => x)
          [mkItem "7" "Old Cat" "Pet"; mkItem "3" "Rug" "House Floor";
           mkItem "7" "New Cat" "Pet"; mkItem "07" "Sofa" "House"]) !! "7"
     = Some "New Cat".
Proof.
  split; [cbn; lia|].
  destruct (sortItemsByID_tables_short (fun x => x)
              [mkItem "7" "Old Cat" "Pet"; mkItem "3" "Rug" "House Floor";
               mkItem "7" "New Cat" "Pet"; mkItem "07" "Sofa" "House"])
    as [H _]; [cbn; lia|].
  rewrite H. vm_compute. reflexivity.
Defined.


(** ** The counts a run reports for the categories *)

Section Counts.

Variable xorshift_Next : Z -> Z.
Variable quote : string -> string.
Variable fs : os.FS.
Variable seed : list nat.

Lemma saveCategory_saved_in (outputDir : string)
    (visited : list (string * list Item)) (category : string)
    (path : filepath.Path) (n : nat) :
  evPrint (msgCategorySaved category path n)
    ∈ (visited ≫= saveCategory quote fs outputDir) ->
  exists g, (category, g) ∈ visited /\ n = length g
            /\ path = categoryPath outputDir category
            /\ os.WriteFile fs path (categoryData quote g) = None.
Proof.
  intros ([c g] & Hin & Hv)%list_elem_of_bind.
  rewrite saveCategory_events in Hin. cbn zeta in Hin.
  apply elem_of_cons in Hin as [|Hin]; [discriminate|].
  apply list_elem_of_singleton in Hin.
  destruct (os.WriteFile fs (categoryPath outputDir c) (categoryData quote g))
    eqn:Hw; [discriminate|].
  injection Hin as -> -> ->. by exists g.
Qed.

(** X29. When a run reports a category as saved, the file of the category
    was written without error, and the number of items it reports is the
    number of items of that category that [processCSV] returned; the file
    has at most that many entries. *)
Theorem main_category_counts (inputFile outputDir : string) (items : list Item)
    (category : string) (path : filepath.Path) (n : nat) :
  processCSV fs inputFile = inl items ->
  evPrint (msgCategorySaved category path n)
    ∈ (main xorshift_Next quote fs seed inputFile outputDir).1 ->
  n = length (filter (fun r => Category r = category) items)
  /\ (0 < n)%nat
  /\ path = categoryPath outputDir category
  /\ (exists data, evWriteFile path data None
                     ∈ (main xorshift_Next quote fs seed inputFile outputDir).1)
  /\ (size (convertItemsToMap
              (filter (fun r => Category r = category)
                      (sortItemsByID xorshift_Next items))) <= n)%nat.
Proof.
  intros Hp.
  destruct (main_cases xorshift_Next quote fs seed inputFile outputDir)
    as [[_ ->]|[(_ & e & _ & ->)|[(_ & items' & e & _ & _ & ->)
       |(_ & items' & Hp' & _ & ->)]]]; cbn [fst].
  - intros H. apply list_elem_of_singleton in H. discriminate.
  - intros H. apply list_elem_of_singleton in H. discriminate.
  - intros H. apply elem_of_cons in H as [|H]; [discriminate|].
    apply list_elem_of_singleton in H. discriminate.
  - rewrite Hp in Hp'. injection Hp' as <-. cbn zeta.
    destruct (os.WriteFile fs _ _) as [e|]; cbn [fst]; intros H.
    + apply elem_of_cons in H as [|H]; [discriminate|].
      apply elem_of_cons in H as [|H]; [discriminate|].
      apply list_elem_of_singleton in H. discriminate.
    + apply elem_of_cons in H as [|H]; [discriminate|].
      apply elem_of_cons in H as [|H]; [discriminate|].
      apply elem_of_cons in H as [|H]; [discriminate|].
      apply elem_of_app in H as [H|H].
      2:{ apply list_elem_of_singleton in H. discriminate. }
      apply saveCategory_saved_in in H as Hsaved.
      destruct Hsaved as (g & Hin & -> & -> & Hw).
      apply visited_entry in Hin as Hg. destruct Hg as [Hg Hne].
      assert (sortItemsByID xorshift_Next items ≡ₚ items) as Hperm
        by apply Slice_Permutation.
      split.
      { rewrite Hg. apply Permutation_length. by rewrite Hperm. }
      split; [destruct g; [done|cbn; lia]|].
      split; [done|]. split.
      * exists (categoryData quote g).
        do 3 right. apply elem_of_app. left.
        apply list_elem_of_bind. exists (category, g). split; [|done].
        rewrite saveCategory_events. cbn zeta. rewrite Hw. left.
      * rewrite <- Hg.
        destruct (convertItemsToMap_keys g) as (_ & _ & Hsize). done.
Qed.

End Counts.

Lemma main_category_counts_witness :
  processCSV (fsOf sampleFile) "items.csv" = inl sampleItems
  /\ evPrint (msgCategorySaved "House" ("output", "House.json") 1)
       ∈ (main (fun x => x) (fun s => s) (fsOf sampleFile) [] "items.csv"
               "output").1
  /\ 1%nat = length (filter (fun r => Category r = "House") sampleItems).
Proof.
  assert (processCSV (fsOf sampleFile) "items.csv" = inl sampleItems) as Hp
    by (vm_compute; reflexivity).
  assert (evPrint (msgCategorySaved "House" ("output", "House.json") 1)
            ∈ (main (fun x => x) (fun s => s) (fsOf sampleFile) [] "items.csv"
                    "output").1) as Hin.
  { vm_compute. do 4 right. left. }
  split; [exact Hp|]. split; [exact Hin|].
  apply (main_category_counts (fun x => x) (fun s => s) (fsOf sampleFile) []
           "items.csv" "output" sampleItems "House" _ 1%nat Hp Hin).
Defined.

